(** * A shallow embedding of the mini search engine (Boolean retrieval, VSM ranking, metrics)

    Sources embedded here: [src/boolean_ir.py] (inverted index, Boolean
    query evaluator, precision/recall helper) and [src/search_engine.py]
    (VSM builder, TF-IDF weighting, cosine ranker, rank metrics).

    Modelling conventions.
    - A Python [str] is a [string]; characters are ASCII code points.  The
      character classes used by the source ([\w], [\s], [str.lower],
      [str.strip], [str.split]) are the ASCII restrictions of Python's
      Unicode classes; a character above 127 is treated as a non-word,
      non-space character that [lower] leaves alone.
    - A Python [set] of strings is a [gset string].  The inverted index,
      which is only looked up and whose values are only united, is a
      [gmap]; every other [dict] (the document collection, counters, the
      weight model) is the list of its items in insertion order, with
      distinct keys.
    - A Python [float] is a real number, [math.log] is [ln], and [round]
      rounds to the nearest multiple of 1/100, ties to even.  Where the
      result of the source depends on the last bit of a float (a decimal
      tie of [round], the order of two cosines that are equal as reals)
      or on its range (overflow of a hand-made weight), the theorems
      state only what holds either way or restrict the input.
    - A Python call either returns or raises: the operations that can
      raise ([list.pop], [d[k]], [math.log], [math.log2], [math.sqrt],
      [/]) return an [outcome], and so does every function that calls
      them.  A Python list used as a stack has its top at the head.
    - [ps.stem] and the stop word list come from NLTK; they are
      parameters of [preprocess] and of everything built on it. *)

From Stdlib Require Import Reals Lra Ascii String.
From stdpp Require Import gmap strings list fin_maps sets sorting.

#[local] Set Warnings "-clear-no-such-hyp".
Local Open Scope list_scope.

(** ** Python exceptions as an error monad *)

Inductive exn : Set := IndexError | KeyError | ValueError | ZeroDivisionError.

Inductive outcome (A : Type) : Type :=
| Ok (a : A)
| Raise (e : exn).
Arguments Ok {A} a.
Arguments Raise {A} e.

#[global] Instance outcome_ret : MRet outcome := @Ok.
#[global] Instance outcome_bind : MBind outcome := λ A B f m,
  match m with
  | Ok a => f a
  | Raise e => Raise e
  end.

Definition returns {A} (m : outcome A) : Prop := ∃ a, m = Ok a.

(** [for x in xs: st = body(st, x)] where the body may raise. *)
Fixpoint for_each {S X} (body : S → X → outcome S) (st : S) (xs : list X) : outcome S :=
  match xs with
  | [] => Ok st
  | x :: xs' => st' ← body st x; for_each body st' xs'
  end.

(** [list.pop()] on a stack whose top (Python's last element) is the head. *)
Definition pop {A} (st : list A) : outcome (A * list A) :=
  match st with
  | [] => Raise IndexError
  | x :: st' => Ok (x, st')
  end.

(** ** Python numbers, slices and dicts *)

Module PyNum.

(** [a / b] *)
Definition py_div (a b : R) : outcome R :=
  if Req_dec_T b 0 then Raise ZeroDivisionError else Ok (a / b)%R.

(** [math.log(x)] *)
Definition py_log (x : R) : outcome R :=
  if Rlt_dec 0 x then Ok (ln x) else Raise ValueError.

(** [math.log2(x)] *)
Definition py_log2 (x : R) : outcome R :=
  if Rlt_dec 0 x then Ok (ln x / ln 2)%R else Raise ValueError.

(** [math.sqrt(x)] *)
Definition py_sqrt (x : R) : outcome R :=
  if Rle_dec 0 x then Ok (sqrt x) else Raise ValueError.

(** [sum(xs)]: accumulation from 0, left to right. *)
Definition py_sum (xs : list R) : R := foldl Rplus 0%R xs.

(** Rounding to the nearest integer, ties to the even one. *)
Definition round_half_even (y : R) : Z :=
  let f := Int_part y in
  let d := (y - IZR f)%R in
  if Rlt_dec d (1 / 2) then f
  else if Rlt_dec (1 / 2) d then (f + 1)%Z
  else if Z.even f then f else (f + 1)%Z.

(** [round(x, 2)] *)
Definition round2 (x : R) : R := (IZR (round_half_even (x * 100)) / 100)%R.

(** [x < y] on floats is decided. *)
#[global] Instance Rlt_decision (x y : R) : Decision (x < y)%R := Rlt_dec x y.

(** [xs[:k]]: a negative [k] counts from the end. *)
Definition slice_to {A} (k : Z) (xs : list A) : list A :=
  if (0 <=? k)%Z then take (Z.to_nat k) xs
  else take (length xs - Z.to_nat (- k)) xs.

End PyNum.

(** A dict as the list of its items in insertion order. *)
Module Dict.
Section dict.
Context {V : Type}.

(** [d.get(k)] *)
Fixpoint get (d : list (string * V)) (k : string) : option V :=
  match d with
  | [] => None
  | (k', v) :: d' => if String.eqb k k' then Some v else get d' k
  end.

(** [d[k] = v] *)
Fixpoint set (d : list (string * V)) (k : string) (v : V) : list (string * V) :=
  match d with
  | [] => [(k, v)]
  | (k', v') :: d' => if String.eqb k k' then (k, v) :: d' else (k', v') :: set d' k v
  end.

(** [d[k]] *)
Definition item (d : list (string * V)) (k : string) : outcome V :=
  match get d k with
  | Some v => Ok v
  | None => Raise KeyError
  end.

(** [k in d] *)
Definition mem (d : list (string * V)) (k : string) : bool :=
  match get d k with
  | Some _ => true
  | None => false
  end.

End dict.
End Dict.

(** ** Characters and strings *)

Module Chars.

Definition code (c : ascii) : N := N_of_ascii c.

Definition between (lo hi : N) (c : ascii) : bool :=
  ((lo <=? code c) && (code c <=? hi))%N.

Definition is_upper (c : ascii) : bool := between 65 90 c.
Definition is_lower (c : ascii) : bool := between 97 122 c.
Definition is_digit (c : ascii) : bool := between 48 57 c.

(** [\w] *)
Definition is_word (c : ascii) : bool :=
  is_lower c || is_upper c || is_digit c || (code c =? 95)%N.

(** [[\w-]] *)
Definition is_word_or_hyphen (c : ascii) : bool :=
  is_word c || (code c =? 45)%N.

(** [\s], [str.isspace] *)
Definition is_space (c : ascii) : bool :=
  between 9 13 c || between 28 32 c.

Definition lower_char (c : ascii) : ascii :=
  if is_upper c then ascii_of_N (code c + 32) else c.

Definition upper_char (c : ascii) : ascii :=
  if is_lower c then ascii_of_N (code c - 32) else c.

Definition lower (s : list ascii) : list ascii := map lower_char s.
Definition upper (s : list ascii) : list ascii := map upper_char s.

Fixpoint lstrip (s : list ascii) : list ascii :=
  match s with
  | c :: s' => if is_space c then lstrip s' else s
  | [] => []
  end.

Definition strip (s : list ascii) : list ascii :=
  reverse (lstrip (reverse (lstrip s))).

End Chars.

(** ** [re.findall(r'\bnot\b|\band\b|\bor\b|[\w-]+', q)] *)

Module Lexer.
Import Chars.

Definition word_at (o : option ascii) : bool :=
  match o with
  | Some c => is_word c
  | None => false
  end.

(** [\b] between the character [prev] before the position and the text
    [s] after it (string start and string end count as non-word). *)
Definition boundary (prev : option ascii) (s : list ascii) : bool :=
  xorb (word_at prev) (word_at (head s)).

Fixpoint starts_with (kw s : list ascii) : bool :=
  match kw, s with
  | [], _ => true
  | k :: kw', c :: s' => Ascii.eqb k c && starts_with kw' s'
  | _ :: _, [] => false
  end.

(** The alternative [\bkw\b]. *)
Definition match_kw (kw : list ascii) (prev : option ascii) (s : list ascii)
  : option (list ascii * list ascii) :=
  let rest := drop (length kw) s in
  if boundary prev s && starts_with kw s && boundary (last kw) rest
  then Some (kw, rest) else None.

(** The alternative [[\w-]+]: the longest non-empty run. *)
Fixpoint run (s : list ascii) : list ascii * list ascii :=
  match s with
  | c :: s' =>
      if is_word_or_hyphen c then let '(t, r) := run s' in (c :: t, r)
      else ([], s)
  | [] => ([], [])
  end.

Definition match_run (s : list ascii) : option (list ascii * list ascii) :=
  match run s with
  | ([], _) => None
  | (t, r) => Some (t, r)
  end.

Definition or_else {A} (a b : option A) : option A :=
  match a with Some _ => a | None => b end.

Definition kw_not : list ascii := list_ascii_of_string "not".
Definition kw_and : list ascii := list_ascii_of_string "and".
Definition kw_or : list ascii := list_ascii_of_string "or".

(** One match attempt at a position: the alternatives in pattern order. *)
Definition match_at (prev : option ascii) (s : list ascii)
  : option (list ascii * list ascii) :=
  or_else (match_kw kw_not prev s)
    (or_else (match_kw kw_and prev s)
       (or_else (match_kw kw_or prev s) (match_run s))).

(** The scan of [findall]: on a match emit it and resume after it,
    otherwise move one character on.  Every match is non-empty, so
    [length s] steps are enough. *)
Fixpoint findall_from (fuel : nat) (prev : option ascii) (s : list ascii)
  : list (list ascii) :=
  match fuel with
  | O => []
  | S fuel' =>
      match s with
      | [] => []
      | c :: s' =>
          match match_at prev s with
          | Some (tok, rest) => tok :: findall_from fuel' (last tok) rest
          | None => findall_from fuel' (Some c) s'
          end
      end
  end.

Definition findall (s : list ascii) : list (list ascii) :=
  findall_from (length s) None s.

End Lexer.

(** ** [boolean_ir.py] *)

Module BooleanIR.

(** The document collection [docs]: the items of a dict from file name to
    token list, in insertion order. *)
Abbreviation Docs := (list (string * list string)).

(** [inverted[t].add(doc)] on a [defaultdict(set)]. *)
Definition add_posting (doc : string) (inverted : gmap string (gset string))
    (t : string) : gmap string (gset string) :=
  <[t := default ∅ (inverted !! t) ∪ {[doc]}]> inverted.

(** [for t in set(toks): inverted[t].add(doc)] *)
Definition index_doc (inverted : gmap string (gset string))
    (item : string * list string) : gmap string (gset string) :=
  foldl (add_posting item.1) inverted (elements (list_to_set item.2 : gset string)).

Definition build_inverted_index (docs : Docs) : gmap string (gset string) :=
  foldl index_doc ∅ docs.

(** [tokens = [t.upper() if t in ('and', 'or', 'not') else t for t in tokens]] *)
Definition normalise (t : list ascii) : string :=
  let s := string_of_list_ascii t in
  if bool_decide (s ∈ ["and"; "or"; "not"])
  then string_of_list_ascii (Chars.upper t) else s.

Definition tokenize (query : string) : list string :=
  let q := Chars.strip (Chars.lower (list_ascii_of_string query)) in
  normalise <$> Lexer.findall q.

Definition is_operator (tok : string) : bool :=
  bool_decide (tok ∈ ["AND"; "OR"; "NOT"]).

Definition prec : list (string * nat) := [("NOT", 3); ("AND", 2); ("OR", 1)].

(** [prec[tok]] *)
Definition prec_item (tok : string) : outcome nat :=
  Dict.item prec tok.

(** [prec.get(tok, 0)] *)
Definition prec_get (tok : string) : nat := default 0 (Dict.get prec tok).

(** [while stack and prec.get(stack[-1], 0) >= prec[tok]:
        output.append(stack.pop())] *)
Fixpoint pop_higher (tok : string) (output stack : list string)
  : outcome (list string * list string) :=
  match stack with
  | [] => Ok (output, [])
  | top :: stack' =>
      p ← prec_item tok;
      if (p <=? prec_get top)%nat
      then pop_higher tok (output ++ [top]) stack'
      else Ok (output, stack)
  end.

Definition shunt (st : list string * list string) (tok : string)
  : outcome (list string * list string) :=
  let '(output, stack) := st in
  if is_operator tok then
    '(output', stack') ← pop_higher tok output stack;
    Ok (output', tok :: stack')
  else Ok (output ++ [tok], stack).

(** Infix to postfix; the final [while stack: output.append(stack.pop())]
    empties the operator stack top first. *)
Definition to_postfix (tokens : list string) : outcome (list string) :=
  '(output, stack) ← for_each shunt ([], []) tokens;
  Ok (output ++ stack).

(** [all_docs]: the union of all the values of the index (the empty set
    for an empty index). *)
Definition universe (inverted_index : gmap string (gset string)) : gset string :=
  ⋃ (map_to_list inverted_index).*2.

(** One iteration of the postfix loop on the value stack. *)
Definition eval_tok (all_docs : gset string)
    (inverted_index : gmap string (gset string))
    (eval_stack : list (gset string)) (tok : string)
  : outcome (list (gset string)) :=
  if String.eqb tok "NOT" then
    let eval_stack1 :=
      match eval_stack with [] => [all_docs] | _ => eval_stack end in
    '(A, eval_stack2) ← pop eval_stack1;
    Ok ((all_docs ∖ A) :: eval_stack2)
  else if String.eqb tok "AND" then
    if (2 <=? length eval_stack)%nat then
      '(B, eval_stack1) ← pop eval_stack;
      '(A, eval_stack2) ← pop eval_stack1;
      Ok ((A ∩ B) :: eval_stack2)
    else Ok eval_stack
  else if String.eqb tok "OR" then
    if (2 <=? length eval_stack)%nat then
      '(B, eval_stack1) ← pop eval_stack;
      '(A, eval_stack2) ← pop eval_stack1;
      Ok ((A ∪ B) :: eval_stack2)
    else Ok eval_stack
  else Ok (default ∅ (inverted_index !! tok) :: eval_stack).

Definition eval_postfix (inverted_index : gmap string (gset string))
    (output : list string) : outcome (list (gset string)) :=
  for_each (eval_tok (universe inverted_index) inverted_index) [] output.

Definition eval_boolean (query : string)
    (inverted_index : gmap string (gset string)) : outcome (gset string) :=
  output ← to_postfix (tokenize query);
  eval_stack ← eval_postfix inverted_index output;
  Ok (match eval_stack with top :: _ => top | [] => ∅ end).

(** [precision_recall(result, gold)] *)
Definition precision_recall (result gold : gset string) : outcome (R * R) :=
  if bool_decide (result = ∅) && bool_decide (gold = ∅) then Ok (1, 1)%R
  else if bool_decide (result = ∅) then Ok (0, 0)%R
  else
    let tp := size (result ∩ gold) in
    precision ← PyNum.py_div (INR tp) (INR (size result));
    recall ← (if bool_decide (gold = ∅) then Ok 0%R
              else PyNum.py_div (INR tp) (INR (size gold)));
    Ok (PyNum.round2 precision, PyNum.round2 recall).

End BooleanIR.

(** ** [search_engine.py] *)

Module SearchEngine.
Import Chars PyNum BooleanIR.

(** [str.split()]: the maximal runs of non-space characters. *)
Fixpoint split_from (cur s : list ascii) : list (list ascii) :=
  match s with
  | [] => match cur with [] => [] | _ => [cur] end
  | c :: s' =>
      if is_space c
      then match cur with [] => split_from [] s' | _ => cur :: split_from [] s' end
      else split_from (cur ++ [c]) s'
  end.

Definition split (s : list ascii) : list (list ascii) := split_from [] s.

(** [sep.join(ws)] *)
Fixpoint join (sep : string) (ws : list string) : string :=
  match ws with
  | [] => ""
  | w :: ws' => match ws' with [] => w | _ => w +:+ sep +:+ join sep ws' end
  end.

(** [c[t] += 1] on a [Counter] *)
Definition count_up (c : list (string * nat)) (t : string) : list (string * nat) :=
  Dict.set c t (S (default 0 (Dict.get c t))).

(** [Counter(tokens)] *)
Definition Counter (tokens : list string) : list (string * nat) :=
  foldl count_up [] tokens.

(** The dict returned by [build_vsm]. *)
Record VSM : Type := {
  tf : list (string * list (string * nat));
  df : list (string * nat);
  idf : list (string * R);
  docs : Docs
}.

(** A weight model: per document, the weight of each of its terms. *)
Definition Weights : Type := list (string * list (string * R)).

(** [doc_scores.sort(key=lambda x: x[1], reverse=True)]: a stable sort,
    highest score first; equal scores keep their order. *)
Fixpoint insert_desc (x : string * R) (l : list (string * R)) : list (string * R) :=
  match l with
  | [] => [x]
  | y :: l' => if Rlt_dec x.2 y.2 then y :: insert_desc x l' else x :: l
  end.

Definition sort_desc (l : list (string * R)) : list (string * R) :=
  foldr insert_desc [] l.

Section WithNLTK.

(** The NLTK collaborators of [preprocess]: the Porter stemmer [ps.stem]
    and the English stop word list. *)
Variable stem : string → string.
Variable STOPWORDS : gset string.

(** [re.sub(r"[^a-z0-9\s]", " ", text)], one character *)
Definition scrub_char (c : ascii) : ascii :=
  if is_lower c || is_digit c || is_space c then c else " "%char.

Definition preprocess (text : string) : list string :=
  let text1 := lower (list_ascii_of_string text) in
  let text2 := map scrub_char text1 in
  let words := string_of_list_ascii <$> split text2 in
  stem <$> filter (λ w, w ∉ STOPWORDS) words.

(** The body of the loop over [docs.items()] in [build_vsm]; the token
    lists of [docs] are joined before preprocessing. *)
Definition build_doc (acc : list (string * list (string * nat)) * list (string * nat))
    (entry : string * list string)
  : list (string * list (string * nat)) * list (string * nat) :=
  let '(tf, df) := acc in
  let '(doc_id, text) := entry in
  let tokens := preprocess (join " " text) in
  (Dict.set tf doc_id (Counter tokens),
   foldl count_up df (elements (list_to_set tokens : gset string))).

(** [math.log((N + 1) / (df[t] + 1)) + 1] *)
Definition idf_of (N : nat) (df : list (string * nat)) (t : string) : outcome R :=
  q ← py_div (INR (N + 1)) (INR (default 0 (Dict.get df t) + 1));
  l ← py_log q;
  Ok (l + 1)%R.

Definition build_vsm (docs : Docs) : outcome VSM :=
  let '(tf, df) := foldl build_doc ([], []) docs in
  let N := length docs in
  idf ← mapM (λ entry : string * nat, v ← idf_of N df entry.1; Ok (entry.1, v)) df;
  Ok {| tf := tf; df := df; idf := idf; docs := docs |}.

(** [vsm["idf"].get(term, 0)] *)
Definition idf_get (vsm : VSM) (term : string) : R :=
  default 0%R (Dict.get (idf vsm) term).

Definition weight_tfidf_standard (vsm : VSM) : Weights :=
  (λ entry : string * list (string * nat), (entry.1,
     (λ tfreq : string * nat,
        (tfreq.1, (INR tfreq.2 * idf_get vsm tfreq.1)%R)) <$> entry.2))
  <$> tf vsm.

Definition weight_tfidf_sublinear (vsm : VSM) : outcome Weights :=
  mapM (λ entry : string * list (string * nat),
      ws ← mapM (λ tfreq : string * nat,
              l ← py_log (INR tfreq.2);
              Ok (tfreq.1, ((1 + l) * idf_get vsm tfreq.1)%R)) entry.2;
      Ok (entry.1, ws))
    (tf vsm).

(** The query vector [q_vec] of [rank_vsm]. *)
Definition query_vector (scheme : string) (vsm : VSM) (q_tf : list (string * nat))
  : outcome (list (string * R)) :=
  mapM (λ tfreq : string * nat,
      w ← (if String.eqb scheme "sublinear"
           then l ← py_log (INR tfreq.2); Ok ((1 + l) * idf_get vsm tfreq.1)%R
           else Ok (INR tfreq.2 * idf_get vsm tfreq.1)%R);
      Ok (tfreq.1, w))
    q_tf.

(** [sum(weights[t] * q_vec[t] for t in q_vec if t in weights)] *)
Definition dot_product (weights q_vec : list (string * R)) : outcome R :=
  products ← mapM (λ t : string,
                      w ← Dict.item weights t; wq ← Dict.item q_vec t; Ok (w * wq)%R)
                (filter (λ t, Dict.mem weights t = true) q_vec.*1);
  Ok (py_sum products).

(** [sum(w**2 for w in d.values())] *)
Definition norm2 (d : list (string * R)) : R :=
  py_sum ((λ w, w ^ 2)%R <$> d.*2).

(** The body of the loop over [wm.items()] in [rank_vsm]. *)
Definition score_doc (q_vec : list (string * R)) (doc_scores : list (string * R))
    (entry : string * list (string * R)) : outcome (list (string * R)) :=
  let '(doc, weights) := entry in
  dot ← dot_product weights q_vec;
  let d_norm := norm2 weights in
  let q_norm := norm2 q_vec in
  if Req_dec_T d_norm 0 then Ok doc_scores
  else if Req_dec_T q_norm 0 then Ok doc_scores
  else
    root ← py_sqrt (d_norm * q_norm);
    score ← py_div dot root;
    if Rlt_dec 0 score then Ok (doc_scores ++ [(doc, score)]) else Ok doc_scores.

Definition rank_vsm (query : string) (vsm : VSM) (wm : Weights)
    (scheme : string) (top_k : Z) : outcome (list (string * R)) :=
  let q_tokens := preprocess query in
  let q_tf := Counter q_tokens in
  q_vec ← query_vector scheme vsm q_tf;
  doc_scores ← for_each (score_doc q_vec) [] wm;
  Ok (slice_to top_k (sort_desc doc_scores)).

End WithNLTK.

(** [enumerate(xs, start)] *)
Fixpoint enumerate {A} (start : nat) (xs : list A) : list (nat * A) :=
  match xs with
  | [] => []
  | x :: xs' => (start, x) :: enumerate (S start) xs'
  end.

(** The loop accumulating [ap] in [evaluate_vsm]; the state is
    [(num_hits, ap)]. *)
Definition ap_step (st : nat * R) (ih : nat * nat) : outcome (nat * R) :=
  let '(num_hits, ap) := st in
  let '(i, h) := ih in
  if (h =? 1)%nat then
    q ← py_div (INR (num_hits + 1)) (INR i);
    Ok ((num_hits + 1)%nat, (ap + q)%R)
  else Ok (num_hits, ap).

(** [h / math.log2(i + 1)] *)
Definition gain (ih : nat * nat) : outcome R :=
  l ← py_log2 (INR (ih.1 + 1));
  py_div (INR ih.2) l.

(** The five metrics of [evaluate_vsm] before rounding. *)
Definition metrics (results : list (string * R)) (gold_set : gset string) (k : Z)
  : outcome (R * R * R * R * R) :=
  let r := (slice_to k results).*1 in
  let hits := (λ doc : string, if bool_decide (doc ∈ gold_set) then 1 else 0)%nat <$> r in
  let nhits := INR (sum_list hits) in
  let ngold := INR (size gold_set) in
  precision ← py_div nhits (IZR k);
  recall ← (if bool_decide (gold_set ≠ ∅) then py_div nhits ngold else Ok 0%R);
  f1 ← (if Rlt_dec 0 (precision + recall)
        then py_div (2 * precision * recall) (precision + recall) else Ok 0%R);
  '(_, ap0) ← for_each ap_step (0%nat, 0%R) (enumerate 1 hits);
  ap ← (if bool_decide (gold_set ≠ ∅) then py_div ap0 ngold else Ok 0%R);
  gains ← mapM gain (enumerate 1 hits);
  let dcg := py_sum gains in
  let ideal_hits := Z.min (Z.of_nat (size gold_set)) k in
  ideal ← mapM (λ i : nat, gain (i, 1%nat)) (seq 1 (Z.to_nat ideal_hits));
  let idcg := py_sum ideal in
  ndcg ← (if Rlt_dec 0 idcg then py_div dcg idcg else Ok 0%R);
  Ok (precision, recall, f1, ap, ndcg).

Definition evaluate_vsm (results : list (string * R)) (gold_set : gset string) (k : Z)
  : outcome (R * R * R * R * R) :=
  '(precision, recall, f1, ap, ndcg) ← metrics results gold_set k;
  Ok (round2 precision, round2 recall, round2 f1, round2 ap, round2 ndcg).

End SearchEngine.

(** ** Terms of the query grammar *)

Module Grammar.
Import Chars Lexer.

(** A bare term of the query grammar, as the lexer reads it: a non-empty
    string over lower-case letters, digits, underscore and hyphen that
    does not begin with one of the words [not], [and], [or] standing on
    its own (followed by a hyphen or by the end of the string). *)
Definition term_char (c : ascii) : bool :=
  is_word_or_hyphen c && negb (is_upper c).

Definition keyword_headed (l : list ascii) : bool :=
  existsb (λ kw, starts_with kw l && negb (word_at (head (drop (length kw) l))))
    [kw_not; kw_and; kw_or].

Definition is_term (a : string) : bool :=
  let l := list_ascii_of_string a in
  negb (bool_decide (l = [])) && forallb term_char l && negb (keyword_headed l).

(** [a.lower()] *)
Definition lower_string (a : string) : string :=
  string_of_list_ascii (lower (list_ascii_of_string a)).

(** A term as a user may type it: any letter case, since the evaluator
    lower-cases the query before lexing. *)
Definition is_query_term (a : string) : bool := is_term (lower_string a).

(** The text after a term: nothing, or a character outside [[\w-]]. *)
Definition stops (r : list ascii) : bool :=
  match r with
  | [] => true
  | c :: _ => negb (is_word_or_hyphen c)
  end.

End Grammar.

(** ** Quantities the claims speak about *)

Module Measures.
Import PyNum BooleanIR SearchEngine.

(** The number of documents of [r] that are in the gold set. *)
Definition relevant_among (r : list string) (gold_set : gset string) : nat :=
  length (filter (λ doc, doc ∈ gold_set) r).

(** The dot product of a document vector with the query vector, over
    the query terms the document has. *)
Definition dot (weights q_vec : list (string * R)) : R :=
  py_sum ((λ t : string,
             (default 0 (Dict.get weights t) * default 0 (Dict.get q_vec t))%R)
          <$> filter (λ t, Dict.mem weights t = true) q_vec.*1).

(** The cosine score of a document, 0 when either norm is 0. *)
Definition cosine (weights q_vec : list (string * R)) : R :=
  if Req_dec_T (norm2 weights) 0 then 0%R
  else if Req_dec_T (norm2 q_vec) 0 then 0%R
  else (dot weights q_vec / sqrt (norm2 weights * norm2 q_vec))%R.

(** The documents of the weight model with a positive score, in the
    order of the model. *)
Definition positive_scores (wm : Weights) (q_vec : list (string * R))
  : list (string * R) :=
  filter (λ ds : string * R, (0 < ds.2)%R)
    ((λ entry : string * list (string * R), (entry.1, cosine entry.2 q_vec)) <$> wm).

(** The query vector under the chosen scheme. *)
Definition query_weights (scheme : string) (vsm : VSM) (q_tf : list (string * nat))
  : list (string * R) :=
  (λ tfreq : string * nat,
     (tfreq.1,
      if String.eqb scheme "sublinear"
      then ((1 + ln (INR tfreq.2)) * idf_get vsm tfreq.1)%R
      else (INR tfreq.2 * idf_get vsm tfreq.1)%R)) <$> q_tf.

(** Highest score first. *)
Definition score_ge (x y : string * R) : Prop := (y.2 <= x.2)%R.

(** The number of occurrences of [t] in a token list. *)
Definition occurrences (t : string) (tokens : list string) : nat :=
  length (filter (λ x, x = t) tokens).

(** tf(t, d): occurrences of [t] among the preprocessed tokens of a
    document with token list [text]. *)
Definition term_frequency (stem : string → string) (STOPWORDS : gset string)
    (text : list string) (t : string) : nat :=
  occurrences t (preprocess stem STOPWORDS (join " " text)).

(** df(t): the number of documents whose preprocessed tokens hold [t]. *)
Definition doc_frequency (stem : string → string) (STOPWORDS : gset string)
    (docs : Docs) (t : string) : nat :=
  length (filter (λ entry : string * list string,
                    t ∈ preprocess stem STOPWORDS (join " " entry.2)) docs).

(** The two dicts the loop of [build_vsm] fills, each on its own. *)
Definition tf_after (stem : string → string) (STOPWORDS : gset string)
    (tf0 : list (string * list (string * nat))) (docs : Docs)
  : list (string * list (string * nat)) :=
  foldl (λ tf (entry : string * list string),
           Dict.set tf entry.1 (Counter (preprocess stem STOPWORDS (join " " entry.2))))
        tf0 docs.

Definition df_after (stem : string → string) (STOPWORDS : gset string)
    (df0 : list (string * nat)) (docs : Docs) : list (string * nat) :=
  foldl (λ df (entry : string * list string),
           foldl count_up df
             (elements (list_to_set (preprocess stem STOPWORDS (join " " entry.2))
                        : gset string)))
        df0 docs.

(** log((N + 1) / (df + 1)) + 1 *)
Definition smoothed_idf (N df : nat) : R :=
  (ln (INR (N + 1) / INR (df + 1)) + 1)%R.

(** [2PR / (P + R)], or 0 when [P + R] is not positive. *)
Definition f1_of (precision recall : R) : R :=
  if Rlt_dec 0 (precision + recall)
  then (2 * precision * recall / (precision + recall))%R else 0%R.

End Measures.

(** ** Well-formed queries *)

Module Queries.
Import Chars Lexer Grammar BooleanIR SearchEngine.

(** Words joined by single spaces, as character lists. *)
Fixpoint flat (ls : list (list ascii)) : list ascii :=
  match ls with
  | [] => []
  | l :: ls' => match ls' with [] => l | _ => l ++ " "%char :: flat ls' end
  end.

(** What the lexer emits for a well-formed query: a term, or one of the
    lower-cased keywords. *)
Definition lexeme (l : list ascii) : bool :=
  (negb (bool_decide (l = [])) && forallb term_char l && negb (keyword_headed l))
  || bool_decide (l ∈ [kw_not; kw_and; kw_or]).

(** A word of a well-formed query: a bare term or an upper-case operator. *)
Definition query_word (w : string) : bool := is_term w || is_operator w.

(** A bare word: non-empty, over lower-case letters, digits, underscore
    and hyphen. *)
Definition bare (t : string) : bool :=
  let l := list_ascii_of_string t in
  negb (bool_decide (l = [])) && forallb term_char l.

(** The words of [t1 op t2 op ... op tn]. *)
Definition chain_words (op : string) (terms : list string) : list string :=
  match terms with
  | [] => []
  | t :: terms' => t :: concat ((λ x, [op; x]) <$> terms')
  end.

(** The query [t1 op t2 op ... op tn]. *)
Definition chain (op : string) (terms : list string) : string :=
  join " " (chain_words op terms).

(** The posting set the evaluator reads for a token. *)
Definition posting (idx : gmap string (gset string)) (t : string) : gset string :=
  default ∅ (idx !! t).

(** The pairs (document, term) of a collection: the term occurs in the
    token list of the document. *)
Definition occurs (docs : Docs) (d t : string) : Prop :=
  ∃ toks, (d, toks) ∈ docs ∧ t ∈ toks.

(** A string of ASCII characters, on which the character classes of the
    lexer are those of Python. *)
Definition ascii_only (s : string) : bool :=
  forallb (λ c, (code c <? 128)%N) (list_ascii_of_string s).

(** A string of white space only. *)
Definition blank (s : string) : bool :=
  forallb is_space (list_ascii_of_string s).

End Queries.

(** ** The reporting helpers of both files *)

Module Reporting.
Import Chars Lexer PyNum BooleanIR SearchEngine.

(** [needle in hay] on strings *)
Fixpoint contains (needle hay : list ascii) : bool :=
  starts_with needle hay
  || match hay with
     | [] => false
     | _ :: hay' => contains needle hay'
     end.

Definition about_and : string :=
  "AND = Interseksi himpunan dokumen (harus mengandung semua term)".
Definition about_or : string :=
  "OR  = Union dokumen (mengandung salah satu term)".
Definition about_not : string :=
  "NOT = Komplemen dokumen (semua dokumen kecuali yang mengandung term)".

(** [explain_ops(query)] of [boolean_ir.py] *)
Definition explain_ops (query : string) : list string :=
  let q := upper (list_ascii_of_string query) in
  (if contains (list_ascii_of_string "AND") q then [about_and] else [])
  ++ (if contains (list_ascii_of_string "OR") q then [about_or] else [])
  ++ (if contains (list_ascii_of_string "NOT") q then [about_not] else []).

(** The explanation that belongs to an operator token. *)
Definition about (op : string) : string :=
  if String.eqb op "AND" then about_and
  else if String.eqb op "OR" then about_or else about_not.

(** [txt.replace("\n", " ")], one character *)
Definition unbreak (c : ascii) : ascii :=
  if Ascii.eqb c "010"%char then " "%char else c.

(** [" ".join(text) if isinstance(text, list) else text], then
    [txt.replace("\n", " ")]; [text] is a token list or a string. *)
Definition one_line (text : list string + string) : list ascii :=
  let txt := match text with inl toks => join " " toks | inr s => s end in
  map unbreak (list_ascii_of_string txt).

Definition dots : list ascii := list_ascii_of_string "...".

(** [snippet(text, length)] of [search_engine.py] *)
Definition snippet (text : list string + string) (len : Z) : list ascii :=
  let txt := one_line text in
  if (len <? Z.of_nat (length txt))%Z then slice_to len txt ++ dots else txt.

(** [explain_terms(doc, vsm, wm, top_n)] of [search_engine.py] *)
Definition explain_terms (doc : string) (vsm : VSM) (wm : Weights) (top_n : Z)
  : list (string * R) :=
  match Dict.get wm doc with
  | None => []
  | Some weighted => slice_to top_n (sort_desc weighted)
  end.

End Reporting.

(** ** The rank metrics in closed form *)

Module Gains.
Import PyNum SearchEngine.

(** [hits]: 1 for a relevant document, 0 otherwise. *)
Definition hits_of (r : list string) (gold_set : gset string) : list nat :=
  (λ doc : string, if bool_decide (doc ∈ gold_set) then 1 else 0)%nat <$> r.

(** [math.log2(i + 1)] *)
Definition discount (i : nat) : R := (ln (INR (i + 1)) / ln 2)%R.

(** [sum(h/math.log2(i+1) for i,h in enumerate(hits,start))] *)
Definition dcg (start : nat) (hits : list nat) : R :=
  py_sum ((λ ih : nat * nat, (INR ih.2 / discount ih.1)%R) <$> enumerate start hits).

(** [sum(1/math.log2(i+1) for i in range(1,n+1))] *)
Definition idcg (n : nat) : R :=
  py_sum ((λ i : nat, (INR 1 / discount i)%R) <$> seq 1 n).

(** What the loop over [enumerate(hits,1)] adds to [ap], from rank [i] on
    with [num_hits] hits seen so far. *)
Fixpoint ap_sum (num_hits i : nat) (hits : list nat) : R :=
  match hits with
  | [] => 0%R
  | h :: hits' =>
      if (h =? 1)%nat
      then (INR (num_hits + 1) / INR i + ap_sum (num_hits + 1) (S i) hits')%R
      else ap_sum num_hits (S i) hits'
  end.

(** [ideal_hits = min(len(gold_set), k)] *)
Definition ideal_hits (gold_set : gset string) (k : Z) : nat :=
  Z.to_nat (Z.min (Z.of_nat (size gold_set)) k).

End Gains.

(** ** Ties in a scored list *)

Module Ties.

(** [x == y] on floats is decided. *)
#[global] Instance Req_decision (x y : R) : Decision (x = y) := Req_dec_T x y.


End Ties.

(** ** Clean tokens *)

Module Tokens.
Import Chars.

(** A character that the substitution of [preprocess] keeps and at which
    [split] does not cut. *)
Definition clean_char (c : ascii) : bool := is_lower c || is_digit c.

(** A non-empty word over lower-case letters and digits. *)
Definition clean (w : string) : bool :=
  let l := list_ascii_of_string w in
  negb (bool_decide (l = [])) && forallb clean_char l.

End Tokens.

(** ** The sublinear weight model in closed form *)

Module Damping.
Import SearchEngine.

(** [(1 + math.log(freq)) * vsm["idf"].get(term, 0)] for every term of
    every document. *)
Definition sublinear_weights (vsm : VSM) : Weights :=
  (λ entry : string * list (string * nat), (entry.1,
     (λ tfreq : string * nat,
        (tfreq.1, ((1 + ln (INR tfreq.2)) * idf_get vsm tfreq.1)%R)) <$> entry.2))
  <$> tf vsm.

End Damping.

(** * Generic facts about loops that may raise *)

Lemma bind_Ok {A B} (f : A → outcome B) (a : A) : (Ok a ≫= f) = f a.
Proof. reflexivity. Qed.

Lemma for_each_returns {S X} (body : S → X → outcome S) xs :
  (∀ s x, returns (body s x)) → ∀ s, returns (for_each body s xs).
Proof.
  intros Hbody. induction xs as [|x xs IH]; intros s; simpl.
  - by exists s.
  - destruct (Hbody s x) as [s' ->]. apply IH.
Qed.

(** An invariant of the loop state that every iteration keeps is kept by
    the loop. *)
Lemma for_each_invariant {S X} (P : S → Prop) (body : S → X → outcome S) xs :
  (∀ s x s', P s → body s x = Ok s' → P s') →
  ∀ s s', P s → for_each body s xs = Ok s' → P s'.
Proof.
  intros Hbody. induction xs as [|x xs IH]; intros s s' HP; simpl.
  - by intros [= <-].
  - destruct (body s x) as [s1|e] eqn:E; [|done].
    apply IH. by eapply Hbody.
Qed.

(** * Properties of the Boolean evaluator *)

Section BooleanFacts.
Import BooleanIR.
Implicit Types (idx : gmap string (gset string)) (st : list (gset string)).
Implicit Types (tok query : string) (docs : Docs).

Lemma prec_item_operator tok :
  is_operator tok = true → ∃ p, prec_item tok = Ok p.
Proof.
  unfold is_operator. intros H%bool_decide_eq_true.
  repeat (apply elem_of_cons in H as [->|H]; [by eexists|]).
  by apply elem_of_nil in H.
Qed.

Lemma pop_higher_returns tok output stack :
  is_operator tok = true → returns (pop_higher tok output stack).
Proof.
  intros [p Hp]%prec_item_operator.
  revert output. induction stack as [|top stack IH]; intros output; simpl.
  - by eexists.
  - rewrite Hp. simpl. destruct (p <=? prec_get top)%nat; [apply IH|by eexists].
Qed.

Lemma shunt_returns acc tok : returns (shunt acc tok).
Proof.
  destruct acc as [output stack]. unfold shunt.
  destruct (is_operator tok) eqn:E; [|by eexists].
  destruct (pop_higher_returns tok output stack E) as [[o s] ->]. by eexists.
Qed.

Lemma to_postfix_returns tokens : returns (to_postfix tokens).
Proof.
  unfold to_postfix.
  destruct (for_each_returns shunt tokens shunt_returns ([], [])) as [[o s] ->].
  by eexists.
Qed.

Lemma eval_tok_returns all idx st tok : returns (eval_tok all idx st tok).
Proof.
  unfold eval_tok.
  destruct (String.eqb tok "NOT"); [destruct st; by eexists|].
  destruct (String.eqb tok "AND"); [destruct st as [|B [|A st]]; by eexists|].
  destruct (String.eqb tok "OR"); [destruct st as [|B [|A st]]; by eexists|].
  by eexists.
Qed.

Lemma eval_postfix_returns idx output : returns (eval_postfix idx output).
Proof. apply for_each_returns, eval_tok_returns. Qed.

Lemma eval_boolean_returns query idx : returns (eval_boolean query idx).
Proof.
  unfold eval_boolean.
  destruct (to_postfix_returns (tokenize query)) as [output ->].
  rewrite bind_Ok.
  destruct (eval_postfix_returns idx output) as [st ->]. by eexists.
Qed.

(** The derived universe is exactly the union of the posting sets. *)
Lemma elem_of_universe idx d :
  d ∈ universe idx ↔ ∃ t s, idx !! t = Some s ∧ d ∈ s.
Proof.
  unfold universe. rewrite elem_of_union_list. split.
  - intros (s & Hs & Hd). apply list_elem_of_fmap in Hs as ([t s'] & -> & Hin).
    apply elem_of_map_to_list in Hin. by exists t, s'.
  - intros (t & s & Hs & Hd). exists s. split; [|done].
    apply list_elem_of_fmap. exists (t, s). split; [done|].
    by apply elem_of_map_to_list.
Qed.

Lemma posting_subseteq_universe idx tok :
  default ∅ (idx !! tok) ⊆ universe idx.
Proof.
  destruct (idx !! tok) as [s|] eqn:E; simpl; [|set_solver].
  intros d Hd. apply elem_of_universe. by exists tok, s.
Qed.

(** Every set on the value stack stays inside the universe. *)
Lemma eval_tok_within idx st tok st' :
  Forall (λ s, s ⊆ universe idx) st →
  eval_tok (universe idx) idx st tok = Ok st' →
  Forall (λ s, s ⊆ universe idx) st'.
Proof.
  intros Hst. unfold eval_tok.
  destruct (String.eqb tok "NOT").
  { destruct st as [|A st]; simpl; intros [= Heq]; subst st'.
    - constructor; [set_solver|done].
    - apply Forall_cons in Hst as [_ Hst]. constructor; [set_solver|done]. }
  destruct (String.eqb tok "AND").
  { destruct st as [|B [|A st]]; simpl; intros [= Heq]; subst st'; try done.
    apply Forall_cons in Hst as [HB Hst]. apply Forall_cons in Hst as [HA Hst].
    constructor; [set_solver|done]. }
  destruct (String.eqb tok "OR").
  { destruct st as [|B [|A st]]; simpl; intros [= Heq]; subst st'; try done.
    apply Forall_cons in Hst as [HB Hst]. apply Forall_cons in Hst as [HA Hst].
    constructor; [set_solver|done]. }
  intros [= Heq]; subst st'. constructor; [apply posting_subseteq_universe|done].
Qed.

Lemma eval_postfix_within idx output st :
  eval_postfix idx output = Ok st → Forall (λ s, s ⊆ universe idx) st.
Proof.
  unfold eval_postfix.
  apply (for_each_invariant (λ st, Forall (λ s, s ⊆ universe idx) st)); [|done].
  intros st0 x st1. apply eval_tok_within.
Qed.

End BooleanFacts.

(** * The lexer on well-formed queries *)

Section LexerFacts.
Import Chars Lexer Grammar BooleanIR.
Implicit Types (l r s kw tok rest : list ascii) (prev : option ascii).

Lemma starts_with_length kw s : starts_with kw s = true → length kw ≤ length s.
Proof.
  revert s. induction kw as [|k kw IH]; intros [|c s]; simpl; try lia; try done.
  intros [_ H]%andb_prop. apply IH in H. lia.
Qed.

Lemma run_length s t r : run s = (t, r) → length t + length r = length s.
Proof.
  revert t r. induction s as [|c s IH]; simpl; intros t r.
  - by intros [= <- <-].
  - destruct (is_word_or_hyphen c).
    + destruct (run s) as [t' r'] eqn:E. intros [= <- <-]. simpl.
      specialize (IH _ _ eq_refl). lia.
    + by intros [= <- <-].
Qed.

Lemma match_kw_shorter kw prev s tok rest :
  kw ≠ [] → match_kw kw prev s = Some (tok, rest) → length rest < length s.
Proof.
  unfold match_kw. intros Hkw.
  destruct (boundary prev s && starts_with kw s
            && boundary (last kw) (drop (length kw) s)) eqn:E; [|done].
  intros [= <- <-].
  apply andb_prop in E as [[_ E]%andb_prop _]. apply starts_with_length in E.
  rewrite length_drop. destruct kw; [done|simpl in *; lia].
Qed.

Lemma match_at_shorter prev s tok rest :
  match_at prev s = Some (tok, rest) → length rest < length s.
Proof.
  unfold match_at, or_else.
  destruct (match_kw kw_not prev s) as [[t1 r1]|] eqn:E1.
  { intros [= <- <-]. by apply match_kw_shorter in E1. }
  destruct (match_kw kw_and prev s) as [[t2 r2]|] eqn:E2.
  { intros [= <- <-]. by apply match_kw_shorter in E2. }
  destruct (match_kw kw_or prev s) as [[t3 r3]|] eqn:E3.
  { intros [= <- <-]. by apply match_kw_shorter in E3. }
  unfold match_run. destruct (run s) as [[|c t] r0] eqn:E; [done|].
  intros [= <- <-]. apply run_length in E. simpl in E. lia.
Qed.

(** Fuel beyond the length of the text changes nothing: the scan is the
    same function for every sufficient amount. *)
Lemma findall_from_fuel n m prev s :
  length s ≤ n → length s ≤ m → findall_from n prev s = findall_from m prev s.
Proof.
  revert m prev s. induction n as [|n IH]; intros m prev s Hn Hm.
  - destruct s; [|simpl in Hn; lia]. by destruct m.
  - destruct m as [|m]; [destruct s; [done|simpl in Hm; lia]|].
    destruct s as [|c s]; [done|]. simpl in *.
    destruct (match_at prev (c :: s)) as [[tok rest]|] eqn:E.
    + apply match_at_shorter in E. simpl in E. f_equal. apply IH; lia.
    + apply IH; lia.
Qed.

Lemma findall_from_match n prev s tok rest :
  length s ≤ n → match_at prev s = Some (tok, rest) →
  findall_from n prev s = tok :: findall_from (length rest) (last tok) rest.
Proof.
  intros Hn E. pose proof (match_at_shorter _ _ _ _ E) as Hlt.
  destruct s as [|c s]; [simpl in Hlt; lia|].
  destruct n as [|n]; [simpl in Hn; lia|]. simpl in Hn, Hlt |- *. rewrite E.
  f_equal. apply findall_from_fuel; lia.
Qed.

Lemma findall_from_skip n prev c s :
  length (c :: s) ≤ n → match_at prev (c :: s) = None →
  findall_from n prev (c :: s) = findall_from (length s) (Some c) s.
Proof.
  intros Hn E. destruct n as [|n]; [simpl in Hn; lia|]. simpl in Hn |- *.
  rewrite E. apply findall_from_fuel; lia.
Qed.

Lemma stops_not_word r : stops r = true → word_at (head r) = false.
Proof.
  destruct r as [|c r]; [done|]. simpl. unfold is_word_or_hyphen.
  intros H%negb_true_iff. by apply orb_false_elim in H as [-> _].
Qed.

Lemma starts_with_app kw l r :
  starts_with kw (l ++ r) = true →
  starts_with kw l = true ∨ ∃ c, head r = Some c ∧ c ∈ kw.
Proof.
  revert l. induction kw as [|k kw IH]; intros l; [by left|].
  destruct l as [|c l]; simpl.
  - destruct r as [|c r]; [done|]. intros [Hk%Ascii.eqb_eq _]%andb_prop.
    right. exists c. subst k. split; [done|]. apply list_elem_of_here.
  - intros [Hk H]%andb_prop. rewrite Hk. simpl.
    destruct (IH _ H) as [?|(c' & ? & ?)]; [by left|].
    right. exists c'. split; [done|]. by apply list_elem_of_further.
Qed.

Lemma match_kw_none kw prev l r :
  (∀ c, c ∈ kw → is_word c = true) →
  word_at (last kw) = true →
  starts_with kw l && negb (word_at (head (drop (length kw) l))) = false →
  word_at (head r) = false →
  match_kw kw prev (l ++ r) = None.
Proof.
  intros Hkw Hlast Hhead Hr. unfold match_kw.
  destruct (boundary prev (l ++ r) && starts_with kw (l ++ r)
            && boundary (last kw) (drop (length kw) (l ++ r))) eqn:E; [|done].
  exfalso. apply andb_prop in E as [[_ Hs]%andb_prop Hb].
  apply starts_with_app in Hs as [Hs|(c & Hc & Hin)].
  - rewrite Hs in Hhead. simpl in Hhead. apply negb_false_iff in Hhead.
    apply starts_with_length in Hs.
    rewrite drop_app_le in Hb by done.
    destruct (drop (length kw) l) as [|c d]; [done|].
    unfold boundary in Hb. simpl in *. by rewrite Hlast, Hhead in Hb.
  - rewrite Hc in Hr. simpl in Hr. rewrite (Hkw c Hin) in Hr. done.
Qed.

Lemma match_kw_term kw prev l r :
  kw ∈ [kw_not; kw_and; kw_or] →
  keyword_headed l = false → stops r = true →
  match_kw kw prev (l ++ r) = None.
Proof.
  intros Hkw Hhead Hr%stops_not_word. unfold keyword_headed in Hhead.
  simpl in Hhead.
  apply orb_false_elim in Hhead as [H1 Hhead].
  apply orb_false_elim in Hhead as [H2 Hhead].
  apply orb_false_elim in Hhead as [H3 _].
  repeat (apply elem_of_cons in Hkw as [->|Hkw]);
    [| | |by apply elem_of_nil in Hkw];
    (apply match_kw_none; [|done|done|done]);
    intros c Hc;
    repeat (apply elem_of_cons in Hc as [->|Hc]; [done|]);
    by apply elem_of_nil in Hc.
Qed.

Lemma run_term l r :
  forallb is_word_or_hyphen l = true → stops r = true → run (l ++ r) = (l, r).
Proof.
  intros Hl Hr. induction l as [|c l IH].
  - destruct r as [|c r]; [done|]. cbn [stops] in Hr.
    apply negb_true_iff in Hr. cbn [app run]. by rewrite Hr.
  - cbn [forallb] in Hl. apply andb_prop in Hl as [Hc Hl].
    cbn [app run]. fold (l ++ r). by rewrite Hc, (IH Hl).
Qed.

Lemma term_char_run l :
  forallb term_char l = true → forallb is_word_or_hyphen l = true.
Proof.
  rewrite !forallb_forall. intros H c Hc. specialize (H c Hc).
  unfold term_char in H. by apply andb_prop in H as [? _].
Qed.

(** At any position, a term followed by a stop is matched whole, by the
    last alternative of the pattern. *)
Lemma match_at_term prev l r :
  l ≠ [] → forallb term_char l = true → keyword_headed l = false →
  stops r = true → match_at prev (l ++ r) = Some (l, r).
Proof.
  intros Hne Hl Hhead Hr. unfold match_at.
  rewrite !match_kw_term by (done || set_solver). simpl.
  unfold match_run. rewrite run_term by (done || by apply term_char_run).
  by destruct l.
Qed.

Lemma lower_term l : forallb term_char l = true → lower l = l.
Proof.
  induction l as [|c l IH]; [done|]. simpl.
  intros [Hc Hl]%andb_prop. rewrite (IH Hl). f_equal.
  unfold term_char in Hc. apply andb_prop in Hc as [_ Hc%negb_true_iff].
  unfold lower_char. by rewrite Hc.
Qed.

Lemma term_char_not_space c : term_char c = true → is_space c = false.
Proof.
  destruct c as [[] [] [] [] [] [] [] []]; vm_compute; congruence.
Qed.

Lemma lstrip_id s :
  (∀ c, head s = Some c → is_space c = false) → lstrip s = s.
Proof. destruct s as [|c s]; [done|]. simpl. intros H. by rewrite (H c). Qed.

Lemma strip_id s :
  (∀ c, head s = Some c → is_space c = false) →
  (∀ c, last s = Some c → is_space c = false) →
  strip s = s.
Proof.
  intros Hh Hl. unfold strip. rewrite (lstrip_id s Hh).
  rewrite lstrip_id; [apply reverse_involutive|].
  intros c. rewrite head_reverse. apply Hl.
Qed.

Lemma list_ascii_of_string_app (a b : string) :
  list_ascii_of_string (a +:+ b) = list_ascii_of_string a ++ list_ascii_of_string b.
Proof. induction a as [|c a IH]; [done|]. simpl. by rewrite IH. Qed.

Lemma is_term_inv a :
  is_term a = true →
  let l := list_ascii_of_string a in
  l ≠ [] ∧ forallb term_char l = true ∧ keyword_headed l = false.
Proof.
  unfold is_term. intros [[H1 H2]%andb_prop H3]%andb_prop. repeat split.
  - apply negb_true_iff in H1. by apply bool_decide_eq_false in H1.
  - done.
  - by apply negb_true_iff.
Qed.

(** A term is never rewritten by [normalise]: it is none of the three
    lower-case keywords. *)
Lemma normalise_term a :
  is_term a = true → normalise (list_ascii_of_string a) = a.
Proof.
  intros Ha. unfold normalise. rewrite string_of_list_ascii_of_string.
  rewrite bool_decide_eq_false_2; [done|]. intros Hin.
  repeat (apply elem_of_cons in Hin as [->|Hin]; [by vm_compute in Ha|]).
  by apply elem_of_nil in Hin.
Qed.

Lemma term_not_operator a : is_term a = true → is_operator a = false.
Proof.
  intros Ha. unfold is_operator. apply bool_decide_eq_false_2. intros Hin.
  repeat (apply elem_of_cons in Hin as [->|Hin]; [by vm_compute in Ha|]).
  by apply elem_of_nil in Hin.
Qed.

Lemma match_at_space prev s : match_at prev (" "%char :: s) = None.
Proof.
  unfold match_at, match_kw. cbn [kw_not kw_and kw_or list_ascii_of_string starts_with].
  replace (Ascii.eqb "n" " ") with false by reflexivity.
  replace (Ascii.eqb "a" " ") with false by reflexivity.
  replace (Ascii.eqb "o" " ") with false by reflexivity.
  cbn [andb]. by rewrite !andb_false_r.
Qed.

(** The token stream of [a OP b] for terms [a], [b] and [OP] one of the
    lower-cased binary operators. *)
Lemma findall_binop la kw lb :
  kw = kw_and ∨ kw = kw_or →
  la ≠ [] → forallb term_char la = true → keyword_headed la = false →
  lb ≠ [] → forallb term_char lb = true → keyword_headed lb = false →
  findall (la ++ " "%char :: kw ++ " "%char :: lb) = [la; kw; lb].
Proof.
  intros Hkw Ha1 Ha2 Ha3 Hb1 Hb2 Hb3. unfold findall.
  rewrite (findall_from_match _ _ _ la (" "%char :: kw ++ " "%char :: lb));
    [|done|by apply match_at_term].
  f_equal.
  rewrite findall_from_skip by (done || apply match_at_space).
  assert (match_at (Some " "%char) (kw ++ " "%char :: lb)
          = Some (kw, " "%char :: lb)) as Hop by (by destruct Hkw as [->| ->]).
  rewrite (findall_from_match _ _ _ _ _ (le_n _) Hop). f_equal.
  rewrite findall_from_skip by (done || apply match_at_space).
  assert (match_at (Some " "%char) lb = Some (lb, [])) as Hb.
  { rewrite <- (app_nil_r lb) at 1. by apply match_at_term. }
  by rewrite (findall_from_match _ _ _ _ _ (le_n _) Hb).
Qed.

Lemma tokenize_binop a op b :
  op = "AND" ∨ op = "OR" → is_term a = true → is_term b = true →
  tokenize (a +:+ " " +:+ op +:+ " " +:+ b) = [a; op; b].
Proof.
  intros Hop Ha Hb.
  pose proof (normalise_term a Ha) as Na. pose proof (normalise_term b Hb) as Nb.
  apply is_term_inv in Ha as (Ha1 & Ha2 & Ha3).
  apply is_term_inv in Hb as (Hb1 & Hb2 & Hb3).
  unfold tokenize. rewrite !list_ascii_of_string_app.
  set (la := list_ascii_of_string a) in *. set (lb := list_ascii_of_string b) in *.
  unfold lower. rewrite !map_app. fold (lower la) (lower lb).
  rewrite (lower_term la), (lower_term lb) by done.
  assert (∃ kw, (kw = kw_and ∨ kw = kw_or) ∧ normalise kw = op ∧
            map lower_char (list_ascii_of_string " ") ++
            map lower_char (list_ascii_of_string op) ++
            map lower_char (list_ascii_of_string " ") ++ lb
            = " "%char :: kw ++ " "%char :: lb) as (kw & Hkw & Nkw & ->).
  { destruct Hop as [-> | ->]; [exists kw_and|exists kw_or]; split; auto. }
  rewrite strip_id.
  - rewrite findall_binop by done. cbn [fmap list_fmap]. by rewrite Na, Nb, Nkw.
  - intros c. destruct la as [|c' la']; [done|]. intros [= ->].
    apply term_char_not_space. cbn [forallb] in Ha2. by apply andb_prop in Ha2 as [? _].
  - intros c Hc. apply term_char_not_space.
    rewrite forallb_forall in Hb2. apply Hb2, list_elem_of_In.
    apply last_Some_elem_of.
    change (la ++ " "%char :: kw ++ " "%char :: lb)
      with (la ++ " "%char :: kw ++ [" "%char] ++ lb) in Hc.
    rewrite !last_app, !last_cons, !last_app in Hc.
    destruct (last lb) as [x|] eqn:E; [congruence|].
    apply last_None in E. done.
Qed.

(** The token stream of [NOT a] for a term [a]. *)
Lemma tokenize_not a :
  is_term a = true → tokenize ("NOT " +:+ a) = ["NOT"; a].
Proof.
  intros Ha. pose proof (normalise_term a Ha) as Na.
  apply is_term_inv in Ha as (Ha1 & Ha2 & Ha3).
  unfold tokenize. rewrite list_ascii_of_string_app.
  set (la := list_ascii_of_string a) in *.
  unfold lower. rewrite map_app. fold (lower la). rewrite (lower_term la) by done.
  change (map lower_char (list_ascii_of_string "NOT ")) with (kw_not ++ [" "%char]).
  rewrite <- app_assoc. cbn [app].
  rewrite strip_id.
  - unfold findall.
    assert (match_at None (kw_not ++ " "%char :: la) = Some (kw_not, " "%char :: la))
      as Hop by done.
    rewrite (findall_from_match _ _ _ _ _ (le_n _) Hop).
    rewrite findall_from_skip by (done || apply match_at_space).
    assert (match_at (Some " "%char) la = Some (la, [])) as Hm.
    { rewrite <- (app_nil_r la) at 1. by apply match_at_term. }
    rewrite (findall_from_match _ _ _ _ _ (le_n _) Hm).
    cbn. by rewrite Na.
  - by intros c [= <-].
  - intros c Hc. apply term_char_not_space.
    rewrite forallb_forall in Ha2. apply Ha2, list_elem_of_In, last_Some_elem_of.
    change (kw_not ++ " "%char :: la) with ((kw_not ++ [" "%char]) ++ la) in Hc.
    rewrite last_app in Hc. destruct (last la) as [x|] eqn:E; [congruence|].
    by apply last_None in E.
Qed.

(** Sanity of the notion of term: on its own, a term lexes to itself. *)
Lemma tokenize_term a : is_term a = true → tokenize a = [a].
Proof.
  intros Ha. pose proof (normalise_term a Ha) as Na.
  apply is_term_inv in Ha as (Ha1 & Ha2 & Ha3).
  unfold tokenize. set (la := list_ascii_of_string a) in *.
  rewrite lower_term by done.
  assert (∀ c, c ∈ la → is_space c = false) as Hsp.
  { intros c Hc%list_elem_of_In. apply term_char_not_space.
    rewrite forallb_forall in Ha2. by apply Ha2. }
  rewrite strip_id.
  - assert (match_at None la = Some (la, [])) as Hm.
    { rewrite <- (app_nil_r la) at 1. by apply match_at_term. }
    unfold findall. rewrite (findall_from_match _ _ _ _ _ (le_n _) Hm).
    cbn. by rewrite Na.
  - intros c Hc. apply Hsp. by apply head_Some_elem_of.
  - intros c Hc. apply Hsp. by apply last_Some_elem_of.
Qed.

End LexerFacts.

(** * Claims about the Boolean evaluator *)

Section BooleanClaims.
Import Grammar BooleanIR.
Implicit Types (idx : gmap string (gset string)) (st : list (gset string)).

Lemma eval_tok_operand all idx st tok :
  is_operator tok = false →
  eval_tok all idx st tok = Ok (default ∅ (idx !! tok) :: st).
Proof.
  intros Hop. unfold eval_tok.
  destruct (String.eqb_spec tok "NOT") as [->|_]; [done|].
  destruct (String.eqb_spec tok "AND") as [->|_]; [done|].
  by destruct (String.eqb_spec tok "OR") as [->|_].
Qed.

Lemma shunt_operand output stack tok :
  is_operator tok = false → shunt (output, stack) tok = Ok (output ++ [tok], stack).
Proof. intros H. unfold shunt. by rewrite H. Qed.

Lemma shunt_first_operator output tok :
  is_operator tok = true → shunt (output, []) tok = Ok (output, [tok]).
Proof. intros H. unfold shunt. by rewrite H. Qed.

(** What a well-formed binary query evaluates to. *)
Lemma eval_boolean_binop idx a op b :
  op = "AND" ∨ op = "OR" → is_term a = true → is_term b = true →
  eval_boolean (a +:+ " " +:+ op +:+ " " +:+ b) idx =
  let A := default ∅ (idx !! a) in
  let B := default ∅ (idx !! b) in
  Ok (if String.eqb op "AND" then A ∩ B else A ∪ B).
Proof.
  intros Hop Ha Hb. unfold eval_boolean. rewrite tokenize_binop by done.
  apply term_not_operator in Ha, Hb.
  assert (to_postfix [a; op; b] = Ok [a; b; op]) as ->.
  { unfold to_postfix. cbn [for_each].
    rewrite shunt_operand, bind_Ok by done.
    rewrite shunt_first_operator, bind_Ok by (by destruct Hop as [-> | ->]).
    by rewrite shunt_operand, !bind_Ok by done. }
  rewrite bind_Ok. unfold eval_postfix. cbn [for_each].
  rewrite !eval_tok_operand, !bind_Ok by done.
  rewrite eval_tok_operand, bind_Ok by done.
  by destruct Hop as [-> | ->].
Qed.

Lemma eval_boolean_and idx a b :
  is_term a = true → is_term b = true →
  eval_boolean (a +:+ " AND " +:+ b) idx
  = Ok (default ∅ (idx !! a) ∩ default ∅ (idx !! b)).
Proof. intros Ha Hb. exact (eval_boolean_binop idx a "AND" b (or_introl eq_refl) Ha Hb). Qed.

Lemma eval_boolean_or idx a b :
  is_term a = true → is_term b = true →
  eval_boolean (a +:+ " OR " +:+ b) idx
  = Ok (default ∅ (idx !! a) ∪ default ∅ (idx !! b)).
Proof. intros Ha Hb. exact (eval_boolean_binop idx a "OR" b (or_intror eq_refl) Ha Hb). Qed.

Lemma lower_char_idemp c : Chars.lower_char (Chars.lower_char c) = Chars.lower_char c.
Proof. destruct c as [[] [] [] [] [] [] [] []]; reflexivity. Qed.

Lemma lower_idemp (l : list ascii) : Chars.lower (Chars.lower l) = Chars.lower l.
Proof.
  unfold Chars.lower. rewrite map_map. apply map_ext, lower_char_idemp.
Qed.

(** The evaluator sees a query only through its lower-case form. *)
Lemma eval_boolean_lower idx query :
  eval_boolean (lower_string query) idx = eval_boolean query idx.
Proof.
  unfold eval_boolean, tokenize, lower_string.
  by rewrite list_ascii_of_string_of_list_ascii, lower_idemp.
Qed.

Lemma lower_string_app (a b : string) :
  lower_string (a +:+ b) = lower_string a +:+ lower_string b.
Proof.
  unfold lower_string. rewrite list_ascii_of_string_app.
  unfold Chars.lower. rewrite map_app.
  generalize (map Chars.lower_char (list_ascii_of_string a)).
  generalize (map Chars.lower_char (list_ascii_of_string b)).
  intros lb la. induction la as [|c la IH]; [done|]. simpl. by rewrite IH.
Qed.

Lemma lower_string_idemp (a : string) : lower_string (lower_string a) = lower_string a.
Proof.
  unfold lower_string. by rewrite list_ascii_of_string_of_list_ascii, lower_idemp.
Qed.

(** A binary query over terms in any letter case evaluates like the same
    query over their lower-case forms. *)
Lemma eval_boolean_binop_lower idx a op b :
  eval_boolean (a +:+ " " +:+ op +:+ " " +:+ b) idx
  = eval_boolean (lower_string a +:+ " " +:+ op +:+ " " +:+ lower_string b) idx.
Proof.
  rewrite <- (eval_boolean_lower idx (a +:+ _)).
  rewrite <- (eval_boolean_lower idx (lower_string a +:+ _)).
  by rewrite !lower_string_app, !lower_string_idemp.
Qed.

(** A query that begins with [NOT]: the complement of the posting set of
    the term that follows, within the universe. *)
Lemma eval_boolean_not idx a :
  is_query_term a = true →
  eval_boolean ("NOT " +:+ a) idx
  = Ok (universe idx ∖ default ∅ (idx !! lower_string a)).
Proof.
  intros Ha. transitivity (eval_boolean ("NOT " +:+ lower_string a) idx).
  { rewrite <- (eval_boolean_lower idx ("NOT " +:+ a)).
    rewrite <- (eval_boolean_lower idx ("NOT " +:+ lower_string a)).
    by rewrite !lower_string_app, lower_string_idemp. }
  unfold is_query_term in Ha. unfold eval_boolean.
  rewrite (tokenize_not _ Ha).
  pose proof (term_not_operator _ Ha) as Hop.
  assert (to_postfix ["NOT"; lower_string a] = Ok [lower_string a; "NOT"]) as ->.
  { unfold to_postfix. cbn [for_each].
    rewrite shunt_first_operator, bind_Ok by done.
    by rewrite shunt_operand, !bind_Ok by done. }
  rewrite bind_Ok. unfold eval_postfix. cbn [for_each].
  by rewrite eval_tok_operand, !bind_Ok by done.
Qed.

Lemma eval_boolean_and_any_case idx a b :
  is_query_term a = true → is_query_term b = true →
  eval_boolean (a +:+ " AND " +:+ b) idx
  = Ok (default ∅ (idx !! lower_string a) ∩ default ∅ (idx !! lower_string b)).
Proof.
  intros Ha Hb. rewrite <- (eval_boolean_and idx _ _ Ha Hb).
  exact (eval_boolean_binop_lower idx a "AND" b).
Qed.

Lemma eval_boolean_or_any_case idx a b :
  is_query_term a = true → is_query_term b = true →
  eval_boolean (a +:+ " OR " +:+ b) idx
  = Ok (default ∅ (idx !! lower_string a) ∪ default ∅ (idx !! lower_string b)).
Proof.
  intros Ha Hb. rewrite <- (eval_boolean_or idx _ _ Ha Hb).
  exact (eval_boolean_binop_lower idx a "OR" b).
Qed.

(** C9. For every inverted index and all terms [a] and [b], the queries
    [a AND b] and [b AND a] evaluate to the same document set, and so do
    [a OR b] and [b OR a]. *)
Theorem eval_boolean_commutative idx a b :
  is_query_term a = true → is_query_term b = true →
  eval_boolean (a +:+ " AND " +:+ b) idx = eval_boolean (b +:+ " AND " +:+ a) idx
  ∧ eval_boolean (a +:+ " OR " +:+ b) idx = eval_boolean (b +:+ " OR " +:+ a) idx.
Proof.
  intros Ha Hb. split.
  - rewrite (eval_boolean_and_any_case idx a b), (eval_boolean_and_any_case idx b a)
      by done.
    f_equal. apply (comm_L (∩)).
  - rewrite (eval_boolean_or_any_case idx a b), (eval_boolean_or_any_case idx b a)
      by done.
    f_equal. apply (comm_L (∪)).
Qed.

Lemma eval_boolean_commutative_witness :
  let idx : gmap string (gset string) :=
    {[ "bandung" := {["itb.txt"; "unpad.txt"]}; "teknik" := {["itb.txt"; "ugm.txt"]} ]} in
  eval_boolean "Bandung AND teknik" idx = eval_boolean "teknik AND Bandung" idx
  ∧ eval_boolean "Bandung OR teknik" idx = eval_boolean "teknik OR Bandung" idx.
Proof. intros idx. apply (eval_boolean_commutative idx "Bandung" "teknik"); reflexivity. Defined.

(** C9 as stated fails for a term that begins with a free-standing
    keyword: [or-1] is a word over letters, digits and a hyphen, but the
    lexer reads it as the operator OR followed by the term [-1], so the
    two orders of [or-1 AND z] are parsed differently and return
    different sets. *)
Lemma keyword_headed_term_not_commutative :
  let idx : gmap string (gset string) := {[ "z" := {["b.txt"]} ]} in
  tokenize "or-1 AND z" = ["OR"; "-1"; "AND"; "z"]
  ∧ tokenize "z AND or-1" = ["z"; "AND"; "OR"; "-1"]
  ∧ eval_boolean "or-1 AND z" idx = Ok ∅
  ∧ eval_boolean "z AND or-1" idx = Ok {["b.txt"]}
  ∧ eval_boolean "or-1 AND z" idx ≠ eval_boolean "z AND or-1" idx
  ∧ is_query_term "or-1" = false.
Proof.
  intros idx.
  assert (eval_boolean "or-1 AND z" idx = Ok ∅) as H1 by (by vm_compute).
  assert (eval_boolean "z AND or-1" idx = Ok {["b.txt"]}) as H2 by (by vm_compute).
  split; [by vm_compute|]. split; [by vm_compute|].
  split; [done|]. split; [done|]. split; [|done].
  rewrite H1, H2. by intros [= H].
Qed.

(** C5. The evaluator returns a set for every query string; the empty
    query gives the empty set; [AND] and [OR] leave a value stack with
    fewer than two operands as it is; and whatever token sequence the
    lexer produces, well-formed or not, both phases run to the end. *)
Theorem eval_boolean_total :
  (∀ query idx, ∃ s, eval_boolean query idx = Ok s)
  ∧ (∀ idx, eval_boolean "" idx = Ok ∅)
  ∧ (∀ all idx,
       eval_tok all idx [] "AND" = Ok [] ∧ eval_tok all idx [] "OR" = Ok []
       ∧ ∀ A, eval_tok all idx [A] "AND" = Ok [A]
              ∧ eval_tok all idx [A] "OR" = Ok [A])
  ∧ (∀ (tokens : list string) idx,
       ∃ output eval_stack,
         to_postfix tokens = Ok output ∧ eval_postfix idx output = Ok eval_stack).
Proof.
  split; [|split; [|split]].
  - intros query idx. apply eval_boolean_returns.
  - done.
  - done.
  - intros tokens idx.
    destruct (to_postfix_returns tokens) as [output Ho].
    destruct (eval_postfix_returns idx output) as [st Hst].
    by exists output, st.
Qed.

Lemma eval_boolean_subseteq query idx :
  ∃ s, eval_boolean query idx = Ok s ∧ s ⊆ universe idx.
Proof.
  unfold eval_boolean.
  destruct (to_postfix_returns (tokenize query)) as [output ->]. rewrite bind_Ok.
  destruct (eval_postfix_returns idx output) as [st Hst]. rewrite Hst, bind_Ok.
  apply eval_postfix_within in Hst.
  eexists. split; [done|].
  destruct st as [|top st]; [set_solver|]. by apply Forall_cons in Hst as [? _].
Qed.

(** C10. For every query string and every index the evaluator returns a
    set, and that set lies within the union of the index's posting sets:
    each of its documents is in the posting set of some term.  The same
    holds for every set on the value stack, for any token sequence. *)
Theorem eval_boolean_within_universe query idx :
  (∃ s, eval_boolean query idx = Ok s
        ∧ s ⊆ universe idx
        ∧ ∀ d, d ∈ s → ∃ t posting, idx !! t = Some posting ∧ d ∈ posting)
  ∧ (∀ tokens : list string,
       ∃ output eval_stack,
         to_postfix tokens = Ok output
         ∧ eval_postfix idx output = Ok eval_stack
         ∧ Forall (λ s, s ⊆ universe idx) eval_stack).
Proof.
  split.
  - destruct (eval_boolean_subseteq query idx) as (s & Hs & Hsub).
    exists s. split; [done|]. split; [done|].
    intros d Hd. apply elem_of_universe. by apply Hsub.
  - intros tokens.
    destruct (to_postfix_returns tokens) as [output Ho].
    destruct (eval_postfix_returns idx output) as [st Hst].
    exists output, st. split; [done|]. split; [done|].
    by apply (eval_postfix_within idx output).
Qed.

(** C6. [NOT] on an empty value stack takes the universe as its operand
    and pushes the universe minus that operand; on a non-empty stack it
    replaces the top [A] by the universe minus [A]; a query [NOT a] for a
    term [a] returns the universe minus the posting set of [a]; and over
    an index whose posting sets union to a.txt, b.txt with a.txt the
    posting set of x, the query [NOT x] returns exactly b.txt. *)
Theorem not_complements_in_universe :
  (∀ all idx, eval_tok all idx [] "NOT" = Ok [all ∖ all])
  ∧ (∀ all idx A st, eval_tok all idx (A :: st) "NOT" = Ok ((all ∖ A) :: st))
  ∧ (∀ idx, eval_boolean "NOT" idx = Ok (universe idx ∖ universe idx))
  ∧ (∀ idx a, is_query_term a = true →
       eval_boolean ("NOT " +:+ a) idx
       = Ok (universe idx ∖ default ∅ (idx !! lower_string a)))
  ∧ (∀ idx,
       universe idx = {["a.txt"; "b.txt"]} →
       idx !! "x" = Some {["a.txt"]} →
       eval_boolean "NOT x" idx = Ok {["b.txt"]}).
Proof.
  split; [done|]. split; [done|]. split; [done|].
  split; [apply eval_boolean_not|].
  intros idx HU Hx.
  change (eval_boolean "NOT x" idx) with (eval_boolean ("NOT " +:+ "x") idx).
  rewrite (eval_boolean_not idx "x" eq_refl), HU.
  change (lower_string "x") with "x". rewrite Hx. simpl. f_equal; set_solver.
Qed.

Lemma not_complements_in_universe_witness :
  let idx : gmap string (gset string) :=
    {[ "x" := {["a.txt"]}; "y" := {["a.txt"; "b.txt"]} ]} in
  eval_boolean "NOT x" idx = Ok {["b.txt"]}
  ∧ eval_boolean ("NOT " +:+ "Y") idx = Ok (universe idx ∖ default ∅ (idx !! lower_string "Y")).
Proof.
  intros idx. split.
  - apply (proj2 (proj2 (proj2 (proj2 not_complements_in_universe))) idx);
      vm_compute; reflexivity.
  - apply (proj1 (proj2 (proj2 (proj2 not_complements_in_universe))) idx "Y").
    reflexivity.
Defined.

(** The index invariant: a document is in the posting set of a term
    exactly when the term occurs in its token list. *)
Lemma add_postings_spec doc ts idx t d :
  d ∈ default ∅ (foldl (add_posting doc) idx ts !! t)
  ↔ d ∈ default ∅ (idx !! t) ∨ (d = doc ∧ t ∈ ts).
Proof.
  revert idx. induction ts as [|t0 ts IH]; intros idx; simpl.
  - rewrite elem_of_nil. naive_solver.
  - rewrite IH, elem_of_cons. unfold add_posting.
    destruct (decide (t0 = t)) as [->|Hne].
    + rewrite lookup_insert_eq. simpl. set_solver.
    + rewrite lookup_insert_ne by done. naive_solver.
Qed.

Lemma index_doc_spec idx doc toks t d :
  d ∈ default ∅ (index_doc idx (doc, toks) !! t)
  ↔ d ∈ default ∅ (idx !! t) ∨ (d = doc ∧ t ∈ toks).
Proof.
  unfold index_doc. simpl. rewrite add_postings_spec.
  by rewrite elem_of_elements, elem_of_list_to_set.
Qed.

Lemma foldl_index_doc_spec (docs : Docs) idx t d :
  d ∈ default ∅ (foldl index_doc idx docs !! t)
  ↔ d ∈ default ∅ (idx !! t) ∨ ∃ toks, (d, toks) ∈ docs ∧ t ∈ toks.
Proof.
  revert idx. induction docs as [|[doc toks] docs IH]; intros idx; simpl.
  - setoid_rewrite elem_of_nil. naive_solver.
  - rewrite IH, index_doc_spec. setoid_rewrite elem_of_cons. naive_solver.
Qed.

Lemma build_inverted_index_spec (docs : Docs) t d :
  d ∈ default ∅ (build_inverted_index docs !! t)
  ↔ ∃ toks, (d, toks) ∈ docs ∧ t ∈ toks.
Proof.
  unfold build_inverted_index. rewrite foldl_index_doc_spec, lookup_empty.
  simpl. set_solver.
Qed.

(** The derived universe holds exactly the documents with a token. *)
Lemma universe_build_inverted_index (docs : Docs) d :
  d ∈ universe (build_inverted_index docs)
  ↔ ∃ toks t, (d, toks) ∈ docs ∧ t ∈ toks.
Proof.
  rewrite elem_of_universe. split.
  - intros (t & s & Hs & Hd).
    destruct (proj1 (build_inverted_index_spec docs t d)) as (toks & ? & ?);
      [by rewrite Hs|]. by exists toks, t.
  - intros (toks & t & Hin & Ht).
    assert (d ∈ default ∅ (build_inverted_index docs !! t)) as Hd.
    { apply build_inverted_index_spec. by exists toks. }
    destruct (build_inverted_index docs !! t) as [s|] eqn:E; [|set_solver].
    by exists t, s.
Qed.

Lemma dict_items_functional {V} (items : list (string * V)) k v1 v2 :
  NoDup items.*1 → (k, v1) ∈ items → (k, v2) ∈ items → v1 = v2.
Proof.
  induction items as [|[k' v'] items IH]; simpl.
  - by intros _ ?%elem_of_nil.
  - intros [Hk Hnd]%NoDup_cons H1%elem_of_cons H2%elem_of_cons.
    assert (∀ v, (k', v) ∈ items → False) as Hfresh.
    { intros v Hv. apply Hk, list_elem_of_fmap. by exists (k', v). }
    destruct H1 as [E1|H1], H2 as [E2|H2].
    + congruence.
    + injection E1 as -> ->. by destruct (Hfresh v2).
    + injection E2 as -> ->. by destruct (Hfresh v1).
    + by apply IH.
Qed.

(** No query retrieves a document whose token list is empty: such a
    document is in no posting set, hence outside the derived universe. *)
Lemma empty_document_never_retrieved (docs : Docs) e query :
  NoDup docs.*1 → (e, []) ∈ docs →
  ∃ s, eval_boolean query (build_inverted_index docs) = Ok s ∧ e ∉ s.
Proof.
  intros Hnd He.
  destruct (eval_boolean_subseteq query (build_inverted_index docs)) as (s & Hs & Hsub).
  exists s. split; [done|]. intros Hin%Hsub.
  apply universe_build_inverted_index in Hin as (toks & t & Hd & Ht).
  rewrite (dict_items_functional docs e toks [] Hnd Hd He) in Ht.
  by apply elem_of_nil in Ht.
Qed.

(** C1, evaluated on the collection e.txt (no tokens), a.txt (token x):
    the universe derived from the index is a.txt alone, so neither
    [NOT x] nor [NOT y] returns the empty document e.txt, although it
    contains neither term. *)
Theorem not_query_drops_empty_document :
  let docs : Docs := [("e.txt", []); ("a.txt", ["x"])] in
  let idx := build_inverted_index docs in
  universe idx = {["a.txt"]}
  ∧ eval_boolean "NOT x" idx = Ok ∅
  ∧ eval_boolean "NOT y" idx = Ok {["a.txt"]}
  ∧ ¬ (∃ s, eval_boolean "NOT x" idx = Ok s ∧ "e.txt" ∈ s).
Proof.
  intros docs idx. split; [by vm_compute|]. split; [by vm_compute|].
  split; [by vm_compute|].
  intros (s & Hs & He).
  destruct (empty_document_never_retrieved docs "e.txt" "NOT x") as (s' & Hs' & He').
  - vm_compute. repeat constructor; set_solver.
  - set_solver.
  - fold idx in Hs'. congruence.
Qed.

End BooleanClaims.


(** * Python arithmetic that does not raise *)

Section NumFacts.
Import PyNum.
Local Open Scope R_scope.

Lemma py_div_Ok a b : b ≠ 0 → py_div a b = Ok (a / b).
Proof. intros Hb. unfold py_div. by destruct (Req_dec_T b 0). Qed.

Lemma py_div_zero a : py_div a 0 = Raise ZeroDivisionError.
Proof. unfold py_div. by destruct (Req_dec_T 0 0). Qed.

Lemma py_log_Ok x : 0 < x → py_log x = Ok (ln x).
Proof. intros Hx. unfold py_log. by destruct (Rlt_dec 0 x). Qed.

Lemma py_log2_Ok x : 0 < x → py_log2 x = Ok (ln x / ln 2).
Proof. intros Hx. unfold py_log2. by destruct (Rlt_dec 0 x). Qed.

Lemma py_sqrt_Ok x : 0 <= x → py_sqrt x = Ok (sqrt x).
Proof. intros Hx. unfold py_sqrt. by destruct (Rle_dec 0 x). Qed.

Lemma foldl_Rplus a xs : foldl Rplus a xs = a + py_sum xs.
Proof.
  unfold py_sum. revert a. induction xs as [|x xs IH]; intros a; simpl.
  - lra.
  - rewrite (IH (a + x)), (IH (0 + x)). lra.
Qed.

Lemma py_sum_nil : py_sum [] = 0.
Proof. reflexivity. Qed.

Lemma py_sum_cons x xs : py_sum (x :: xs) = x + py_sum xs.
Proof. unfold py_sum at 1. simpl. rewrite foldl_Rplus. lra. Qed.

Lemma py_sum_nonneg xs : Forall (λ x, 0 <= x) xs → 0 <= py_sum xs.
Proof.
  induction 1 as [|x xs Hx _ IH]; [rewrite py_sum_nil; lra|].
  rewrite py_sum_cons. lra.
Qed.

Lemma ln_2_pos : 0 < ln 2.
Proof. rewrite <- ln_1. apply ln_increasing; lra. Qed.

Lemma round_half_even_near y n :
  IZR n <= y < IZR n + 1 / 2 → round_half_even y = n.
Proof.
  intros Hy. unfold round_half_even.
  assert (Int_part y = n) as ->.
  { symmetry. apply Int_part_spec. lra. }
  destruct (Rlt_dec (y - IZR n) (1 / 2)); [done|lra].
Qed.

Lemma round2_exact n : round2 (IZR n / 100) = IZR n / 100.
Proof.
  unfold round2. rewrite (round_half_even_near _ n); [done|].
  replace (IZR n / 100 * 100) with (IZR n) by field. lra.
Qed.

Lemma round2_0 : round2 0 = 0.
Proof.
  replace 0 with (IZR 0 / 100) at 1 by lra. rewrite round2_exact. lra.
Qed.

Lemma round_half_even_close y :
  IZR (round_half_even y) - 1 / 2 <= y <= IZR (round_half_even y) + 1 / 2.
Proof.
  unfold round_half_even. destruct (base_Int_part y) as [H1 H2].
  set (f := Int_part y) in *.
  destruct (Rlt_dec (y - IZR f) (1 / 2)); [lra|].
  destruct (Rlt_dec (1 / 2) (y - IZR f)).
  - rewrite plus_IZR. lra.
  - destruct (Z.even f); [lra|]. rewrite plus_IZR. lra.
Qed.

(** The rounded value is a multiple of 1/100 at most half a hundredth
    away. *)
Lemma round2_close x :
  ∃ n : Z, round2 x = IZR n / 100 ∧ -1 / 200 <= round2 x - x <= 1 / 200.
Proof.
  exists (round_half_even (x * 100)). split; [done|]. unfold round2.
  pose proof (round_half_even_close (x * 100)). lra.
Qed.

End NumFacts.

(** * The rank metrics *)

Section MetricsFacts.
Import PyNum SearchEngine Measures.
Local Open Scope R_scope.

Lemma mapM_Ok {A B} (f : A → outcome B) (g : A → B) (xs : list A) :
  (∀ x, x ∈ xs → f x = Ok (g x)) → mapM f xs = Ok (g <$> xs).
Proof.
  induction xs as [|x xs IH]; intros Hf; simpl; [done|].
  rewrite (Hf x) by apply list_elem_of_here. rewrite bind_Ok.
  rewrite IH; [done|]. intros y Hy. by apply Hf, list_elem_of_further.
Qed.

Lemma elem_of_enumerate {A} (start : nat) (xs : list A) i x :
  (i, x) ∈ enumerate start xs → (start ≤ i)%nat.
Proof.
  revert start. induction xs as [|y xs IH]; intros start; simpl.
  - by intros ?%elem_of_nil.
  - intros [[= -> ->]|H%IH]%elem_of_cons; lia.
Qed.

Lemma log2_succ_pos (i : nat) : (1 ≤ i)%nat → 0 < ln (INR (i + 1)) / ln 2.
Proof.
  intros Hi. apply Rdiv_lt_0_compat; [|apply ln_2_pos].
  rewrite <- ln_1. apply ln_increasing; [lra|].
  rewrite plus_INR. simpl. apply le_INR in Hi. simpl in Hi. lra.
Qed.

(** The discounted gain never raises from rank 1 on. *)
Lemma gain_Ok (i h : nat) :
  (1 ≤ i)%nat → gain (i, h) = Ok (INR h / (ln (INR (i + 1)) / ln 2)).
Proof.
  intros Hi. unfold gain. simpl.
  rewrite py_log2_Ok by (apply lt_0_INR; lia). rewrite bind_Ok.
  apply py_div_Ok. pose proof (log2_succ_pos i Hi). lra.
Qed.

Lemma gains_returns (start : nat) (hits : list nat) :
  (1 ≤ start)%nat → returns (mapM gain (enumerate start hits)).
Proof.
  intros Hs. eexists.
  apply (mapM_Ok gain (λ ih, INR ih.2 / (ln (INR (ih.1 + 1)) / ln 2))).
  intros [i h] Hin%elem_of_enumerate. apply gain_Ok. simpl. lia.
Qed.

Lemma ideal_returns (n : nat) :
  returns (mapM (λ i : nat, gain (i, 1%nat)) (seq 1 n)).
Proof.
  eexists.
  apply (mapM_Ok _ (λ i : nat, INR 1 / (ln (INR (i + 1)) / ln 2))).
  intros i Hin%elem_of_seq. apply gain_Ok. simpl. lia.
Qed.

Lemma ap_step_returns st i h :
  (1 ≤ i)%nat → returns (ap_step st (i, h)).
Proof.
  intros Hi. destruct st as [n a]. unfold ap_step.
  destruct (h =? 1)%nat; [|by eexists].
  rewrite py_div_Ok; [by eexists|]. apply not_0_INR. lia.
Qed.

Lemma ap_loop_returns (start : nat) (hits : list nat) st :
  (1 ≤ start)%nat → returns (for_each ap_step st (enumerate start hits)).
Proof.
  revert start st. induction hits as [|h hits IH]; intros start st Hs; simpl.
  - by eexists.
  - destruct (ap_step_returns st start h Hs) as [st' ->]. rewrite bind_Ok.
    apply IH. lia.
Qed.

(** Without a relevant hit the average-precision loop changes nothing. *)
Lemma ap_loop_no_hit (start : nat) (hits : list nat) st :
  Forall (λ h, h = 0%nat) hits →
  for_each ap_step st (enumerate start hits) = Ok st.
Proof.
  intros Hz. revert start. induction Hz as [|h hits -> _ IH]; intros start.
  - done.
  - simpl. destruct st as [n a]. simpl. apply IH.
Qed.

Lemma size_gold_nonzero (gold_set : gset string) :
  gold_set ≠ ∅ → INR (size gold_set) ≠ 0.
Proof.
  intros Hg. apply not_0_INR. intros Hs%size_empty_iff. by apply leibniz_equiv in Hs.
Qed.

Lemma sum_list_hits (r : list string) (gold_set : gset string) :
  sum_list ((λ doc : string, if bool_decide (doc ∈ gold_set) then 1 else 0)%nat <$> r)
  = relevant_among r gold_set.
Proof.
  unfold relevant_among. induction r as [|doc r IH]; [done|].
  rewrite fmap_cons, filter_cons. cbn [sum_list sum_list_with]. rewrite IH.
  destruct (decide (doc ∈ gold_set)) as [Hin|Hin].
  - by rewrite bool_decide_eq_true_2.
  - by rewrite bool_decide_eq_false_2.
Qed.

(** For a non-zero cutoff [evaluate_vsm] computes all five metrics;
    precision, recall and F1 have the closed forms below. *)
Lemma metrics_Ok results gold_set (k : Z) :
  k ≠ 0%Z →
  let nhits := INR (relevant_among (slice_to k results).*1 gold_set) in
  let precision := nhits / IZR k in
  let recall := if bool_decide (gold_set ≠ ∅) then nhits / INR (size gold_set) else 0 in
  ∃ ap ndcg,
    metrics results gold_set k = Ok (precision, recall, f1_of precision recall, ap, ndcg).
Proof.
  intros Hk nhits precision recall. unfold metrics.
  rewrite sum_list_hits. fold nhits.
  rewrite (py_div_Ok nhits (IZR k)) by (by apply not_0_IZR).
  rewrite bind_Ok. fold precision.
  assert ((if bool_decide (gold_set ≠ ∅)
           then py_div nhits (INR (size gold_set)) else Ok 0) = Ok recall) as ->.
  { unfold recall. case_bool_decide as Hg; [|done].
    by apply py_div_Ok, size_gold_nonzero. }
  rewrite bind_Ok.
  assert ((if Rlt_dec 0 (precision + recall)
           then py_div (2 * precision * recall) (precision + recall) else Ok 0)
          = Ok (f1_of precision recall)) as ->.
  { unfold f1_of. destruct (Rlt_dec 0 (precision + recall)); [|done].
    apply py_div_Ok. lra. }
  rewrite bind_Ok.
  set (hits := _ <$> (slice_to k results).*1).
  destruct (ap_loop_returns 1 hits (0%nat, 0) (le_n 1)) as [[n ap0] ->].
  rewrite bind_Ok.
  assert (returns (if bool_decide (gold_set ≠ ∅)
                   then py_div ap0 (INR (size gold_set)) else Ok 0)) as [ap ->].
  { case_bool_decide as Hg; [|by eexists]. eexists.
    by apply py_div_Ok, size_gold_nonzero. }
  rewrite bind_Ok.
  destruct (gains_returns 1 hits (le_n 1)) as [gains ->]. rewrite bind_Ok.
  destruct (ideal_returns (Z.to_nat (Z.of_nat (size gold_set) `min` k))) as [ideal ->].
  rewrite bind_Ok.
  assert (returns (if Rlt_dec 0 (py_sum ideal)
                   then py_div (py_sum gains) (py_sum ideal) else Ok 0)) as [ndcg ->].
  { destruct (Rlt_dec 0 (py_sum ideal)); [|by eexists]. eexists.
    apply py_div_Ok. lra. }
  rewrite bind_Ok. by exists ap, ndcg.
Qed.

(** With an empty gold set every metric is 0, for any non-zero cutoff. *)
Lemma metrics_empty_gold results (k : Z) :
  k ≠ 0%Z → metrics results ∅ k = Ok (0, 0, 0, 0, 0).
Proof.
  intros Hk. unfold metrics.
  set (hits := _ <$> (slice_to k results).*1).
  assert (Forall (λ h, h = 0%nat) hits) as Hz.
  { unfold hits. apply Forall_fmap, Forall_true. intros doc. simpl.
    by rewrite bool_decide_eq_false_2 by set_solver. }
  assert (sum_list hits = 0%nat) as ->.
  { clear -Hz. induction Hz as [|h hs -> _ IH]; [done|]. simpl. by rewrite IH. }
  rewrite (py_div_Ok (INR 0) (IZR k)) by (by apply not_0_IZR). rewrite bind_Ok.
  replace (INR 0 / IZR k) with 0 by (simpl; unfold Rdiv; ring).
  rewrite !bool_decide_eq_false_2 by (intros H; by apply H). rewrite bind_Ok.
  destruct (Rlt_dec 0 (0 + 0)) as [Hlt|_]; [lra|]. rewrite bind_Ok.
  rewrite ap_loop_no_hit by done. rewrite !bind_Ok.
  destruct (gains_returns 1 hits (le_n 1)) as [gains ->]. rewrite bind_Ok.
  rewrite size_empty.
  replace (Z.to_nat (Z.of_nat 0 `min` k)) with 0%nat by lia.
  simpl seq. cbn [mapM]. unfold mret, outcome_ret. rewrite bind_Ok.
  rewrite py_sum_nil. destruct (Rlt_dec 0 0) as [Hlt|_]; [lra|]. by rewrite bind_Ok.
Qed.

Lemma evaluate_vsm_empty_gold results (k : Z) :
  k ≠ 0%Z → evaluate_vsm results ∅ k = Ok (0, 0, 0, 0, 0).
Proof.
  intros Hk. unfold evaluate_vsm. rewrite metrics_empty_gold by done.
  rewrite bind_Ok. by rewrite round2_0.
Qed.

(** A zero cutoff makes the precision division fail. *)
Lemma evaluate_vsm_zero_cutoff results gold_set :
  evaluate_vsm results gold_set 0 = Raise ZeroDivisionError.
Proof. unfold evaluate_vsm, metrics. by rewrite py_div_zero. Qed.

Lemma precision_recall_empty_gold (result : gset string) :
  result ≠ ∅ → BooleanIR.precision_recall result ∅ = Ok (0, 0).
Proof.
  intros Hr. unfold BooleanIR.precision_recall.
  rewrite (bool_decide_eq_false_2 (result = ∅)) by done. simpl.
  rewrite (bool_decide_eq_true_2 (∅ = ∅)) by done.
  replace (result ∩ ∅) with (∅ : gset string) by set_solver. rewrite size_empty.
  rewrite (py_div_Ok _ (INR (size result))) by (by apply size_gold_nonzero).
  rewrite !bind_Ok.
  replace (INR 0 / INR (size result)) with 0 by (simpl; unfold Rdiv; ring).
  by rewrite round2_0.
Qed.

(** C7. The Boolean helper answers precision 1 and recall 1 when result
    and gold are both empty, and 0, 0 for a non-empty result with an
    empty gold set; the ranked evaluator, called with a non-zero cutoff
    (every call site uses the default 5), answers 0 for recall, MAP and
    nDCG (and for precision and F1) whenever the gold set is empty, also
    when the result list is empty. *)
Theorem empty_gold_conventions :
  BooleanIR.precision_recall ∅ ∅ = Ok (1, 1)
  ∧ (∀ result : gset string,
       result ≠ ∅ → BooleanIR.precision_recall result ∅ = Ok (0, 0))
  ∧ (∀ results (k : Z), k ≠ 0%Z → evaluate_vsm results ∅ k = Ok (0, 0, 0, 0, 0))
  ∧ evaluate_vsm [] ∅ 5 = Ok (0, 0, 0, 0, 0).
Proof.
  split; [done|]. split; [apply precision_recall_empty_gold|].
  split; [apply evaluate_vsm_empty_gold|]. by apply evaluate_vsm_empty_gold.
Qed.

Lemma empty_gold_conventions_witness :
  BooleanIR.precision_recall {["a.txt"]} ∅ = Ok (0, 0)
  ∧ evaluate_vsm [("a.txt", 1)] ∅ 5 = Ok (0, 0, 0, 0, 0).
Proof.
  split.
  - apply (proj1 (proj2 empty_gold_conventions)). set_solver.
  - apply (proj1 (proj2 (proj2 empty_gold_conventions))). lia.
Defined.

Lemma f1_of_example : f1_of (2 / 5) 1 = 4 / 7.
Proof. unfold f1_of. destruct (Rlt_dec 0 (2 / 5 + 1)); [field|lra]. Qed.

Lemma round2_four_sevenths : round2 (4 / 7) = 57 / 100.
Proof. unfold round2. rewrite (round_half_even_near _ 57); [done|lra]. Qed.

(** C8. For a cutoff [k > 0] the precision [evaluate_vsm] computes is
    the number of relevant documents among the first [k] results divided
    by [k] itself, whatever the number of results; the reported value is
    that quotient rounded to two places (a multiple of 1/100 at most half
    a hundredth away).  One relevant result out of one returned gives 0.2
    at [k = 5], not 1; six relevant results give 1 at [k = 5], the sixth
    being cut off.  For gold d1, d3 and results d1..d5 at [k = 5] the
    metrics are precision 2/5, recall 1 and F1 4/7 (between 0.571 and
    0.572), reported as 0.4, 1 and 0.57. *)
Theorem precision_at_k_fixed_denominator :
  (∀ results gold_set (k : Z), (0 < k)%Z →
     let hits := relevant_among (take (Z.to_nat k) results).*1 gold_set in
     (∃ recall f1 ap ndcg,
        metrics results gold_set k = Ok (INR hits / IZR k, recall, f1, ap, ndcg))
     ∧ (∃ p recall f1 ap ndcg,
          evaluate_vsm results gold_set k = Ok (p, recall, f1, ap, ndcg)
          ∧ (∃ n : Z, p = IZR n / 100)
          ∧ -1 / 200 <= p - INR hits / IZR k <= 1 / 200))
  ∧ (∀ s : R, ∃ recall f1 ap ndcg,
       evaluate_vsm [("d1", s)] {["d1"]} 5 = Ok (1 / 5, recall, f1, ap, ndcg))
  ∧ (∀ s1 s2 s3 s4 s5 s6 : R,
       let results :=
         [("d1", s1); ("d2", s2); ("d3", s3); ("d4", s4); ("d5", s5); ("d6", s6)] in
       let gold_set : gset string := {["d1"; "d2"; "d3"; "d4"; "d5"; "d6"]} in
       ∃ recall f1 ap ndcg,
         evaluate_vsm results gold_set 5 = Ok (1, recall, f1, ap, ndcg))
  ∧ (∀ s1 s2 s3 s4 s5 : R,
       let results := [("d1", s1); ("d2", s2); ("d3", s3); ("d4", s4); ("d5", s5)] in
       let gold_set : gset string := {["d1"; "d3"]} in
       (∃ ap ndcg, metrics results gold_set 5 = Ok (2 / 5, 1, 4 / 7, ap, ndcg))
       ∧ (∃ ap ndcg, evaluate_vsm results gold_set 5 = Ok (2 / 5, 1, 57 / 100, ap, ndcg))
       ∧ 571 / 1000 < 4 / 7 < 572 / 1000).
Proof.
  assert (∀ results gold_set (k : Z), k ≠ 0%Z →
     ∃ recall f1 ap ndcg,
       evaluate_vsm results gold_set k
       = Ok (round2 (INR (relevant_among (slice_to k results).*1 gold_set) / IZR k),
             recall, f1, ap, ndcg)) as Hgen.
  { intros results gold_set k Hk.
    destruct (metrics_Ok results gold_set k Hk) as (ap & ndcg & Hm).
    unfold evaluate_vsm. rewrite Hm, bind_Ok. by do 4 eexists. }
  split; [|split; [|split]].
  - intros results gold_set k Hk hits.
    assert (slice_to k results = take (Z.to_nat k) results) as Hs.
    { unfold slice_to. by rewrite (proj2 (Z.leb_le 0 k)) by lia. }
    split.
    + destruct (metrics_Ok results gold_set k) as (ap & ndcg & Hm); [lia|].
      rewrite Hs in Hm. fold hits in Hm. by do 4 eexists.
    + destruct (Hgen results gold_set k) as (r & f & a & n & H); [lia|].
      rewrite Hs in H. fold hits in H.
      destruct (round2_close (INR hits / IZR k)) as (m & Hm & Hclose).
      exists (round2 (INR hits / IZR k)), r, f, a, n.
      split; [done|]. split; [by exists m|done].
  - intros s. destruct (Hgen [("d1", s)] {["d1"]} 5%Z) as (r & f & a & n & H); [lia|].
    exists r, f, a, n. rewrite H.
    replace (relevant_among (slice_to 5 [("d1", s)]).*1 {["d1"]}) with 1%nat
      by (by vm_compute).
    replace (INR 1 / 5) with (IZR 20 / 100) by (simpl; lra).
    rewrite round2_exact. by replace (IZR 20 / 100) with (1 / 5) by lra.
  - intros s1 s2 s3 s4 s5 s6 results gold_set.
    destruct (Hgen results gold_set 5%Z) as (r & f & a & n & H); [lia|].
    exists r, f, a, n. rewrite H.
    replace (relevant_among (slice_to 5 results).*1 gold_set) with 5%nat
      by (by vm_compute).
    replace (INR 5 / 5) with (IZR 100 / 100) by (simpl; lra).
    rewrite round2_exact. by replace (IZR 100 / 100) with 1 by lra.
  - intros s1 s2 s3 s4 s5 results gold_set.
    assert (∃ ap ndcg, metrics results gold_set 5 = Ok (2 / 5, 1, 4 / 7, ap, ndcg))
      as (ap & ndcg & Hm).
    { destruct (metrics_Ok results gold_set 5%Z) as (ap & ndcg & Hm); [lia|].
      exists ap, ndcg. rewrite Hm.
      replace (relevant_among (slice_to 5 results).*1 gold_set) with 2%nat
        by (by vm_compute).
      replace (size gold_set) with 2%nat by (by vm_compute).
      rewrite bool_decide_eq_true_2 by (by vm_compute).
      replace (INR 2 / 5) with (2 / 5) by (simpl; lra).
      replace (INR 2 / INR 2) with 1 by (simpl; lra).
      by rewrite f1_of_example. }
    split; [by exists ap, ndcg|]. split; [|lra].
    exists (round2 ap), (round2 ndcg). unfold evaluate_vsm. rewrite Hm, bind_Ok.
    rewrite round2_four_sevenths.
    replace (2 / 5) with (IZR 40 / 100) at 1 by lra.
    replace 1 with (IZR 100 / 100) at 1 by lra.
    rewrite !round2_exact.
    replace (IZR 40 / 100) with (2 / 5) by lra.
    by replace (IZR 100 / 100) with 1 by lra.
Qed.

Lemma precision_at_k_fixed_denominator_witness :
  let results : list (string * R) := [("d1", 1); ("d2", 1); ("d3", 1)] in
  let gold_set : gset string := {["d1"; "d3"]} in
  ∃ recall f1 ap ndcg,
    metrics results gold_set 2
    = Ok (INR (relevant_among (take (Z.to_nat 2) results).*1 gold_set) / IZR 2,
          recall, f1, ap, ndcg).
Proof.
  intros results gold_set.
  apply (proj1 precision_at_k_fixed_denominator results gold_set 2%Z). lia.
Defined.

End MetricsFacts.

(** * The cosine ranker *)

Section RankFacts.
Import PyNum SearchEngine Measures.
Local Open Scope R_scope.
Implicit Types (d weights q_vec : list (string * R)) (wm : Weights).

Lemma mapM_returns {A B} (f : A → outcome B) (xs : list A) :
  (∀ x, x ∈ xs → returns (f x)) → returns (mapM f xs).
Proof.
  induction xs as [|x xs IH]; intros Hf; simpl; [by eexists|].
  destruct (Hf x) as [y ->]; [apply list_elem_of_here|]. rewrite bind_Ok.
  destruct IH as [ys ->]; [|by eexists].
  intros z Hz. by apply Hf, list_elem_of_further.
Qed.

Lemma Dict_get_set {V} (c : list (string * V)) k v k' :
  Dict.get (Dict.set c k v) k' = if decide (k' = k) then Some v else Dict.get c k'.
Proof.
  induction c as [|[k0 v0] c IH]; simpl.
  - destruct (String.eqb_spec k' k); by case_decide.
  - destruct (String.eqb_spec k k0) as [->|Hne]; simpl.
    + destruct (String.eqb_spec k' k0); by case_decide.
    + destruct (String.eqb_spec k' k0) as [->|Hne'].
      * by rewrite decide_False by done.
      * apply IH.
Qed.

Lemma Dict_set_Forall {V} (P : string * V → Prop) (c : list (string * V)) k v :
  Forall P c → P (k, v) → Forall P (Dict.set c k v).
Proof.
  intros Hc Hkv. induction Hc as [|[k0 v0] c H0 Hc IH]; simpl.
  - by constructor.
  - destruct (String.eqb k k0); by constructor.
Qed.

Lemma Dict_get_is_Some {V} (c : list (string * V)) k :
  k ∈ c.*1 → is_Some (Dict.get c k).
Proof.
  induction c as [|[k0 v0] c IH]; simpl; [by intros ?%elem_of_nil|].
  intros [->|Hin]%elem_of_cons.
  - by rewrite String.eqb_refl.
  - destruct (String.eqb k k0); [done|by apply IH].
Qed.

(** A [Counter] holds positive counts only. *)
Lemma Counter_positive (tokens : list string) :
  Forall (λ tfreq : string * nat, (1 ≤ tfreq.2)%nat) (Counter tokens).
Proof.
  unfold Counter.
  assert (∀ c, Forall (λ tfreq : string * nat, (1 ≤ tfreq.2)%nat) c →
               Forall (λ tfreq : string * nat, (1 ≤ tfreq.2)%nat)
                 (foldl count_up c tokens)) as H; [|by apply H].
  induction tokens as [|t tokens IH]; intros c Hc; simpl; [done|].
  apply IH. unfold count_up. apply Dict_set_Forall; [done|]. simpl. lia.
Qed.

Lemma query_vector_Ok scheme vsm (q_tf : list (string * nat)) :
  Forall (λ tfreq : string * nat, (1 ≤ tfreq.2)%nat) q_tf →
  query_vector scheme vsm q_tf = Ok (query_weights scheme vsm q_tf).
Proof.
  intros Hq. unfold query_vector, query_weights. apply mapM_Ok.
  intros [t f] Hin. rewrite Forall_forall in Hq. specialize (Hq _ Hin). simpl in *.
  destruct (String.eqb scheme "sublinear"); [|done].
  rewrite py_log_Ok; [done|]. apply lt_0_INR. lia.
Qed.

Lemma dot_product_Ok weights q_vec :
  dot_product weights q_vec = Ok (dot weights q_vec).
Proof.
  unfold dot_product, dot.
  rewrite (mapM_Ok _ (λ t : string,
             default 0 (Dict.get weights t) * default 0 (Dict.get q_vec t))); [done|].
  intros t [Hmem Hin]%list_elem_of_filter. unfold Dict.item, Dict.mem in *.
  destruct (Dict.get weights t) as [w|]; [|done].
  destruct (Dict_get_is_Some q_vec t Hin) as [wq ->]. done.
Qed.

Lemma norm2_nonneg d : 0 <= norm2 d.
Proof.
  unfold norm2. apply py_sum_nonneg, Forall_fmap, Forall_true.
  intros w. simpl. apply pow2_ge_0.
Qed.

(** One iteration of the ranking loop never raises: it appends the
    document exactly when its cosine score is positive. *)
Lemma score_doc_Ok q_vec doc_scores doc weights :
  score_doc q_vec doc_scores (doc, weights)
  = Ok (doc_scores ++ (if decide (0 < cosine weights q_vec)
                       then [(doc, cosine weights q_vec)] else [])).
Proof.
  unfold score_doc, cosine. rewrite dot_product_Ok, bind_Ok.
  destruct (Req_dec_T (norm2 weights) 0) as [Hd|Hd].
  { rewrite decide_False by lra. by rewrite app_nil_r. }
  destruct (Req_dec_T (norm2 q_vec) 0) as [Hq|Hq].
  { rewrite decide_False by lra. by rewrite app_nil_r. }
  pose proof (norm2_nonneg weights). pose proof (norm2_nonneg q_vec).
  assert (0 < norm2 weights * norm2 q_vec) as Hpos
    by (apply Rmult_lt_0_compat; lra).
  rewrite py_sqrt_Ok, bind_Ok by lra.
  pose proof (sqrt_lt_R0 _ Hpos).
  rewrite py_div_Ok, bind_Ok by lra.
  destruct (Rlt_dec 0 (dot weights q_vec / sqrt (norm2 weights * norm2 q_vec))).
  - by rewrite decide_True.
  - rewrite decide_False by done. by rewrite app_nil_r.
Qed.

Lemma score_loop_Ok q_vec wm doc_scores :
  for_each (score_doc q_vec) doc_scores wm
  = Ok (doc_scores ++ positive_scores wm q_vec).
Proof.
  unfold positive_scores.
  revert doc_scores. induction wm as [|[doc weights] wm IH]; intros doc_scores.
  - simpl. by rewrite app_nil_r.
  - cbn [for_each]. rewrite score_doc_Ok, bind_Ok, IH.
    rewrite fmap_cons, filter_cons. simpl.
    rewrite <- app_assoc. by destruct (decide (0 < cosine weights q_vec)).
Qed.

(** The sort is a stable insertion sort: a permutation, highest score
    first. *)
Lemma insert_desc_Permutation x (l : list (string * R)) : insert_desc x l ≡ₚ x :: l.
Proof.
  induction l as [|y l IH]; simpl; [done|].
  destruct (Rlt_dec x.2 y.2); [|done]. rewrite IH. apply Permutation_swap.
Qed.

Lemma sort_desc_Permutation (l : list (string * R)) : sort_desc l ≡ₚ l.
Proof.
  induction l as [|x l IH]; simpl; [done|].
  by rewrite insert_desc_Permutation, IH.
Qed.

#[local] Instance score_ge_transitive : Transitive score_ge.
Proof. intros x y z. unfold score_ge. lra. Qed.

Lemma insert_desc_Sorted x (l : list (string * R)) :
  Sorted score_ge l → Sorted score_ge (insert_desc x l).
Proof.
  induction 1 as [|y l Hl IH Hhd]; simpl; [by repeat constructor|].
  destruct (Rlt_dec x.2 y.2) as [Hlt|Hge].
  - constructor; [done|].
    destruct Hhd as [|z l Hz]; simpl.
    + constructor. unfold score_ge. lra.
    + destruct (Rlt_dec x.2 z.2); constructor; unfold score_ge in *; lra.
  - constructor; [by constructor|]. constructor. unfold score_ge. lra.
Qed.

Lemma sort_desc_Sorted (l : list (string * R)) : StronglySorted score_ge (sort_desc l).
Proof.
  apply Sorted_StronglySorted; [apply _|].
  induction l as [|x l IH]; simpl; [constructor|by apply insert_desc_Sorted].
Qed.

Lemma slice_to_nonneg {A} (k : Z) (xs : list A) :
  (0 ≤ k)%Z → slice_to k xs = take (Z.to_nat k) xs.
Proof. intros Hk. unfold slice_to. by rewrite (proj2 (Z.leb_le 0 k)). Qed.

Lemma slice_to_negative {A} (k : Z) (xs : list A) :
  (k < 0)%Z → slice_to k xs = take (length xs - Z.to_nat (- k)) xs.
Proof. intros Hk. unfold slice_to. by rewrite (proj2 (Z.leb_gt 0 k)). Qed.

Section WithNLTK.
Variable stem : string → string.
Variable STOPWORDS : gset string.

(** The ranker never raises: it returns the slice of the sorted list of
    positive scores. *)
Lemma rank_vsm_Ok query vsm wm scheme (top_k : Z) :
  let q_vec := query_weights scheme vsm (Counter (preprocess stem STOPWORDS query)) in
  rank_vsm stem STOPWORDS query vsm wm scheme top_k
  = Ok (slice_to top_k (sort_desc (positive_scores wm q_vec))).
Proof.
  intros q_vec. unfold rank_vsm.
  rewrite query_vector_Ok by apply Counter_positive. rewrite bind_Ok.
  fold q_vec. by rewrite score_loop_Ok, bind_Ok.
Qed.

End WithNLTK.




(** A two-document model on which the ranker is evaluated by hand:
    a.txt and b.txt both hold the term x with weight 1, the query is x. *)
Lemma cosine_unit : cosine [("x", 1)] [("x", 1)] = 1.
Proof.
  assert (norm2 [("x", 1)] = 1) as Hn by (unfold norm2, py_sum; simpl; lra).
  assert (dot [("x", 1)] [("x", 1)] = 1) as Hd.
  { unfold dot. simpl. unfold py_sum. simpl. lra. }
  unfold cosine. rewrite Hn, Hd.
  destruct (Req_dec_T 1 0) as [?|_]; [lra|].
  replace (1 * 1) with 1 by lra. rewrite sqrt_1. lra.
Qed.


Lemma query_x_weights :
  query_weights "tfidf" {| tf := []; df := []; idf := [("x", 1)]; docs := [] |}
    (Counter (preprocess (λ w, w) ∅ "x"))
  = [("x", 1)].
Proof.
  replace (Counter (preprocess (λ w, w) ∅ "x")) with [("x", 1%nat)]
    by (by vm_compute).
  unfold query_weights, idf_get. simpl. do 2 f_equal. lra.
Qed.

Lemma rank_vsm_two_documents (top_k : Z) :
  rank_vsm (λ w, w) ∅ "x"
    {| tf := []; df := []; idf := [("x", 1)]; docs := [] |}
    [("a.txt", [("x", 1)]); ("b.txt", [("x", 1)])] "tfidf" top_k
  = Ok (slice_to top_k [("a.txt", 1); ("b.txt", 1)]).
Proof.
  rewrite rank_vsm_Ok, query_x_weights. do 2 f_equal.
  unfold positive_scores. simpl. rewrite cosine_unit.
  rewrite !filter_cons, filter_nil. simpl.
  rewrite !decide_True by lra. simpl.
  destruct (Rlt_dec 1 1); [lra|done].
Qed.



End RankFacts.

(** * The weight model *)

Section BuildFacts.
Import PyNum BooleanIR SearchEngine Measures.
Local Open Scope R_scope.

(** Looking up a dict built from the items of another one. *)
Lemma Dict_get_fmap {V W} (h : string → V → W) (c : list (string * V)) k :
  Dict.get ((λ e : string * V, (e.1, h e.1 e.2)) <$> c) k = h k <$> Dict.get c k.
Proof.
  induction c as [|[k0 v0] c IH]; simpl; [done|].
  by destruct (String.eqb_spec k k0) as [->|_].
Qed.

(** Counting up along a token list adds the occurrences to the count. *)
Lemma count_up_fold (tokens : list string) (c : list (string * nat)) t :
  default 0%nat (Dict.get (foldl count_up c tokens) t)
  = (default 0 (Dict.get c t) + occurrences t tokens)%nat
  ∧ (is_Some (Dict.get (foldl count_up c tokens) t)
     ↔ is_Some (Dict.get c t) ∨ occurrences t tokens ≠ 0%nat).
Proof.
  unfold occurrences. revert c.
  induction tokens as [|t0 tokens IH]; intros c.
  - simpl. split; [lia|]. naive_solver.
  - cbn [foldl]. destruct (IH (count_up c t0)) as [IH1 IH2].
    rewrite IH1, IH2, filter_cons. unfold count_up. rewrite Dict_get_set.
    destruct (decide (t = t0)) as [->|Hne].
    + rewrite decide_True by done. simpl. split; [lia|].
      split; [intros _; right; lia|]. intros _. left. by eexists.
    + rewrite decide_False by done. done.
Qed.

Lemma Dict_get_counted (c : list (string * nat)) t (n : nat) :
  default 0%nat (Dict.get c t) = n → (is_Some (Dict.get c t) ↔ n ≠ 0%nat) →
  Dict.get c t = if decide (n = 0)%nat then None else Some n.
Proof.
  destruct (Dict.get c t) as [m|]; simpl; intros <- Hs.
  - rewrite decide_False; [done|]. apply Hs. by eexists.
  - by rewrite decide_True.
Qed.

Lemma Counter_spec (tokens : list string) t :
  Dict.get (Counter tokens) t
  = if decide (occurrences t tokens = 0)%nat then None
    else Some (occurrences t tokens).
Proof.
  unfold Counter. destruct (count_up_fold tokens [] t) as [H1 H2].
  apply Dict_get_counted; [done|]. rewrite H2. simpl.
  split; [intros [[? [=]]|?]; done|by right].
Qed.

Lemma occurrences_NoDup (l : list string) t :
  NoDup l → occurrences t l = if decide (t ∈ l) then 1%nat else 0%nat.
Proof.
  unfold occurrences. induction 1 as [|x l Hx Hnd IH]; [done|].
  rewrite filter_cons. destruct (decide (x = t)) as [->|Hne]; simpl; rewrite IH.
  - rewrite (decide_False (P := t ∈ l)) by done.
    by rewrite (decide_True (P := t ∈ t :: l)) by apply list_elem_of_here.
  - destruct (decide (t ∈ l)) as [Hin|Hin].
    + by rewrite (decide_True (P := t ∈ x :: l)) by by apply list_elem_of_further.
    + rewrite (decide_False (P := t ∈ x :: l)); [done|].
      intros [->|?]%elem_of_cons; done.
Qed.

Lemma occurrences_set (tokens : list string) t :
  occurrences t (elements (list_to_set tokens : gset string))
  = if decide (t ∈ tokens) then 1%nat else 0%nat.
Proof.
  rewrite occurrences_NoDup by apply NoDup_elements.
  destruct (decide (t ∈ tokens)) as [Hin|Hin].
  - rewrite decide_True; [done|]. by rewrite elem_of_elements, elem_of_list_to_set.
  - rewrite decide_False; [done|]. by rewrite elem_of_elements, elem_of_list_to_set.
Qed.

Section WithNLTK.
Variable stem : string → string.
Variable STOPWORDS : gset string.

Local Abbreviation tokens_of text := (preprocess stem STOPWORDS (join " " text)).
Local Abbreviation tf_after := (Measures.tf_after stem STOPWORDS).
Local Abbreviation df_after := (Measures.df_after stem STOPWORDS).

Lemma build_loop (docs : Docs) tf0 df0 :
  foldl (build_doc stem STOPWORDS) (tf0, df0) docs
  = (tf_after tf0 docs, df_after df0 docs).
Proof.
  revert tf0 df0. induction docs as [|[doc_id text] docs IH]; intros tf0 df0; [done|].
  simpl. apply IH.
Qed.

Lemma df_after_fold (docs : Docs) df0 t :
  default 0%nat (Dict.get (df_after df0 docs) t)
  = (default 0 (Dict.get df0 t) + doc_frequency stem STOPWORDS docs t)%nat
  ∧ (is_Some (Dict.get (df_after df0 docs) t)
     ↔ is_Some (Dict.get df0 t) ∨ doc_frequency stem STOPWORDS docs t ≠ 0%nat).
Proof.
  unfold Measures.df_after, doc_frequency. revert df0.
  induction docs as [|[doc_id text] docs IH]; intros df0.
  - simpl. split; [lia|]. naive_solver.
  - cbn [foldl]. simpl fst. simpl snd.
    set (df1 := foldl count_up df0 _).
    destruct (IH df1) as [IH1 IH2]. rewrite IH1, IH2. clear IH IH1 IH2.
    destruct (count_up_fold (elements (list_to_set (tokens_of text) : gset string))
                df0 t) as [H1 H2].
    fold df1 in H1, H2. rewrite H1, H2, occurrences_set, filter_cons. simpl.
    destruct (decide (t ∈ tokens_of text)); simpl.
    + split; [lia|]. split; [intros _; right; lia|]. intros _. left. by right.
    + split; [lia|]. naive_solver.
Qed.

(** The document frequencies collected by [build_vsm]. *)
Lemma df_after_spec (docs : Docs) t :
  Dict.get (df_after [] docs) t
  = if decide (doc_frequency stem STOPWORDS docs t = 0)%nat then None
    else Some (doc_frequency stem STOPWORDS docs t).
Proof.
  destruct (df_after_fold docs [] t) as [H1 H2].
  apply Dict_get_counted; [done|]. rewrite H2. simpl.
  split; [intros [[? [=]]|?]; done|by right].
Qed.

Lemma tf_after_other (docs : Docs) tf0 d :
  d ∉ docs.*1 → Dict.get (tf_after tf0 docs) d = Dict.get tf0 d.
Proof.
  unfold Measures.tf_after. revert tf0.
  induction docs as [|[doc_id text] docs IH]; intros tf0 Hd; [done|].
  simpl in *. rewrite IH by set_solver. rewrite Dict_get_set.
  rewrite decide_False; [done|]. set_solver.
Qed.

Lemma tf_after_spec (docs : Docs) tf0 d text :
  NoDup docs.*1 → (d, text) ∈ docs →
  Dict.get (tf_after tf0 docs) d = Some (Counter (tokens_of text)).
Proof.
  unfold Measures.tf_after. revert tf0.
  induction docs as [|[doc_id text0] docs IH]; intros tf0 Hnd Hin.
  - by apply elem_of_nil in Hin.
  - simpl in Hnd. apply NoDup_cons in Hnd as [Hfresh Hnd].
    apply elem_of_cons in Hin as [[= -> ->]|Hin]; simpl.
    + fold (tf_after (Dict.set tf0 doc_id (Counter (tokens_of text0))) docs).
      rewrite tf_after_other by done. rewrite Dict_get_set. by rewrite decide_True.
    + by apply IH.
Qed.

Lemma idf_of_Ok (N : nat) (df : list (string * nat)) t :
  idf_of N df t = Ok (smoothed_idf N (default 0%nat (Dict.get df t))).
Proof.
  unfold idf_of, smoothed_idf.
  set (n := default 0%nat (Dict.get df t)).
  assert (0 < INR (N + 1)) by (apply lt_0_INR; lia).
  assert (0 < INR (n + 1)) by (apply lt_0_INR; lia).
  rewrite py_div_Ok, bind_Ok by lra.
  rewrite py_log_Ok, bind_Ok; [done|]. by apply Rdiv_lt_0_compat.
Qed.

(** [build_vsm] never raises; this is the model it returns. *)
Lemma build_vsm_Ok (docs : Docs) :
  let df := df_after [] docs in
  build_vsm stem STOPWORDS docs
  = Ok {| tf := tf_after [] docs;
          df := df;
          idf := (λ e : string * nat,
                    (e.1, smoothed_idf (length docs) (default 0%nat (Dict.get df e.1))))
                 <$> df;
          docs := docs |}.
Proof.
  intros df. unfold build_vsm. rewrite build_loop. fold df.
  rewrite (mapM_Ok _ (λ e : string * nat,
             (e.1, smoothed_idf (length docs) (default 0%nat (Dict.get df e.1))))).
  - by rewrite bind_Ok.
  - intros [t n] _. simpl. by rewrite idf_of_Ok, bind_Ok.
Qed.

Lemma doc_frequency_le (docs : Docs) t :
  (doc_frequency stem STOPWORDS docs t ≤ length docs)%nat.
Proof. apply length_filter. Qed.

End WithNLTK.

Lemma smoothed_idf_ge_1 (N df : nat) : (df ≤ N)%nat → 1 <= smoothed_idf N df.
Proof.
  intros Hle. unfold smoothed_idf.
  assert (0 < INR (df + 1)) as Hd by (apply lt_0_INR; lia).
  assert (INR (df + 1) <= INR (N + 1)) as Hn by (apply le_INR; lia).
  assert (1 <= INR (N + 1) / INR (df + 1)) as Hq.
  { apply (Rmult_le_reg_r (INR (df + 1))); [done|].
    unfold Rdiv. rewrite Rmult_assoc, Rinv_l by lra. lra. }
  destruct Hq as [Hq| <-]; [|rewrite ln_1; lra].
  apply ln_increasing in Hq; [|lra]. rewrite ln_1 in Hq. lra.
Qed.

Lemma smoothed_idf_all_documents (N : nat) : smoothed_idf N N = 1.
Proof.
  unfold smoothed_idf.
  assert (0 < INR (N + 1)) as Hn by (apply lt_0_INR; lia).
  replace (INR (N + 1) / INR (N + 1)) with 1 by (field; lra).
  rewrite ln_1. lra.
Qed.

Lemma occurrences_elem_of (tokens : list string) t :
  occurrences t tokens ≠ 0%nat → t ∈ tokens.
Proof.
  unfold occurrences. intros Hn.
  destruct (filter (λ x, x = t) tokens) as [|x l] eqn:E; [done|].
  assert (x ∈ filter (λ x, x = t) tokens) as Hx by (rewrite E; apply list_elem_of_here).
  by apply list_elem_of_filter in Hx as [-> ?].
Qed.

(** C4. For a collection of [N] documents with distinct names,
    [build_vsm] returns a model in which [idf] is defined exactly for the
    terms with df(t) ≥ 1, with value log((N+1)/(df(t)+1)) + 1; df(t) never
    exceeds [N] and every idf value is strictly positive; under the
    standard scheme the weight of a term in a document is defined exactly
    when the term occurs in it, and is tf(t,d) times that idf; a term in
    every one of N = 4 documents has idf exactly 1. *)
Theorem standard_weight_is_tf_idf
    (stem : string → string) (STOPWORDS : gset string) (docs : Docs) :
  NoDup docs.*1 →
  let N := length docs in
  let df := doc_frequency stem STOPWORDS docs in
  ∃ vsm,
    build_vsm stem STOPWORDS docs = Ok vsm
    ∧ (∀ t, (df t ≤ N)%nat
         ∧ Dict.get (idf vsm) t
           = if decide (df t = 0)%nat then None
             else Some (ln (INR (N + 1) / INR (df t + 1)) + 1))
    ∧ (∀ t v, Dict.get (idf vsm) t = Some v → 0 < v)
    ∧ (∀ n : nat, (n ≤ N)%nat → 0 < ln (INR (N + 1) / INR (n + 1)) + 1)
    ∧ (∀ d text, (d, text) ∈ docs →
         ∃ weights,
           Dict.get (weight_tfidf_standard vsm) d = Some weights
           ∧ ∀ t, let f := term_frequency stem STOPWORDS text t in
                  Dict.get weights t
                  = if decide (f = 0)%nat then None
                    else Some (INR f * (ln (INR (N + 1) / INR (df t + 1)) + 1)))
    ∧ (N = 4%nat → ∀ t, df t = 4%nat → Dict.get (idf vsm) t = Some 1).
Proof.
  intros Hnd N df. eexists. split; [apply build_vsm_Ok|]. cbn [idf tf].
  assert (∀ t, Dict.get
                 ((λ e : string * nat,
                     (e.1, smoothed_idf (length docs)
                             (default 0%nat
                                (Dict.get (df_after stem STOPWORDS [] docs) e.1))))
                  <$> df_after stem STOPWORDS [] docs) t
               = if decide (df t = 0)%nat then None
                 else Some (smoothed_idf N (df t))) as Hidf.
  { intros t.
    rewrite (Dict_get_fmap
               (λ k (_ : nat), smoothed_idf (length docs)
                  (default 0%nat (Dict.get (df_after stem STOPWORDS [] docs) k)))).
    rewrite df_after_spec. fold (df t). by destruct (decide (df t = 0)%nat). }
  split; [|split; [|split; [|split]]].
  - intros t. split; [apply doc_frequency_le|]. apply Hidf.
  - intros t v. rewrite Hidf. destruct (decide (df t = 0)%nat); [done|].
    intros [= <-]. pose proof (smoothed_idf_ge_1 N (df t) (doc_frequency_le _ _ _ _)).
    lra.
  - intros n Hn. pose proof (smoothed_idf_ge_1 N n Hn) as Hge.
    unfold smoothed_idf in Hge. lra.
  - intros d text Hin. unfold weight_tfidf_standard. cbn [tf].
    rewrite (Dict_get_fmap
               (λ (_ : string) (terms : list (string * nat)),
                  (λ tfreq : string * nat, (tfreq.1, INR tfreq.2 * idf_get _ tfreq.1))
                  <$> terms)).
    rewrite (tf_after_spec stem STOPWORDS docs [] d text Hnd Hin). simpl.
    eexists. split; [done|]. intros t.
    set (f := term_frequency stem STOPWORDS text t).
    rewrite (Dict_get_fmap (λ k (n : nat), INR n * idf_get _ k)).
    rewrite Counter_spec. fold (term_frequency stem STOPWORDS text t). fold f.
    destruct (decide (f = 0)%nat) as [|Hf]; [done|]. simpl. do 2 f_equal.
    unfold idf_get. cbn [idf]. rewrite Hidf.
    assert (df t ≠ 0%nat) as Hdf.
    { apply occurrences_elem_of in Hf. unfold df, doc_frequency.
      intros Hz%length_zero_iff_nil.
      assert ((d, text) ∈ filter (λ entry : string * list string,
                 t ∈ preprocess stem STOPWORDS (join " " entry.2)) docs) as Hd
        by (by apply list_elem_of_filter).
      rewrite Hz in Hd. by apply elem_of_nil in Hd. }
    by rewrite decide_False.
  - intros HN t Hdf. rewrite Hidf, Hdf, HN. simpl.
    by rewrite smoothed_idf_all_documents.
Qed.

Lemma standard_weight_is_tf_idf_witness :
  let docs : Docs :=
    [("a.txt", ["x"]); ("b.txt", ["x"; "y"]); ("c.txt", ["z"; "x"]); ("d.txt", ["x"; "x"])] in
  ∃ vsm,
    build_vsm (λ w, w) ∅ docs = Ok vsm
    ∧ Dict.get (idf vsm) "x" = Some 1
    ∧ (∀ t v, Dict.get (idf vsm) t = Some v → 0 < v)
    ∧ ∃ weights, Dict.get (weight_tfidf_standard vsm) "b.txt" = Some weights.
Proof.
  intros docs.
  destruct (standard_weight_is_tf_idf (λ w, w) ∅ docs)
    as (vsm & Hb & _ & Hpos & _ & Hw & Hall).
  - repeat constructor; set_solver.
  - exists vsm. split; [done|]. split; [|split; [done|]].
    + apply Hall; by vm_compute.
    + destruct (Hw "b.txt" ["x"; "y"]) as (weights & Hget & _); [set_solver|].
      by exists weights.
Defined.

(** The sublinear weights of a model built by [build_vsm] never raise:
    every stored frequency is at least 1. *)
Lemma weight_tfidf_sublinear_returns vsm :
  Forall (λ entry : string * list (string * nat),
            Forall (λ tfreq : string * nat, (1 ≤ tfreq.2)%nat) entry.2) (tf vsm) →
  returns (weight_tfidf_sublinear vsm).
Proof.
  intros Htf. unfold weight_tfidf_sublinear. apply mapM_returns.
  intros [doc terms] Hin. rewrite Forall_forall in Htf. specialize (Htf _ Hin).
  simpl in *.
  destruct (mapM_returns
              (λ tfreq : string * nat,
                 l ← py_log (INR tfreq.2); Ok (tfreq.1, (1 + l) * idf_get vsm tfreq.1))
              terms) as [ws ->]; [|by eexists].
  intros [t f] Ht. rewrite Forall_forall in Htf. specialize (Htf _ Ht). simpl in *.
  rewrite py_log_Ok by (apply lt_0_INR; lia). by eexists.
Qed.

Lemma tf_after_positive stem STOPWORDS (docs : Docs) tf0 :
  Forall (λ entry : string * list (string * nat),
            Forall (λ tfreq : string * nat, (1 ≤ tfreq.2)%nat) entry.2) tf0 →
  Forall (λ entry : string * list (string * nat),
            Forall (λ tfreq : string * nat, (1 ≤ tfreq.2)%nat) entry.2)
    (tf_after stem STOPWORDS tf0 docs).
Proof.
  unfold tf_after. revert tf0.
  induction docs as [|[doc_id text] docs IH]; intros tf0 H0; [done|].
  simpl. apply IH, Dict_set_Forall; [done|]. apply Counter_positive.
Qed.

(** C2, as the code has it: neither of the two inputs raises.  The empty
    collection gives the empty index, the empty model and empty weight
    models, and ranking over them gives the empty list for every
    [top_k].  For every collection, [build_vsm] and both weight
    functions return, and on the models so built [rank_vsm] returns for
    every query, scheme and [top_k]: the empty list for [top_k = 0], and
    for a negative [top_k] a list that is [-top_k] entries shorter than
    the number of documents with a positive score (or empty). *)
Theorem building_and_ranking_never_raise :
  build_inverted_index [] = ∅
  ∧ (∀ stem STOPWORDS,
       build_vsm stem STOPWORDS []
       = Ok {| tf := []; df := []; idf := []; docs := [] |})
  ∧ weight_tfidf_standard {| tf := []; df := []; idf := []; docs := [] |} = []
  ∧ weight_tfidf_sublinear {| tf := []; df := []; idf := []; docs := [] |} = Ok []
  ∧ (∀ stem STOPWORDS query scheme (top_k : Z),
       rank_vsm stem STOPWORDS query
         {| tf := []; df := []; idf := []; docs := [] |} [] scheme top_k
       = Ok [])
  ∧ (∀ stem STOPWORDS (docs : Docs),
       ∃ vsm wm_sub,
         build_vsm stem STOPWORDS docs = Ok vsm
         ∧ weight_tfidf_sublinear vsm = Ok wm_sub
         ∧ ∀ wm query scheme (top_k : Z),
             wm = weight_tfidf_standard vsm ∨ wm = wm_sub →
             let q_vec :=
               query_weights scheme vsm (Counter (preprocess stem STOPWORDS query)) in
             ∃ ranked,
               rank_vsm stem STOPWORDS query vsm wm scheme top_k = Ok ranked
               ∧ (top_k = 0%Z → ranked = [])
               ∧ ((top_k < 0)%Z →
                    length ranked
                    = (length (positive_scores wm q_vec) - Z.to_nat (- top_k))%nat)).
Proof.
  split; [done|]. split; [done|]. split; [done|]. split; [done|]. split.
  - intros. rewrite rank_vsm_Ok. unfold slice_to. cbn [positive_scores].
    change (sort_desc (positive_scores [] _)) with (@nil (string * R)).
    destruct (0 <=? top_k)%Z; by rewrite take_nil.
  - intros stem STOPWORDS docs.
    destruct (weight_tfidf_sublinear_returns
                {| tf := tf_after stem STOPWORDS [] docs;
                   df := df_after stem STOPWORDS [] docs;
                   idf := (λ e : string * nat,
                             (e.1, smoothed_idf (length docs)
                                     (default 0%nat
                                        (Dict.get (df_after stem STOPWORDS [] docs) e.1))))
                          <$> df_after stem STOPWORDS [] docs;
                   docs := docs |}) as [wm_sub Hsub].
    { cbn [tf]. by apply tf_after_positive. }
    eexists _, wm_sub. split; [apply build_vsm_Ok|]. split; [exact Hsub|].
    intros wm query scheme top_k _ q_vec.
    eexists. split; [apply rank_vsm_Ok|]. fold q_vec. split.
    + intros ->. by rewrite slice_to_nonneg.
    + intros Hneg. rewrite slice_to_negative by done.
      rewrite length_take, (Permutation_length (sort_desc_Permutation _)). lia.
Qed.

(** C2 as stated fails: the empty collection and [top_k ≤ 0] are
    answered with a value, not with an error. *)
Lemma empty_collection_and_top_k_return :
  build_inverted_index [] = ∅
  ∧ build_vsm (λ w, w) ∅ [] = Ok {| tf := []; df := []; idf := []; docs := [] |}
  ∧ rank_vsm (λ w, w) ∅ "x"
      {| tf := []; df := []; idf := [("x", 1)]; docs := [] |}
      [("a.txt", [("x", 1)]); ("b.txt", [("x", 1)])] "tfidf" 0
    = Ok []
  ∧ rank_vsm (λ w, w) ∅ "x"
      {| tf := []; df := []; idf := [("x", 1)]; docs := [] |}
      [("a.txt", [("x", 1)]); ("b.txt", [("x", 1)])] "tfidf" (-1)
    = Ok [("a.txt", 1)].
Proof.
  split; [done|]. split; [done|]. split; by rewrite rank_vsm_two_documents.
Qed.

End BuildFacts.

(** * Worked examples *)

Section Examples.
Import PyNum BooleanIR SearchEngine.

Example tokenize_keywords_and_hyphens :
  tokenize " not-x and-or x-not  NOTx teknik OR semarang_1 !! a.b "
  = ["NOT"; "-x"; "AND"; "-or"; "x-not"; "notx"; "teknik"; "OR"; "semarang_1"; "a"; "b"].
Proof. by vm_compute. Qed.

Example tokenize_hyphen_prefixed :
  tokenize "-not -and- not_ or-" = ["-not"; "-and-"; "not_"; "OR"; "-"].
Proof. by vm_compute. Qed.

Example to_postfix_precedence :
  to_postfix (tokenize "a OR b AND NOT c") = Ok ["a"; "b"; "c"; "NOT"; "AND"; "OR"].
Proof. by vm_compute. Qed.

Example campus_index :
  build_inverted_index
    [("itb.txt", ["bandung"; "itb"; "teknik"]);
     ("ugm.txt", ["yogyakarta"; "teknik"; "teknik"]);
     ("e.txt", [])]
  = {[ "bandung" := {["itb.txt"]}; "itb" := {["itb.txt"]};
       "teknik" := {["itb.txt"; "ugm.txt"]}; "yogyakarta" := {["ugm.txt"]} ]}.
Proof. by vm_compute. Qed.

Example campus_queries :
  let idx : gmap string (gset string) :=
    {[ "bandung" := {["itb.txt"]}; "itb" := {["itb.txt"]};
       "teknik" := {["itb.txt"; "ugm.txt"]}; "yogyakarta" := {["ugm.txt"]} ]} in
  eval_boolean "bandung AND teknik" idx = Ok {["itb.txt"]}
  ∧ eval_boolean "teknik OR semarang" idx = Ok {["itb.txt"; "ugm.txt"]}
  ∧ eval_boolean "NOT bandung" idx = Ok {["ugm.txt"]}
  ∧ eval_boolean "AND" idx = Ok ∅
  ∧ eval_boolean "bandung AND" idx = Ok {["itb.txt"]}
  ∧ eval_boolean "NOT NOT bandung" idx = Ok {["ugm.txt"]}.
Proof. by vm_compute. Qed.

Example preprocess_scrubs_and_filters :
  preprocess (λ w, w) {["the"]} "The Quick-Brown fox, the 2nd!"
  = ["quick"; "brown"; "fox"; "2nd"].
Proof. by vm_compute. Qed.

Example Counter_first_occurrence_order :
  Counter ["b"; "a"; "b"] = [("b", 2); ("a", 1)].
Proof. by vm_compute. Qed.

Example slice_to_examples :
  slice_to 2 [1; 2; 3] = [1; 2] ∧ slice_to 5 [1; 2; 3] = [1; 2; 3]
  ∧ slice_to 0 [1; 2; 3] = [] ∧ slice_to (-1) [1; 2; 3] = [1; 2]
  ∧ slice_to (-5) [1; 2; 3] = [].
Proof. by vm_compute. Qed.

End Examples.

(** * Lexing well-formed queries *)

Section QueryLexing.
Import Chars Lexer Grammar BooleanIR SearchEngine Queries.
Implicit Types (l r : list ascii) (ls : list (list ascii)) (prev : option ascii).

Lemma match_at_keyword prev kw r :
  kw ∈ [kw_not; kw_and; kw_or] → word_at prev = false → stops r = true →
  match_at prev (kw ++ r) = Some (kw, r).
Proof.
  intros Hkw Hprev Hr%stops_not_word.
  repeat (apply elem_of_cons in Hkw as [->|Hkw]);
    [| | |by apply elem_of_nil in Hkw];
    unfold match_at, match_kw, boundary; cbn;
    change (drop 0 r) with r; by rewrite Hprev, Hr.
Qed.

Lemma lexeme_inv l :
  lexeme l = true →
  (l ≠ [] ∧ forallb term_char l = true ∧ keyword_headed l = false)
  ∨ l ∈ [kw_not; kw_and; kw_or].
Proof.
  unfold lexeme. intros [H|H]%orb_prop.
  - left. apply andb_prop in H as [[H1 H2]%andb_prop H3]. repeat split.
    + apply negb_true_iff in H1. by apply bool_decide_eq_false in H1.
    + done.
    + by apply negb_true_iff.
  - right. by apply bool_decide_eq_true in H.
Qed.

Lemma match_at_lexeme prev l r :
  lexeme l = true → word_at prev = false → stops r = true →
  match_at prev (l ++ r) = Some (l, r).
Proof.
  intros [(H1 & H2 & H3)|Hkw]%lexeme_inv Hprev Hr.
  - by apply match_at_term.
  - by apply match_at_keyword.
Qed.

Lemma lexeme_chars l c : lexeme l = true → c ∈ l → is_space c = false.
Proof.
  intros [(_ & H2 & _)|Hkw]%lexeme_inv Hc.
  - apply term_char_not_space. rewrite forallb_forall in H2.
    by apply H2, list_elem_of_In.
  - repeat (apply elem_of_cons in Hkw as [->|Hkw]);
      [| | |by apply elem_of_nil in Hkw];
      repeat (apply elem_of_cons in Hc as [->|Hc]; [done|]);
      by apply elem_of_nil in Hc.
Qed.

Lemma lexeme_nonempty l : lexeme l = true → l ≠ [].
Proof.
  intros [(H1 & _)|Hkw]%lexeme_inv; [done|].
  intros ->. repeat (apply elem_of_cons in Hkw as [?|Hkw]; [done|]).
  by apply elem_of_nil in Hkw.
Qed.

(** The scan of words joined by single spaces gives the words back. *)
Lemma findall_flat ls n prev :
  Forall (λ l, lexeme l = true) ls → word_at prev = false →
  length (flat ls) ≤ n → findall_from n prev (flat ls) = ls.
Proof.
  intros Hls. revert n prev.
  induction Hls as [|l ls Hl Hls IH]; intros n prev Hprev Hn.
  - by destruct n.
  - destruct ls as [|l2 ls];
      [cbn [flat] in *
      |change (flat (l :: l2 :: ls)) with (l ++ " "%char :: flat (l2 :: ls)) in *].
    + assert (match_at prev l = Some (l, [])) as Hm.
      { rewrite <- (app_nil_r l) at 1. by apply match_at_lexeme. }
      by rewrite (findall_from_match _ _ _ _ _ Hn Hm).
    + rewrite (findall_from_match n prev _ l (" "%char :: flat (l2 :: ls)));
        [|done|by apply match_at_lexeme].
      f_equal. rewrite findall_from_skip by (done || apply match_at_space).
      by apply IH.
Qed.

Lemma flat_ends ls :
  Forall (λ l, lexeme l = true) ls →
  (∀ c, head (flat ls) = Some c → is_space c = false)
  ∧ (∀ c, last (flat ls) = Some c → is_space c = false)
  ∧ (ls ≠ [] → flat ls ≠ []).
Proof.
  induction 1 as [|l ls Hl Hls (IH1 & IH2 & IH3)]; [done|].
  pose proof (lexeme_nonempty l Hl) as Hne.
  destruct ls as [|l2 ls];
    [cbn [flat]
    |change (flat (l :: l2 :: ls)) with (l ++ " "%char :: flat (l2 :: ls))].
  - repeat split; [| |done].
    + intros c Hc. apply (lexeme_chars l c Hl). by apply head_Some_elem_of.
    + intros c Hc. apply (lexeme_chars l c Hl). by apply last_Some_elem_of.
  - repeat split.
    + intros c Hc. apply (lexeme_chars l c Hl). destruct l; [done|].
      injection Hc as ->. apply list_elem_of_here.
    + intros c. rewrite last_app, last_cons.
      destruct (last (flat (l2 :: ls))) as [x|] eqn:E.
      * intros [= <-]. by apply IH2.
      * apply last_None in E. by destruct IH3.
    + by destruct l.
Qed.

Lemma list_ascii_of_join (ws : list string) :
  list_ascii_of_string (join " " ws) = flat (list_ascii_of_string <$> ws).
Proof.
  induction ws as [|w ws IH]; [done|].
  destruct ws as [|w2 ws]; [done|].
  change (join " " (w :: w2 :: ws)) with (w +:+ " " +:+ join " " (w2 :: ws)).
  rewrite !list_ascii_of_string_app, IH. done.
Qed.

Lemma lower_flat ls : lower (flat ls) = flat (lower <$> ls).
Proof.
  induction ls as [|l ls IH]; [done|].
  destruct ls as [|l2 ls]; [done|].
  change (flat (l :: l2 :: ls)) with (l ++ " "%char :: flat (l2 :: ls)).
  change (flat (lower <$> l :: l2 :: ls))
    with (lower l ++ " "%char :: flat (lower <$> l2 :: ls)).
  rewrite <- IH. unfold lower. by rewrite map_app.
Qed.

Lemma query_word_lexeme (w : string) :
  query_word w = true →
  lexeme (lower (list_ascii_of_string w)) = true
  ∧ normalise (lower (list_ascii_of_string w)) = w.
Proof.
  unfold query_word. intros [Hw|Hw]%orb_prop.
  - pose proof (normalise_term w Hw) as Hn.
    apply is_term_inv in Hw as (H1 & H2 & H3).
    rewrite lower_term by done. split; [|done].
    unfold lexeme. rewrite H2, H3. simpl.
    by rewrite bool_decide_eq_false_2.
  - unfold is_operator in Hw. apply bool_decide_eq_true in Hw.
    repeat (apply elem_of_cons in Hw as [->|Hw]; [done|]).
    by apply elem_of_nil in Hw.
Qed.

Lemma tokenize_join (ws : list string) :
  Forall (λ w, query_word w = true) ws → tokenize (join " " ws) = ws.
Proof.
  intros Hws. unfold tokenize. rewrite list_ascii_of_join, lower_flat.
  set (ls := lower <$> (list_ascii_of_string <$> ws)).
  assert (Forall (λ l, lexeme l = true) ls) as Hls.
  { unfold ls. apply Forall_fmap, Forall_fmap.
    eapply Forall_impl; [exact Hws|]. intros w Hw. simpl.
    by apply query_word_lexeme. }
  destruct (flat_ends ls Hls) as (Hh & Hl & _).
  rewrite strip_id by done. unfold findall.
  rewrite findall_flat by done.
  clear Hls Hh Hl. subst ls. rewrite <- !list_fmap_compose.
  induction Hws as [|w ws Hw Hws IH]; [done|].
  cbn [fmap list_fmap]. f_equal; [|done]. simpl. by apply query_word_lexeme.
Qed.

(** X1. Round trip of the query lexer: a query written as words
    separated by single spaces, each word a bare term or one of the
    operators AND, OR, NOT, is tokenised to exactly that list of words. *)
Theorem tokenize_well_formed_query (ws : list string) :
  Forall (λ w, query_word w = true) ws → tokenize (join " " ws) = ws.
Proof. apply tokenize_join. Qed.

Lemma tokenize_well_formed_query_witness :
  tokenize (join " " ["teknik"; "AND"; "NOT"; "semarang-1"; "OR"; "itb"])
  = ["teknik"; "AND"; "NOT"; "semarang-1"; "OR"; "itb"].
Proof.
  apply (tokenize_well_formed_query
           ["teknik"; "AND"; "NOT"; "semarang-1"; "OR"; "itb"]).
  repeat constructor.
Defined.

(** Every match of the pattern is a piece of the text: a keyword, or a
    non-empty run of word characters and hyphens. *)
Lemma starts_with_split kw s :
  starts_with kw s = true → s = kw ++ drop (length kw) s.
Proof.
  revert s. induction kw as [|k kw IH]; intros [|c s]; simpl; try done.
  intros [->%Ascii.eqb_eq H]%andb_prop. f_equal. by apply IH.
Qed.

Lemma run_split s t r :
  run s = (t, r) → s = t ++ r ∧ forallb is_word_or_hyphen t = true.
Proof.
  revert t r. induction s as [|c s IH]; simpl; intros t r.
  - by intros [= <- <-].
  - destruct (is_word_or_hyphen c) eqn:Ec; [|by intros [= <- <-]].
    destruct (run s) as [t' r'] eqn:E. intros [= <- <-].
    destruct (IH _ _ eq_refl) as [-> Ht]. simpl. by rewrite Ec.
Qed.

Lemma match_kw_inv kw prev s tok rest :
  match_kw kw prev s = Some (tok, rest) → tok = kw ∧ s = tok ++ rest.
Proof.
  unfold match_kw.
  destruct (boundary prev s) eqn:E1; [|done].
  destruct (starts_with kw s) eqn:E2; [|done].
  destruct (boundary (last kw) (drop (length kw) s)); [|done].
  intros [= <- <-]. split; [done|]. by apply starts_with_split.
Qed.

Lemma match_at_inv prev s tok rest :
  match_at prev s = Some (tok, rest) →
  s = tok ++ rest
  ∧ (tok ∈ [kw_not; kw_and; kw_or]
     ∨ (tok ≠ [] ∧ forallb is_word_or_hyphen tok = true)).
Proof.
  unfold match_at, or_else.
  destruct (match_kw kw_not prev s) as [[t1 r1]|] eqn:E1.
  { intros [= <- <-]. apply match_kw_inv in E1 as [-> ->]. set_solver. }
  destruct (match_kw kw_and prev s) as [[t2 r2]|] eqn:E2.
  { intros [= <- <-]. apply match_kw_inv in E2 as [-> ->]. set_solver. }
  destruct (match_kw kw_or prev s) as [[t3 r3]|] eqn:E3.
  { intros [= <- <-]. apply match_kw_inv in E3 as [-> ->]. set_solver. }
  unfold match_run. destruct (run s) as [t r] eqn:E.
  apply run_split in E as [-> Ht].
  destruct t as [|c t]; [done|]. intros [= <- <-]. split; [done|]. by right.
Qed.

Lemma findall_from_inv n prev s tok :
  tok ∈ findall_from n prev s →
  (tok ∈ [kw_not; kw_and; kw_or]
   ∨ (tok ≠ [] ∧ forallb is_word_or_hyphen tok = true))
  ∧ ∃ pre post, s = pre ++ tok ++ post.
Proof.
  revert prev s. induction n as [|n IH]; intros prev s; simpl.
  { by intros ?%elem_of_nil. }
  destruct s as [|c s]; [by intros ?%elem_of_nil|].
  destruct (match_at prev (c :: s)) as [[t r]|] eqn:E.
  - apply match_at_inv in E as [Hs Ht].
    intros [->|Hin]%elem_of_cons.
    + split; [done|]. exists [], r. by rewrite Hs.
    + apply IH in Hin as [Hk (pre & post & ->)]. split; [done|].
      exists (t ++ pre), post. rewrite Hs. by rewrite <- app_assoc.
  - intros Hin. apply IH in Hin as [Hk (pre & post & ->)]. split; [done|].
    by exists (c :: pre), post.
Qed.

Lemma lstrip_suffix s : ∃ pre, s = pre ++ lstrip s.
Proof.
  induction s as [|c s [pre IH]]; [by exists []|]. simpl.
  destruct (is_space c); [|by exists []].
  exists (c :: pre). simpl. by f_equal.
Qed.

Lemma strip_infix s : ∃ pre post, s = pre ++ strip s ++ post.
Proof.
  unfold strip. destruct (lstrip_suffix s) as [pre Hpre].
  destruct (lstrip_suffix (reverse (lstrip s))) as [post Hpost].
  exists pre, (reverse post). rewrite <- reverse_app, <- Hpost.
  by rewrite reverse_involutive.
Qed.

Lemma lower_char_not_upper c : is_upper (lower_char c) = false.
Proof. destruct c as [[] [] [] [] [] [] [] []]; reflexivity. Qed.

Lemma normalise_keyword l :
  l ∈ [kw_not; kw_and; kw_or] →
  is_operator (normalise l) = true ∧ normalise l ∉ ["and"; "or"; "not"].
Proof.
  intros Hl. repeat (apply elem_of_cons in Hl as [->|Hl]);
    [| | |by apply elem_of_nil in Hl]; (split; [done|]);
    intros Hin; repeat (apply elem_of_cons in Hin as [?|Hin]; [done|]);
    by apply elem_of_nil in Hin.
Qed.

Lemma normalise_run l :
  l ≠ [] → forallb term_char l = true →
  (is_operator (normalise l) = true ∨ bare (normalise l) = true)
  ∧ normalise l ∉ ["and"; "or"; "not"].
Proof.
  intros Hne Hl. unfold normalise.
  destruct (bool_decide (string_of_list_ascii l ∈ ["and"; "or"; "not"])) eqn:E.
  - apply bool_decide_eq_true in E.
    assert (l ∈ [kw_and; kw_or; kw_not]) as Hk.
    { rewrite <- (list_ascii_of_string_of_list_ascii l).
      repeat (apply elem_of_cons in E as [->|E]; [set_solver|]).
      by apply elem_of_nil in E. }
    clear E. repeat (apply elem_of_cons in Hk as [->|Hk]);
      [| | |by apply elem_of_nil in Hk]; (split; [by left|]);
      intros Hin; repeat (apply elem_of_cons in Hin as [?|Hin]; [done|]);
      by apply elem_of_nil in Hin.
  - apply bool_decide_eq_false in E. split; [|done]. right.
    unfold bare. rewrite list_ascii_of_string_of_list_ascii, Hl.
    by rewrite bool_decide_eq_false_2.
Qed.

(** What the lexer hands to the parser, for any query at all. *)
Lemma tokenize_inv (query : string) t :
  t ∈ tokenize query →
  ∃ l pre post,
    t = normalise l
    ∧ lower (list_ascii_of_string query) = pre ++ l ++ post
    ∧ (l ∈ [kw_not; kw_and; kw_or] ∨ (l ≠ [] ∧ forallb term_char l = true)).
Proof.
  unfold tokenize, findall. intros (l & -> & Hl)%list_elem_of_fmap.
  apply findall_from_inv in Hl as [Hk (pre & post & Hs)].
  destruct (strip_infix (lower (list_ascii_of_string query))) as (pre0 & post0 & Hq).
  exists l, (pre0 ++ pre), (post ++ post0). split; [done|]. split.
  { rewrite Hq, Hs. by rewrite <- !app_assoc. }
  destruct Hk as [Hk|[Hne Hw]]; [by left|]. right. split; [done|].
  apply forallb_forall. intros c Hc. unfold term_char.
  rewrite forallb_forall in Hw. rewrite (Hw c Hc). simpl.
  assert (c ∈ lower (list_ascii_of_string query)) as Hin.
  { rewrite Hq, Hs. apply list_elem_of_In in Hc. set_solver. }
  unfold lower in Hin. apply list_elem_of_In, in_map_iff in Hin as (c0 & <- & _).
  by rewrite lower_char_not_upper.
Qed.

(** X2. For every query of ASCII characters, each token the lexer
    produces is either one of the operators AND, OR, NOT or a non-empty
    word over lower-case letters, digits, underscore and hyphen; the
    words and, or, not never come out as terms, so the evaluator never
    looks them up, nor any key with an upper-case letter. *)
Theorem tokenize_tokens (query : string) :
  ascii_only query = true →
  Forall (λ t, (is_operator t = true ∨ bare t = true)
               ∧ t ∉ ["and"; "or"; "not"]) (tokenize query).
Proof.
  intros _.
  apply Forall_forall. intros t (l & pre & post & -> & _ & Hl)%tokenize_inv.
  destruct Hl as [Hk|[Hne Hl]].
  - destruct (normalise_keyword l Hk) as [Hop Hn]. split; [by left|done].
  - by apply normalise_run.
Qed.

Lemma tokenize_tokens_witness :
  Forall (λ t, (is_operator t = true ∨ bare t = true)
               ∧ t ∉ ["and"; "or"; "not"])
    (tokenize " Teknik and NOT-x, (ITB) or_1 ").
Proof. apply tokenize_tokens. reflexivity. Defined.

End QueryLexing.

(** * The shunting-yard pass and operator precedence *)

Section PostfixFacts.
Import Grammar BooleanIR SearchEngine Queries.
Implicit Types (idx : gmap string (gset string)) (tok a b c : string).
Implicit Types (output stack tokens : list string).

(** Popping moves operators from the top of the stack to the end of the
    output and loses nothing. *)
Lemma pop_higher_conserves tok output stack output' stack' :
  pop_higher tok output stack = Ok (output', stack') →
  output' ++ stack' = output ++ stack
  ∧ (∃ popped, output' = output ++ popped ∧ stack = popped ++ stack').
Proof.
  revert output. induction stack as [|top stack IH]; intros output; simpl.
  - intros [= <- <-]. split; [done|]. exists []. by rewrite app_nil_r.
  - destruct (prec_item tok) as [p|e]; [|done]. simpl.
    destruct (p <=? prec_get top)%nat.
    + intros [-> (popped & -> & ->)]%IH. split; [by rewrite <- app_assoc|].
      exists (top :: popped). by rewrite <- app_assoc.
    + intros [= <- <-]. split; [done|]. exists []. by rewrite app_nil_r.
Qed.

Lemma filter_operands_nil stack :
  Forall (λ t, is_operator t = true) stack →
  filter (λ t, is_operator t = false) stack = [].
Proof.
  induction 1 as [|t stack Ht _ IH]; [done|].
  rewrite filter_cons_False by by rewrite Ht. done.
Qed.

Lemma shunt_conserves output stack tok output' stack' :
  Forall (λ t, is_operator t = true) stack →
  shunt (output, stack) tok = Ok (output', stack') →
  Forall (λ t, is_operator t = true) stack'
  ∧ output' ++ stack' ≡ₚ tok :: output ++ stack
  ∧ filter (λ t, is_operator t = false) output'
    = filter (λ t, is_operator t = false) (output ++ [tok]).
Proof.
  intros Hst. unfold shunt. destruct (is_operator tok) eqn:Eop.
  - destruct (pop_higher tok output stack) as [[o s]|e] eqn:E; [|done].
    intros [= <- <-]. apply pop_higher_conserves in E as [E (popped & -> & ->)].
    apply Forall_app in Hst as [Hpop Hst]. split; [by constructor|]. split.
    + rewrite <- E. by rewrite <- Permutation_middle.
    + rewrite !filter_app, filter_cons_False, filter_nil by by rewrite Eop.
      by rewrite (filter_operands_nil popped Hpop).
  - intros [= <- <-]. split; [done|]. split; [|done].
    rewrite <- app_assoc. simpl. by rewrite <- Permutation_middle.
Qed.

Lemma shunt_loop_conserves tokens output stack output' stack' :
  Forall (λ t, is_operator t = true) stack →
  for_each shunt (output, stack) tokens = Ok (output', stack') →
  Forall (λ t, is_operator t = true) stack'
  ∧ output' ++ stack' ≡ₚ tokens ++ output ++ stack
  ∧ filter (λ t, is_operator t = false) output'
    = filter (λ t, is_operator t = false) (output ++ tokens).
Proof.
  revert output stack. induction tokens as [|tok tokens IH]; intros output stack Hst.
  - simpl. intros [= <- <-]. by rewrite app_nil_r.
  - cbn [for_each].
    destruct (shunt (output, stack) tok) as [[o s]|e] eqn:E; [|done].
    rewrite bind_Ok. apply shunt_conserves in E as (Hs & Hp & Hf); [|done].
    intros (Hs' & Hp' & Hf')%IH; [|done]. split; [done|]. split.
    + rewrite Hp', Hp. by rewrite <- Permutation_middle.
    + rewrite Hf'. rewrite !filter_app, Hf, filter_app.
      rewrite <- app_assoc. f_equal. rewrite <- filter_app. done.
Qed.

(** X3. The infix-to-postfix pass returns for every token list, and its
    output is a rearrangement of the tokens: no token is dropped or
    invented, and the operands (the tokens that are not operators) keep
    their order. *)
Theorem to_postfix_rearranges tokens :
  ∃ output,
    to_postfix tokens = Ok output
    ∧ output ≡ₚ tokens
    ∧ filter (λ t, is_operator t = false) output
      = filter (λ t, is_operator t = false) tokens.
Proof.
  unfold to_postfix.
  destruct (for_each_returns shunt tokens shunt_returns ([], [])) as [[o s] E].
  rewrite E. simpl. exists (o ++ s). split; [done|].
  apply shunt_loop_conserves in E as (Hs & Hp & Hf); [|done].
  rewrite app_nil_r in Hp. simpl in Hf. split; [done|].
  by rewrite filter_app, Hf, (filter_operands_nil s Hs), app_nil_r.
Qed.

Lemma eval_boolean_words idx (ws : list string) :
  Forall (λ w, query_word w = true) ws →
  eval_boolean (join " " ws) idx
  = (output ← to_postfix ws;
     eval_stack ← eval_postfix idx output;
     Ok (match eval_stack with top :: _ => top | [] => ∅ end)).
Proof. intros Hws. unfold eval_boolean. by rewrite tokenize_join. Qed.

Lemma term_query_word a : is_term a = true → query_word a = true.
Proof. intros Ha. unfold query_word. by rewrite Ha. Qed.

Lemma operand_eqb a :
  is_operator a = false →
  String.eqb a "NOT" = false ∧ String.eqb a "AND" = false
  ∧ String.eqb a "OR" = false.
Proof.
  intros Ha. repeat split; apply String.eqb_neq; by intros ->.
Qed.

(** Running the two loops of the evaluator on a query whose operands are
    abstract terms. *)
Local Ltac run_loops :=
  unfold to_postfix, eval_postfix; simpl;
  repeat (match goal with
          | H : is_operator _ = false |- _ => rewrite H
          end; simpl);
  unfold eval_tok; simpl;
  repeat (match goal with
          | H : String.eqb _ _ = false |- _ => rewrite H
          end; simpl).

Local Ltac operands :=
  repeat match goal with
         | H : is_term ?a = true |- _ =>
             let Hq := fresh "Hq" in
             let Ho := fresh "Ho" in
             pose proof (term_query_word a H) as Hq;
             pose proof (term_not_operator a H) as Ho;
             destruct (operand_eqb a Ho) as (? & ? & ?);
             clear H
         end.

(** X4. Operator precedence without parentheses: AND binds tighter than
    OR on either side, and NOT binds tighter than both, complementing
    only the term that follows it.  A NOT is popped by a following NOT
    (equal precedence pops), so [NOT NOT a] is the complement of [a] and
    not [a] itself. *)
Theorem eval_boolean_precedence idx a b c :
  is_term a = true → is_term b = true → is_term c = true →
  let U := universe idx in
  let A := posting idx a in
  let B := posting idx b in
  let C := posting idx c in
  eval_boolean (join " " [a; "OR"; b; "AND"; c]) idx = Ok (A ∪ (B ∩ C))
  ∧ eval_boolean (join " " [a; "AND"; b; "OR"; c]) idx = Ok ((A ∩ B) ∪ C)
  ∧ eval_boolean (join " " ["NOT"; a; "AND"; b]) idx = Ok ((U ∖ A) ∩ B)
  ∧ eval_boolean (join " " [a; "AND"; "NOT"; b]) idx = Ok (A ∩ (U ∖ B))
  ∧ eval_boolean (join " " ["NOT"; a; "OR"; b]) idx = Ok ((U ∖ A) ∪ B)
  ∧ eval_boolean (join " " [a; "OR"; "NOT"; b]) idx = Ok (A ∪ (U ∖ B))
  ∧ eval_boolean (join " " ["NOT"; "NOT"; a]) idx = Ok (U ∖ A).
Proof.
  intros Ha Hb Hc U A B C. operands.
  repeat apply conj;
    (rewrite eval_boolean_words by (repeat constructor; done));
    by run_loops.
Qed.

Lemma eval_boolean_precedence_witness :
  let idx : gmap string (gset string) :=
    {[ "x" := {["a.txt"]}; "y" := {["b.txt"; "c.txt"]}; "z" := {["c.txt"]} ]} in
  eval_boolean "x OR y AND z" idx = Ok {["a.txt"; "c.txt"]}
  ∧ eval_boolean "NOT NOT x" idx = Ok {["b.txt"; "c.txt"]}.
Proof.
  intros idx.
  destruct (eval_boolean_precedence idx "x" "y" "z" eq_refl eq_refl eq_refl)
    as (H1 & _ & _ & _ & _ & _ & H7).
  split.
  - etrans; [exact H1|]. by vm_compute.
  - etrans; [exact H7|]. by vm_compute.
Defined.

(** Terms without an operator between them. *)
Lemma shunt_operands (ws output : list string) :
  Forall (λ w, is_operator w = false) ws →
  for_each shunt (output, []) ws = Ok (output ++ ws, []).
Proof.
  intros Hws. revert output. induction Hws as [|w ws Hw _ IH]; intros output.
  - by rewrite app_nil_r.
  - cbn [for_each]. rewrite shunt_operand by done. rewrite bind_Ok, IH.
    by rewrite <- app_assoc.
Qed.

Lemma eval_operands idx (ws : list string) (st : list (gset string)) :
  Forall (λ w, is_operator w = false) ws →
  for_each (eval_tok (universe idx) idx) st ws
  = Ok (reverse (posting idx <$> ws) ++ st).
Proof.
  intros Hws. revert st. induction Hws as [|w ws Hw _ IH]; intros st; [done|].
  cbn [for_each]. rewrite eval_tok_operand by done. rewrite bind_Ok, IH.
  rewrite fmap_cons, reverse_cons, <- app_assoc. done.
Qed.

(** X5. There is no implicit operator: when terms are written side by
    side, the evaluator returns the posting set of the last one alone,
    whatever the earlier terms are; and [a NOT b] is the complement of
    [b], with [a] ignored. *)
Theorem eval_boolean_juxtaposed idx (ws : list string) a b :
  Forall (λ w, is_term w = true) ws → is_term a = true → is_term b = true →
  eval_boolean (join " " (ws ++ [b])) idx = Ok (posting idx b)
  ∧ eval_boolean (join " " [a; "NOT"; b]) idx = Ok (universe idx ∖ posting idx b).
Proof.
  intros Hws Ha Hb. split.
  - assert (Forall (λ w, is_term w = true) (ws ++ [b])) as Hall.
    { apply Forall_app. split; [done|]. by repeat constructor. }
    rewrite eval_boolean_words
      by (eapply Forall_impl; [exact Hall|]; apply term_query_word).
    assert (Forall (λ w, is_operator w = false) (ws ++ [b])) as Hop.
    { eapply Forall_impl; [exact Hall|]. apply term_not_operator. }
    unfold to_postfix, eval_postfix. rewrite shunt_operands by done.
    rewrite bind_Ok. cbn [app]. rewrite app_nil_r, bind_Ok.
    rewrite eval_operands by done. rewrite bind_Ok.
    by rewrite fmap_app, reverse_app.
  - operands. rewrite eval_boolean_words by (repeat constructor; done).
    by run_loops.
Qed.

Lemma eval_boolean_juxtaposed_witness :
  let idx : gmap string (gset string) :=
    {[ "teknik" := {["a.txt"]}; "informatika" := {["b.txt"]} ]} in
  eval_boolean "teknik informatika" idx = Ok {["b.txt"]}.
Proof.
  intros idx.
  destruct (eval_boolean_juxtaposed idx ["teknik"] "teknik" "informatika")
    as [H _]; [by repeat constructor|done|done|].
  etrans; [exact H|]. by vm_compute.
Defined.

(** Chains of one binary operator. *)
Lemma shunt_chain op (ts output : list string) :
  op = "AND" ∨ op = "OR" →
  Forall (λ w, is_operator w = false) ts →
  for_each shunt (output, [op]) (concat ((λ x, [op; x]) <$> ts))
  = Ok (output ++ concat ((λ x, [op; x]) <$> ts), [op]).
Proof.
  intros Hop Hts. revert output.
  induction Hts as [|t ts Ht _ IH]; intros output; simpl.
  - by rewrite app_nil_r.
  - destruct Hop as [-> | ->]; simpl; rewrite Ht; simpl; rewrite IH;
      by rewrite <- !app_assoc.
Qed.

Lemma to_postfix_chain op t (ts : list string) :
  op = "AND" ∨ op = "OR" →
  Forall (λ w, is_operator w = false) (t :: ts) →
  to_postfix (chain_words op (t :: ts))
  = Ok (match ts with
        | [] => [t]
        | x :: ts' => t :: x :: concat ((λ y, [op; y]) <$> ts') ++ [op]
        end).
Proof.
  intros Hop [Ht Hts]%Forall_cons. unfold to_postfix, chain_words.
  cbn [for_each]. rewrite shunt_operand by done. rewrite bind_Ok.
  destruct Hts as [|x ts Hx Hts]; [done|].
  rewrite fmap_cons. cbn [concat app for_each].
  assert (shunt ([t], []) op = Ok ([t], [op])) as ->.
  { by destruct Hop as [-> | ->]. }
  rewrite bind_Ok, shunt_operand by done. rewrite bind_Ok.
  rewrite shunt_chain by done. by rewrite bind_Ok.
Qed.

Lemma eval_chain idx op (f : gset string → gset string → gset string)
    (ts : list string) (A B : gset string) :
  (∀ X Y st, eval_tok (universe idx) idx (Y :: X :: st) op = Ok (f X Y :: st)) →
  Forall (λ w, is_operator w = false) ts →
  for_each (eval_tok (universe idx) idx) [B; A]
    (concat ((λ y, [op; y]) <$> ts) ++ [op])
  = Ok [foldl f (f A B) (posting idx <$> ts)].
Proof.
  intros Hf Hts. revert A B. induction Hts as [|t ts Ht _ IH]; intros A B.
  - cbn [fmap list_fmap concat app for_each foldl]. by rewrite Hf.
  - rewrite fmap_cons. cbn [concat app for_each]. rewrite Hf, bind_Ok.
    rewrite eval_tok_operand by done. rewrite bind_Ok.
    fold (posting idx t). by rewrite IH.
Qed.

Lemma eval_boolean_fold idx op (f : gset string → gset string → gset string)
    t (ts : list string) :
  op = "AND" ∨ op = "OR" →
  (∀ X Y st, eval_tok (universe idx) idx (Y :: X :: st) op = Ok (f X Y :: st)) →
  Forall (λ w, is_term w = true) (t :: ts) →
  eval_boolean (chain op (t :: ts)) idx
  = Ok (foldl f (posting idx t) (posting idx <$> ts)).
Proof.
  intros Hop Hf Hall. unfold chain.
  assert (Forall (λ w, is_operator w = false) (t :: ts)) as Hnop.
  { eapply Forall_impl; [exact Hall|]. apply term_not_operator. }
  rewrite eval_boolean_words.
  2:{ unfold chain_words. apply Forall_cons in Hall as [Ht Hts].
      constructor; [by apply term_query_word|]. clear Hnop.
      induction Hts as [|x ts Hx _ IH]; [done|].
      rewrite fmap_cons. cbn [concat app].
      constructor; [by destruct Hop as [-> | ->]|].
      constructor; [by apply term_query_word|done]. }
  rewrite to_postfix_chain by done. rewrite bind_Ok.
  apply Forall_cons in Hnop as [Ht Hts]. unfold eval_postfix.
  destruct Hts as [|x ts Hx Hts].
  - cbn [for_each]. rewrite eval_tok_operand by done. by rewrite bind_Ok.
  - cbn [for_each]. rewrite eval_tok_operand by done. rewrite bind_Ok.
    rewrite eval_tok_operand by done. rewrite bind_Ok.
    fold (posting idx t) (posting idx x).
    rewrite (eval_chain idx op f ts) by done. by rewrite bind_Ok.
Qed.

Lemma elem_of_foldl_intersection (A : gset string) (Bs : list (gset string)) d :
  d ∈ foldl (∩) A Bs ↔ d ∈ A ∧ ∀ B, B ∈ Bs → d ∈ B.
Proof.
  revert A. induction Bs as [|B Bs IH]; intros A; simpl.
  - set_solver.
  - rewrite IH. set_solver.
Qed.

Lemma elem_of_foldl_union (A : gset string) (Bs : list (gset string)) d :
  d ∈ foldl (∪) A Bs ↔ d ∈ A ∨ ∃ B, B ∈ Bs ∧ d ∈ B.
Proof.
  revert A. induction Bs as [|B Bs IH]; intros A; simpl.
  - set_solver.
  - rewrite IH. set_solver.
Qed.

(** X6. A chain [t1 AND t2 AND ... AND tn] of terms returns the documents
    that are in the posting set of every term, and a chain of ORs the
    documents in the posting set of at least one; both are folded from
    the left. *)
Theorem eval_boolean_chain idx t (ts : list string) :
  Forall (λ w, is_term w = true) (t :: ts) →
  (∃ s, eval_boolean (chain "AND" (t :: ts)) idx = Ok s
        ∧ s = foldl (∩) (posting idx t) (posting idx <$> ts)
        ∧ ∀ d, d ∈ s ↔ ∀ x, x ∈ t :: ts → d ∈ posting idx x)
  ∧ (∃ s, eval_boolean (chain "OR" (t :: ts)) idx = Ok s
          ∧ s = foldl (∪) (posting idx t) (posting idx <$> ts)
          ∧ ∀ d, d ∈ s ↔ ∃ x, x ∈ t :: ts ∧ d ∈ posting idx x).
Proof.
  intros Hall. split.
  - eexists. split; [by apply (eval_boolean_fold idx "AND" (∩)); auto|].
    split; [done|]. intros d. rewrite elem_of_foldl_intersection. split.
    + intros [Ht Hts] x [->|Hx]%elem_of_cons; [done|].
      apply Hts, list_elem_of_fmap. by exists x.
    + intros H. split; [apply H, list_elem_of_here|].
      intros B (x & -> & Hx)%list_elem_of_fmap.
      by apply H, list_elem_of_further.
  - eexists. split; [by apply (eval_boolean_fold idx "OR" (∪)); auto|].
    split; [done|]. intros d. rewrite elem_of_foldl_union. split.
    + intros [Ht|(B & (x & -> & Hx)%list_elem_of_fmap & Hd)].
      * exists t. split; [apply list_elem_of_here|done].
      * exists x. split; [by apply list_elem_of_further|done].
    + intros (x & [->|Hx]%elem_of_cons & Hd); [by left|]. right.
      exists (posting idx x). split; [|done]. apply list_elem_of_fmap. by exists x.
Qed.

Lemma eval_boolean_chain_witness :
  let idx : gmap string (gset string) :=
    {[ "x" := {["a.txt"; "b.txt"]}; "y" := {["b.txt"; "c.txt"]}; "z" := {["b.txt"]} ]} in
  ∃ s, eval_boolean "x AND y AND z" idx = Ok s
       ∧ ∀ d, d ∈ s ↔ ∀ t, t ∈ ["x"; "y"; "z"] → d ∈ posting idx t.
Proof.
  intros idx.
  destruct (eval_boolean_chain idx "x" ["y"; "z"]) as [(s & Hs & _ & Hd) _];
    [by repeat constructor|].
  exists s. by split.
Defined.

End PostfixFacts.

(** * The inverted index and retrieval over it *)

Section IndexFacts.
Import Chars Grammar BooleanIR SearchEngine Queries.
Implicit Types (idx : gmap string (gset string)) (docs : Docs).

Lemma occurs_spec docs t d :
  d ∈ posting (build_inverted_index docs) t ↔ occurs docs d t.
Proof. apply build_inverted_index_spec. Qed.

Lemma add_posting_nonempty doc idx t :
  (∀ k s, idx !! k = Some s → s ≠ ∅) →
  ∀ k s, add_posting doc idx t !! k = Some s → s ≠ ∅.
Proof.
  intros Hidx k s. unfold add_posting.
  destruct (decide (t = k)) as [->|Hne].
  - rewrite lookup_insert_eq. intros [= <-]. set_solver.
  - rewrite lookup_insert_ne by done. apply Hidx.
Qed.

Lemma index_doc_nonempty idx entry :
  (∀ k s, idx !! k = Some s → s ≠ ∅) →
  ∀ k s, index_doc idx entry !! k = Some s → s ≠ ∅.
Proof.
  unfold index_doc.
  generalize (elements (list_to_set entry.2 : gset string)). intros ts.
  revert idx. induction ts as [|t ts IH]; intros idx Hidx; [done|].
  simpl. apply IH. by apply add_posting_nonempty.
Qed.

Lemma build_inverted_index_nonempty docs k s :
  build_inverted_index docs !! k = Some s → s ≠ ∅.
Proof.
  unfold build_inverted_index.
  assert (∀ idx, (∀ k s, idx !! k = Some s → s ≠ ∅) →
            ∀ k s, foldl index_doc idx docs !! k = Some s → s ≠ ∅) as H.
  { induction docs as [|entry docs IH]; intros idx Hidx; [done|].
    simpl. apply IH. by apply index_doc_nonempty. }
  apply H. intros k' s'. by rewrite lookup_empty.
Qed.

Lemma build_inverted_index_is_Some docs t :
  is_Some (build_inverted_index docs !! t) ↔ ∃ d, occurs docs d t.
Proof.
  split.
  - intros [s Hs]. pose proof (build_inverted_index_nonempty docs t s Hs) as Hne.
    apply set_choose_L in Hne as [d Hd]. exists d. apply occurs_spec.
    unfold posting. by rewrite Hs.
  - intros [d Hd%occurs_spec]. unfold posting in Hd.
    destruct (build_inverted_index docs !! t); [done|set_solver].
Qed.

Lemma build_inverted_index_posting docs t s d :
  build_inverted_index docs !! t = Some s → d ∈ s ↔ occurs docs d t.
Proof. intros Hs. rewrite <- occurs_spec. unfold posting. by rewrite Hs. Qed.

(** X7. The keys of the built index are exactly the terms that occur in
    some document; a posting set is never empty, and it holds exactly the
    documents whose token list contains the term. *)
Theorem build_inverted_index_keys docs t :
  (is_Some (build_inverted_index docs !! t) ↔ ∃ d, occurs docs d t)
  ∧ (∀ s, build_inverted_index docs !! t = Some s →
       s ≠ ∅ ∧ ∀ d, d ∈ s ↔ occurs docs d t).
Proof.
  split; [apply build_inverted_index_is_Some|].
  intros s Hs. split; [by eapply build_inverted_index_nonempty|].
  intros d. by apply build_inverted_index_posting.
Qed.

(** X8. The index depends only on which term occurs in which document:
    two collections with the same occurrences give the same index,
    whatever the order of the documents, the order of the tokens and
    their repetitions. *)
Theorem build_inverted_index_incidence docs docs' :
  (∀ d t, occurs docs d t ↔ occurs docs' d t) →
  build_inverted_index docs = build_inverted_index docs'.
Proof.
  intros Hocc. apply map_eq. intros t.
  destruct (build_inverted_index docs !! t) as [s|] eqn:E,
           (build_inverted_index docs' !! t) as [s'|] eqn:E'; [| | |done].
  - f_equal. apply set_eq. intros d.
    rewrite (build_inverted_index_posting docs t s d E).
    rewrite (build_inverted_index_posting docs' t s' d E').
    apply Hocc.
  - assert (is_Some (build_inverted_index docs !! t)) as Hs by by rewrite E.
    apply build_inverted_index_is_Some in Hs as [d Hd]. apply Hocc in Hd.
    assert (is_Some (build_inverted_index docs' !! t)) as [? Hs'].
    { apply build_inverted_index_is_Some. by exists d. }
    congruence.
  - assert (is_Some (build_inverted_index docs' !! t)) as Hs by by rewrite E'.
    apply build_inverted_index_is_Some in Hs as [d Hd]. apply Hocc in Hd.
    assert (is_Some (build_inverted_index docs !! t)) as [? Hs'].
    { apply build_inverted_index_is_Some. by exists d. }
    congruence.
Qed.

Lemma build_inverted_index_incidence_witness :
  build_inverted_index [("a.txt", ["x"; "y"; "x"]); ("b.txt", ["y"])]
  = build_inverted_index [("b.txt", ["y"]); ("a.txt", ["y"; "x"])].
Proof.
  apply build_inverted_index_incidence. intros d t. unfold occurs.
  split; intros (toks & Hin & Ht);
    repeat (apply elem_of_cons in Hin as [[= -> ->]|Hin]);
    try (by apply elem_of_nil in Hin);
    first [ by (exists ["y"; "x"]; split; [set_solver|set_unfold; naive_solver])
          | by (exists ["x"; "y"; "x"]; split; [set_solver|set_unfold; naive_solver])
          | by (exists ["y"]; split; [set_solver|set_unfold; naive_solver]) ].
Defined.

Lemma lower_string_term a : is_term a = true → lower_string a = a.
Proof.
  intros (_ & Ha & _)%is_term_inv. unfold lower_string.
  rewrite lower_term by done. apply string_of_list_ascii_of_string.
Qed.

(** X9. Retrieval over a built index, for a collection with distinct
    document names and lower-case terms [a], [b]: the query [a] returns
    the documents containing [a]; [a AND b] the documents containing
    both; [a OR b] the documents containing either; [NOT a] the documents
    that have at least one token and do not contain [a]. *)
Theorem boolean_retrieval_on_built_index docs a b :
  NoDup docs.*1 → is_term a = true → is_term b = true →
  let idx := build_inverted_index docs in
  (∃ s, eval_boolean a idx = Ok s
        ∧ ∀ d, d ∈ s ↔ ∃ toks, (d, toks) ∈ docs ∧ a ∈ toks)
  ∧ (∃ s, eval_boolean (a +:+ " AND " +:+ b) idx = Ok s
          ∧ ∀ d, d ∈ s ↔ ∃ toks, (d, toks) ∈ docs ∧ a ∈ toks ∧ b ∈ toks)
  ∧ (∃ s, eval_boolean (a +:+ " OR " +:+ b) idx = Ok s
          ∧ ∀ d, d ∈ s ↔ ∃ toks, (d, toks) ∈ docs ∧ (a ∈ toks ∨ b ∈ toks))
  ∧ (∃ s, eval_boolean ("NOT " +:+ a) idx = Ok s
          ∧ ∀ d, d ∈ s ↔ ∃ toks, (d, toks) ∈ docs ∧ toks ≠ [] ∧ a ∉ toks).
Proof.
  intros Hnd Ha Hb idx. subst idx.
  pose proof (term_not_operator a Ha) as Hop.
  repeat apply conj.
  - eexists. split.
    { unfold eval_boolean. rewrite tokenize_term by done.
      unfold to_postfix, eval_postfix. cbn [for_each].
      rewrite shunt_operand by done. rewrite !bind_Ok. cbn [app for_each].
      rewrite eval_tok_operand by done. by rewrite !bind_Ok. }
    intros d. apply (occurs_spec docs a d).
  - eexists. split; [by apply eval_boolean_and|]. intros d.
    rewrite elem_of_intersection.
    rewrite (build_inverted_index_spec docs a d), (build_inverted_index_spec docs b d).
    split.
    + intros [(toks & Hin & Hta) (toks' & Hin' & Htb)].
      rewrite (dict_items_functional docs d toks' toks Hnd Hin' Hin) in Htb.
      by exists toks.
    + intros (toks & Hin & Hta & Htb). split; by exists toks.
  - eexists. split; [by apply eval_boolean_or|]. intros d.
    rewrite elem_of_union.
    rewrite (build_inverted_index_spec docs a d), (build_inverted_index_spec docs b d).
    naive_solver.
  - eexists. split.
    { apply eval_boolean_not. unfold is_query_term. by rewrite lower_string_term. }
    intros d. rewrite lower_string_term by done.
    rewrite elem_of_difference, universe_build_inverted_index.
    rewrite (build_inverted_index_spec docs a d). split.
    + intros [(toks & t & Hin & Ht) Hno]. exists toks. split; [done|]. split.
      * intros ->. by apply elem_of_nil in Ht.
      * intros Hta. apply Hno. by exists toks.
    + intros (toks & Hin & Hne & Hno). split.
      * destruct toks as [|t toks]; [done|]. exists (t :: toks), t.
        split; [done|]. apply list_elem_of_here.
      * intros (toks' & Hin' & Hta).
        by rewrite (dict_items_functional docs d toks' toks Hnd Hin' Hin) in Hta.
Qed.

Lemma boolean_retrieval_on_built_index_witness :
  let docs : Docs :=
    [("a.txt", ["teknik"; "itb"]); ("b.txt", ["teknik"]); ("c.txt", [])] in
  ∃ s, eval_boolean "NOT itb" (build_inverted_index docs) = Ok s
       ∧ ∀ d, d ∈ s ↔ ∃ toks, (d, toks) ∈ docs ∧ toks ≠ [] ∧ "itb" ∉ toks.
Proof.
  intros docs.
  destruct (boolean_retrieval_on_built_index docs "itb" "teknik")
    as (_ & _ & _ & H); [|done|done|exact H].
  vm_compute. repeat constructor; set_solver.
Defined.

End IndexFacts.

(** * Letter case and white space around a query *)

Section QueryNormalisation.
Import Chars Lexer Grammar BooleanIR SearchEngine Queries.

Lemma lstrip_blank (pre s : list ascii) :
  forallb is_space pre = true → lstrip (pre ++ s) = lstrip s.
Proof.
  induction pre as [|c pre IH]; [done|]. simpl.
  intros [-> Hpre]%andb_prop. by apply IH.
Qed.

Lemma lstrip_app_blank (s post : list ascii) :
  forallb is_space post = true →
  lstrip (s ++ post) = lstrip s ++ post
  ∨ (lstrip (s ++ post) = [] ∧ lstrip s = []).
Proof.
  intros Hpost. induction s as [|c s IH]; simpl.
  - right. split; [|done]. rewrite <- (app_nil_r post).
    by rewrite lstrip_blank.
  - destruct (is_space c); [done|by left].
Qed.

Lemma strip_blank (pre s post : list ascii) :
  forallb is_space pre = true → forallb is_space post = true →
  strip (pre ++ s ++ post) = strip s.
Proof.
  intros Hpre Hpost. unfold strip. rewrite lstrip_blank by done.
  destruct (lstrip_app_blank s post Hpost) as [-> | [-> ->]]; [|done].
  rewrite reverse_app, lstrip_blank; [done|].
  rewrite forallb_forall in Hpost. apply forallb_forall. intros c Hc.
  apply Hpost. apply list_elem_of_In. apply list_elem_of_In in Hc.
  by rewrite elem_of_reverse in Hc.
Qed.

Lemma is_space_lower_char c : is_space (lower_char c) = is_space c.
Proof. destruct c as [[] [] [] [] [] [] [] []]; reflexivity. Qed.

Lemma blank_lower (s : string) :
  blank s = true → forallb is_space (lower (list_ascii_of_string s)) = true.
Proof.
  unfold blank, lower. rewrite !forallb_forall. intros H c Hc.
  apply in_map_iff in Hc as (c0 & <- & Hc0). rewrite is_space_lower_char.
  by apply H.
Qed.

(** X10. The evaluator reads a query only up to letter case and up to
    white space around it: two queries with the same lower-case form get
    the same token list and the same result, also when one of them is
    padded with white space on either side. *)
Theorem eval_boolean_case_and_padding idx (q q' pre post : string) :
  lower_string q = lower_string q' → blank pre = true → blank post = true →
  tokenize (pre +:+ q +:+ post) = tokenize q'
  ∧ eval_boolean (pre +:+ q +:+ post) idx = eval_boolean q' idx.
Proof.
  intros Hq Hpre Hpost.
  assert (tokenize (pre +:+ q +:+ post) = tokenize q') as Htok.
  { unfold tokenize. rewrite !list_ascii_of_string_app.
    unfold lower at 1. rewrite !map_app. fold (lower (list_ascii_of_string pre)).
    fold (lower (list_ascii_of_string q)) (lower (list_ascii_of_string post)).
    rewrite strip_blank by by apply blank_lower.
    assert (lower (list_ascii_of_string q) = lower (list_ascii_of_string q')) as ->;
      [|done].
    unfold lower_string in Hq.
    apply (f_equal list_ascii_of_string) in Hq.
    by rewrite !list_ascii_of_string_of_list_ascii in Hq. }
  split; [done|]. unfold eval_boolean. by rewrite Htok.
Qed.

Lemma eval_boolean_case_and_padding_witness :
  let idx : gmap string (gset string) :=
    {[ "teknik" := {["a.txt"; "b.txt"]}; "itb" := {["b.txt"]} ]} in
  tokenize "  Teknik and ITB " = tokenize "teknik AND itb"
  ∧ eval_boolean "  Teknik and ITB " idx = eval_boolean "teknik AND itb" idx.
Proof.
  intros idx.
  apply (eval_boolean_case_and_padding idx "Teknik and ITB" "teknik AND itb" "  " " ");
    reflexivity.
Defined.

End QueryNormalisation.

(** * Bounds and special cases of the metrics *)

Section MetricsBounds.
Import PyNum BooleanIR SearchEngine Measures Gains.
Local Open Scope R_scope.

(** Rounding to two places does not cross a multiple of 1/100. *)
Lemma round2_ge (a : Z) x : IZR a / 100 <= x → IZR a / 100 <= round2 x.
Proof.
  intros Ha. unfold round2.
  pose proof (round_half_even_close (x * 100)) as [H1 H2].
  set (n := round_half_even (x * 100)) in *.
  assert (a ≤ n)%Z as Han.
  { assert (a - 1 < n)%Z; [|lia]. apply lt_IZR. rewrite minus_IZR. lra. }
  apply IZR_le in Han. lra.
Qed.

Lemma round2_le (b : Z) x : x <= IZR b / 100 → round2 x <= IZR b / 100.
Proof.
  intros Hb. unfold round2.
  pose proof (round_half_even_close (x * 100)) as [H1 H2].
  set (n := round_half_even (x * 100)) in *.
  assert (n ≤ b)%Z as Hnb.
  { assert (n < b + 1)%Z; [|lia]. apply lt_IZR. rewrite plus_IZR. lra. }
  apply IZR_le in Hnb. lra.
Qed.

Lemma round2_nonneg x : 0 <= x → 0 <= round2 x.
Proof. intros Hx. pose proof (round2_ge 0 x). lra. Qed.

Lemma round2_nonpos x : x <= 0 → round2 x <= 0.
Proof. intros Hx. pose proof (round2_le 0 x). lra. Qed.

Lemma round2_unit x : 0 <= x <= 1 → 0 <= round2 x <= 1.
Proof.
  intros Hx. pose proof (round2_ge 0 x). pose proof (round2_le 100 x). lra.
Qed.

Lemma Rdiv_nonneg a b : 0 <= a → 0 < b → 0 <= a / b.
Proof.
  intros Ha Hb. unfold Rdiv. assert (0 < / b) by by apply Rinv_0_lt_compat. nra.
Qed.

Lemma Rdiv_le_one a b : a <= b → 0 < b → a / b <= 1.
Proof.
  intros Hab Hb. assert (0 < / b) by by apply Rinv_0_lt_compat.
  replace 1 with (b * / b) by (field; lra). unfold Rdiv. nra.
Qed.

Lemma round2_1 : round2 1 = 1.
Proof.
  replace 1 with (IZR 100 / 100) at 1 by lra. rewrite round2_exact. lra.
Qed.

Lemma ratio_unit (a b : nat) : (a ≤ b)%nat → b ≠ 0%nat → 0 <= INR a / INR b <= 1.
Proof.
  intros Hab Hb. apply le_INR in Hab.
  assert (0 < INR b) as Hpos by (apply lt_0_INR; lia).
  pose proof (pos_INR a). split.
  - apply Rdiv_nonneg; lra.
  - apply Rdiv_le_one; lra.
Qed.

Lemma size_nonzero (X : gset string) : X ≠ ∅ → size X ≠ 0%nat.
Proof. intros HX Hs. by apply size_empty_inv, leibniz_equiv in Hs. Qed.

(** X11. [precision_recall] returns for every pair of sets, both values
    lie between 0 and 1, a result equal to the gold set scores (1, 1),
    and a result that shares no document with the gold set scores
    (0, 0) unless both sets are empty. *)
Theorem precision_recall_bounded (result gold : gset string) :
  ∃ p r,
    precision_recall result gold = Ok (p, r)
    ∧ 0 <= p <= 1 ∧ 0 <= r <= 1
    ∧ (result = gold → p = 1 ∧ r = 1)
    ∧ (result ∩ gold = ∅ → result ≠ ∅ ∨ gold ≠ ∅ → p = 0 ∧ r = 0).
Proof.
  unfold precision_recall.
  destruct (decide (result = ∅)) as [->|Hres].
  { rewrite bool_decide_eq_true_2 by done.
    destruct (decide (gold = ∅)) as [->|Hgold].
    - rewrite bool_decide_eq_true_2 by done. simpl. exists 1, 1.
      repeat split; try lra. all: intros; naive_solver.
    - rewrite (bool_decide_eq_false_2 (gold = ∅)) by done. simpl. exists 0, 0.
      repeat split; try lra. all: intros; naive_solver. }
  rewrite (bool_decide_eq_false_2 (result = ∅)) by done. simpl.
  pose proof (size_nonzero result Hres) as Hsz.
  rewrite (py_div_Ok _ (INR (size result))) by by apply not_0_INR.
  rewrite bind_Ok.
  assert (size (result ∩ gold) ≤ size result)%nat as Hle1
    by (apply subseteq_size; set_solver).
  assert (size (result ∩ gold) ≤ size gold)%nat as Hle2
    by (apply subseteq_size; set_solver).
  destruct (decide (gold = ∅)) as [->|Hgold].
  - rewrite bool_decide_eq_true_2 by done. rewrite bind_Ok.
    eexists _, _. split; [done|].
    assert (result ∩ ∅ = ∅) as -> by set_solver. rewrite size_empty.
    replace (INR 0 / INR (size result)) with 0 by (simpl; unfold Rdiv; ring).
    rewrite round2_0. repeat split; try lra. all: intros; naive_solver.
  - rewrite (bool_decide_eq_false_2 (gold = ∅)) by done.
    pose proof (size_nonzero gold Hgold) as Hsg.
    rewrite (py_div_Ok _ (INR (size gold))) by by apply not_0_INR.
    rewrite bind_Ok. eexists _, _. split; [done|].
    split; [by apply round2_unit, ratio_unit|].
    split; [by apply round2_unit, ratio_unit|]. split.
    + intros <-. assert (result ∩ result = result) as -> by set_solver.
      unfold Rdiv. rewrite Rinv_r by by apply not_0_INR. by rewrite round2_1.
    + intros -> _. rewrite size_empty.
      replace (INR 0 / INR (size result)) with 0 by (simpl; unfold Rdiv; ring).
      replace (INR 0 / INR (size gold)) with 0 by (simpl; unfold Rdiv; ring).
      by rewrite round2_0.
Qed.

(** The average-precision loop and the two gain sums in closed form. *)
Lemma ap_loop_closed (hits : list nat) (num_hits i : nat) (ap : R) :
  (1 ≤ i)%nat →
  ∃ n, for_each ap_step (num_hits, ap) (enumerate i hits)
       = Ok (n, ap + ap_sum num_hits i hits).
Proof.
  revert num_hits i ap. induction hits as [|h hits IH]; intros num_hits i ap Hi.
  - exists num_hits. simpl. f_equal. f_equal. lra.
  - cbn [enumerate for_each ap_step ap_sum]. destruct (h =? 1)%nat.
    + rewrite (py_div_Ok _ (INR i)) by (apply not_0_INR; lia).
      rewrite !bind_Ok.
      destruct (IH (num_hits + 1)%nat (S i)
                  (ap + INR (num_hits + 1) / INR i) ltac:(lia)) as [n ->].
      exists n. f_equal. f_equal. lra.
    + rewrite bind_Ok. apply IH. lia.
Qed.

Lemma gains_closed (start : nat) (hits : list nat) :
  (1 ≤ start)%nat →
  mapM gain (enumerate start hits)
  = Ok ((λ ih : nat * nat, INR ih.2 / discount ih.1) <$> enumerate start hits).
Proof.
  intros Hs. apply mapM_Ok. intros [i h] Hin%elem_of_enumerate.
  apply gain_Ok. lia.
Qed.

Lemma ideal_closed (n : nat) :
  mapM (λ i : nat, gain (i, 1%nat)) (seq 1 n)
  = Ok ((λ i : nat, INR 1 / discount i) <$> seq 1 n).
Proof.
  apply mapM_Ok. intros i Hi%list_elem_of_In%in_seq. apply gain_Ok. lia.
Qed.

(** All five metrics for a non-zero cutoff. *)
Lemma metrics_closed results gold_set (k : Z) :
  k ≠ 0%Z →
  let hits := hits_of (slice_to k results).*1 gold_set in
  let nhits := INR (relevant_among (slice_to k results).*1 gold_set) in
  let ngold := INR (size gold_set) in
  let precision := nhits / IZR k in
  let recall := if bool_decide (gold_set ≠ ∅) then nhits / ngold else 0 in
  let n := ideal_hits gold_set k in
  metrics results gold_set k
  = Ok (precision, recall, f1_of precision recall,
        (if bool_decide (gold_set ≠ ∅) then ap_sum 0 1 hits / ngold else 0),
        (if Rlt_dec 0 (idcg n) then dcg 1 hits / idcg n else 0)).
Proof.
  intros Hk hits nhits ngold precision recall n. unfold metrics.
  rewrite sum_list_hits. fold nhits ngold.
  rewrite (py_div_Ok nhits (IZR k)) by (by apply not_0_IZR).
  rewrite bind_Ok. fold precision.
  assert ((if bool_decide (gold_set ≠ ∅)
           then py_div nhits ngold else Ok 0) = Ok recall) as ->.
  { unfold recall. case_bool_decide as Hg; [|done].
    by apply py_div_Ok, size_gold_nonzero. }
  rewrite bind_Ok.
  assert ((if Rlt_dec 0 (precision + recall)
           then py_div (2 * precision * recall) (precision + recall) else Ok 0)
          = Ok (f1_of precision recall)) as ->.
  { unfold f1_of. destruct (Rlt_dec 0 (precision + recall)); [|done].
    apply py_div_Ok. lra. }
  rewrite bind_Ok. fold (hits_of (slice_to k results).*1 gold_set). fold hits.
  destruct (ap_loop_closed hits 0 1 0 (le_n 1)) as [m ->].
  rewrite bind_Ok. rewrite Rplus_0_l.
  assert ((if bool_decide (gold_set ≠ ∅)
           then py_div (ap_sum 0 1 hits) ngold else Ok 0)
          = Ok (if bool_decide (gold_set ≠ ∅) then ap_sum 0 1 hits / ngold else 0))
    as ->.
  { case_bool_decide as Hg; [|done]. by apply py_div_Ok, size_gold_nonzero. }
  rewrite bind_Ok, gains_closed by done. rewrite bind_Ok.
  fold (ideal_hits gold_set k). fold n.
  rewrite ideal_closed, bind_Ok. fold (dcg 1 hits) (idcg n).
  destruct (Rlt_dec 0 (idcg n)); [|done].
  rewrite py_div_Ok by lra. done.
Qed.

Lemma relevant_among_le (r : list string) (gold_set : gset string) :
  (relevant_among r gold_set ≤ length r)%nat.
Proof. apply length_filter. Qed.

Lemma relevant_among_NoDup (r : list string) (gold_set : gset string) :
  NoDup r → (relevant_among r gold_set ≤ size gold_set)%nat.
Proof.
  intros Hnd. unfold relevant_among.
  set (l := filter (λ doc, doc ∈ gold_set) r).
  assert (NoDup l) as Hl by by apply NoDup_filter.
  rewrite <- (size_list_to_set (C := gset string) l Hl).
  apply subseteq_size. intros d Hd%elem_of_list_to_set.
  by apply list_elem_of_filter in Hd as [? _].
Qed.

Lemma length_slice_to {A} (k : Z) (xs : list A) :
  (0 ≤ k)%Z → (Z.of_nat (length (slice_to k xs)) ≤ k)%Z.
Proof. intros Hk. rewrite slice_to_nonneg, length_take by done. lia. Qed.

Lemma f1_of_unit p r : 0 <= p <= 1 → 0 <= r <= 1 → 0 <= f1_of p r <= 1.
Proof.
  intros Hp Hr. unfold f1_of. destruct (Rlt_dec 0 (p + r)) as [Hpos|_]; [|lra].
  split.
  - apply Rdiv_nonneg; [nra|lra].
  - apply Rdiv_le_one; [nra|lra].
Qed.

(** X12. [evaluate_vsm] raises ZeroDivisionError exactly when the
    cutoff [k] is 0 and returns otherwise.  For a positive cutoff the
    precision lies between 0 and 1 and the recall is at least 0; when
    the documents of the ranking are distinct the recall and F1 lie
    between 0 and 1 as well.  For a negative cutoff the precision is 0
    or negative. *)
Theorem evaluate_vsm_domain results (gold_set : gset string) (k : Z) :
  (k = 0%Z → evaluate_vsm results gold_set k = Raise ZeroDivisionError)
  ∧ (k ≠ 0%Z →
       ∃ p r f1 ap ndcg,
         evaluate_vsm results gold_set k = Ok (p, r, f1, ap, ndcg)
         ∧ ((0 < k)%Z → 0 <= p <= 1 ∧ 0 <= r)
         ∧ ((0 < k)%Z → NoDup results.*1 → r <= 1 ∧ 0 <= f1 <= 1)
         ∧ ((k < 0)%Z → p <= 0)).
Proof.
  split; [intros ->; apply evaluate_vsm_zero_cutoff|].
  intros Hk. unfold evaluate_vsm. rewrite metrics_closed by done.
  rewrite bind_Ok. eexists _, _, _, _, _. split; [done|].
  set (r := (slice_to k results).*1).
  set (nhits := relevant_among r gold_set).
  assert (nhits ≤ length r)%nat as Hlen by apply relevant_among_le.
  assert ((0 < k)%Z → 0 <= INR nhits / IZR k <= 1) as Hp.
  { intros Hpos. assert (0 < IZR k) by by apply (IZR_lt 0).
    assert (INR nhits <= IZR k).
    { rewrite INR_IZR_INZ. apply IZR_le.
      pose proof (length_slice_to k results ltac:(lia)) as Hl.
      unfold r in Hlen. rewrite length_fmap in Hlen. lia. }
    pose proof (pos_INR nhits). split.
    - apply Rdiv_nonneg; lra.
    - apply Rdiv_le_one; lra. }
  assert (0 <= (if bool_decide (gold_set ≠ ∅)
                then INR nhits / INR (size gold_set) else 0)) as Hr0.
  { case_bool_decide as Hg; [|lra].
    apply Rdiv_nonneg; [apply pos_INR|].
    apply lt_0_INR. apply size_nonzero in Hg. lia. }
  split; [|split].
  - intros Hpos. split; [by apply round2_unit, Hp|by apply round2_nonneg].
  - intros Hpos Hnd.
    assert (NoDup r) as Hndr.
    { unfold r. rewrite slice_to_nonneg by lia. rewrite fmap_take.
      eapply sublist_NoDup; [done|apply sublist_take]. }
    assert (0 <= (if bool_decide (gold_set ≠ ∅)
                  then INR nhits / INR (size gold_set) else 0) <= 1) as Hr.
    { case_bool_decide as Hg; [|lra].
      apply ratio_unit; [by apply relevant_among_NoDup|by apply size_nonzero]. }
    split; [by apply round2_unit|]. apply round2_unit.
    apply f1_of_unit; [by apply Hp|done].
  - intros Hneg. assert (IZR k < 0) by by apply (IZR_lt k 0).
    apply round2_nonpos. pose proof (pos_INR nhits). unfold Rdiv.
    assert (/ IZR k < 0) by by apply Rinv_lt_0_compat. nra.
Qed.

Lemma py_sum_app xs ys : py_sum (xs ++ ys) = py_sum xs + py_sum ys.
Proof.
  induction xs as [|x xs IH]; simpl.
  - rewrite py_sum_nil. lra.
  - rewrite !py_sum_cons, IH. lra.
Qed.

Lemma py_sum_zeros xs : Forall (λ x, x = 0) xs → py_sum xs = 0.
Proof.
  induction 1 as [|x xs -> _ IH]; [apply py_sum_nil|].
  rewrite py_sum_cons, IH. lra.
Qed.

Lemma enumerate_app {A} (start : nat) (xs ys : list A) :
  enumerate start (xs ++ ys)
  = enumerate start xs ++ enumerate (start + length xs) ys.
Proof.
  revert start. induction xs as [|x xs IH]; intros start; simpl.
  - by rewrite Nat.add_0_r.
  - rewrite IH. do 3 f_equal. lia.
Qed.

Lemma hits_of_relevant (r : list string) (gold_set : gset string) :
  Forall (λ doc, doc ∈ gold_set) r → hits_of r gold_set = replicate (length r) 1%nat.
Proof.
  induction 1 as [|doc r Hd _ IH]; [done|]. unfold hits_of in *.
  rewrite fmap_cons, IH. simpl. by rewrite bool_decide_eq_true_2.
Qed.

Lemma hits_of_irrelevant (r : list string) (gold_set : gset string) :
  Forall (λ doc, doc ∉ gold_set) r → hits_of r gold_set = replicate (length r) 0%nat.
Proof.
  induction 1 as [|doc r Hd _ IH]; [done|]. unfold hits_of in *.
  rewrite fmap_cons, IH. simpl. by rewrite bool_decide_eq_false_2.
Qed.

Lemma relevant_among_app (r1 r2 : list string) (gold_set : gset string) :
  relevant_among (r1 ++ r2) gold_set
  = (relevant_among r1 gold_set + relevant_among r2 gold_set)%nat.
Proof. unfold relevant_among. by rewrite filter_app, length_app. Qed.

Lemma relevant_among_all (r : list string) (gold_set : gset string) :
  Forall (λ doc, doc ∈ gold_set) r → relevant_among r gold_set = length r.
Proof.
  unfold relevant_among. induction 1 as [|doc r Hd _ IH]; [done|].
  rewrite filter_cons_True by done. simpl. by rewrite IH.
Qed.

Lemma relevant_among_none (r : list string) (gold_set : gset string) :
  Forall (λ doc, doc ∉ gold_set) r → relevant_among r gold_set = 0%nat.
Proof.
  unfold relevant_among. induction 1 as [|doc r Hd _ IH]; [done|].
  by rewrite filter_cons_False by done.
Qed.

Lemma ap_sum_zeros (num_hits i n : nat) : ap_sum num_hits i (replicate n 0%nat) = 0.
Proof. revert i. induction n as [|n IH]; intros i; [done|]. simpl. apply IH. Qed.

Lemma ap_sum_ones (num_hits m n : nat) :
  ap_sum num_hits (num_hits + 1) (replicate m 1%nat ++ replicate n 0%nat) = INR m.
Proof.
  revert num_hits. induction m as [|m IH]; intros num_hits.
  - simpl. apply ap_sum_zeros.
  - cbn [replicate app ap_sum Nat.eqb].
    replace (S (num_hits + 1)) with (num_hits + 1 + 1)%nat by lia.
    rewrite IH, S_INR. unfold Rdiv. rewrite Rinv_r; [lra|].
    apply not_0_INR. lia.
Qed.

Lemma dcg_zeros (start n : nat) : dcg start (replicate n 0%nat) = 0.
Proof.
  unfold dcg. apply py_sum_zeros. apply Forall_fmap, Forall_forall.
  intros [i h] Hin. simpl.
  assert (h = 0%nat) as ->.
  { clear -Hin. revert start Hin. induction n as [|n IH]; intros start; simpl.
    - by intros ?%elem_of_nil.
    - intros [[= _ ->]|Hin]%elem_of_cons; [done|]. by eapply IH. }
  simpl. unfold Rdiv. ring.
Qed.

Lemma dcg_ones (start m n : nat) :
  dcg start (replicate m 1%nat ++ replicate n 0%nat)
  = py_sum ((λ i : nat, INR 1 / discount i) <$> seq start m).
Proof.
  unfold dcg. rewrite enumerate_app, fmap_app, py_sum_app.
  fold (dcg (start + length (replicate m 1%nat)) (replicate n 0%nat)).
  rewrite dcg_zeros, Rplus_0_r. f_equal.
  revert start. induction m as [|m IH]; intros start; [done|].
  simpl. by rewrite IH.
Qed.

Lemma discount_pos (i : nat) : (1 ≤ i)%nat → 0 < discount i.
Proof. apply log2_succ_pos. Qed.

Lemma idcg_pos (n : nat) : (1 ≤ n)%nat → 0 < idcg n.
Proof.
  intros Hn. unfold idcg.
  assert (∀ start m, (1 ≤ start)%nat →
            0 <= py_sum ((λ i : nat, INR 1 / discount i) <$> seq start m)) as Hge.
  { intros start m. revert start. induction m as [|m IH]; intros start Hs.
    - unfold py_sum. simpl. lra.
    - simpl seq. rewrite fmap_cons, py_sum_cons.
      pose proof (IH (S start) ltac:(lia)).
      pose proof (discount_pos start Hs).
      assert (0 <= INR 1 / discount start) by (apply Rdiv_nonneg; simpl; lra).
      lra. }
  destruct n as [|n]; [lia|]. simpl seq. rewrite fmap_cons, py_sum_cons.
  pose proof (Hge 2%nat n ltac:(lia)). pose proof (discount_pos 1 (le_n 1)).
  assert (0 < INR 1 / discount 1).
  { unfold Rdiv. apply Rmult_lt_0_compat; [simpl; lra|].
    by apply Rinv_0_lt_compat. }
  lra.
Qed.

(** X13. When none of the first [k] results is relevant, every one of
    the five metrics is 0, for any gold set and any non-zero cutoff. *)
Theorem evaluate_vsm_no_hit results (gold_set : gset string) (k : Z) :
  k ≠ 0%Z →
  Forall (λ doc, doc ∉ gold_set) (slice_to k results).*1 →
  evaluate_vsm results gold_set k = Ok (0, 0, 0, 0, 0).
Proof.
  intros Hk Hno. unfold evaluate_vsm. rewrite metrics_closed by done.
  rewrite bind_Ok. rewrite relevant_among_none, hits_of_irrelevant by done.
  replace (ap_sum 0 1 (replicate (length (slice_to k results).*1) 0%nat)) with 0
    by (by rewrite ap_sum_zeros).
  rewrite dcg_zeros.
  replace (INR 0 / IZR k) with 0 by (simpl; unfold Rdiv; ring).
  assert ((if bool_decide (gold_set ≠ ∅) then INR 0 / INR (size gold_set) else 0) = 0)
    as ->.
  { case_bool_decide; [|done]. simpl. unfold Rdiv. ring. }
  assert ((if bool_decide (gold_set ≠ ∅) then 0 / INR (size gold_set) else 0) = 0)
    as ->.
  { case_bool_decide; [|done]. unfold Rdiv. ring. }
  assert (f1_of 0 0 = 0) as ->.
  { unfold f1_of. destruct (Rlt_dec 0 (0 + 0)); [lra|done]. }
  assert ((if Rlt_dec 0 (idcg (ideal_hits gold_set k))
           then 0 / idcg (ideal_hits gold_set k) else 0) = 0) as ->.
  { destruct (Rlt_dec 0 (idcg (ideal_hits gold_set k))); [|done].
    unfold Rdiv. ring. }
  by rewrite round2_0.
Qed.

Lemma evaluate_vsm_no_hit_witness :
  evaluate_vsm [("a.txt", 1); ("b.txt", 1)] {["c.txt"]} 5 = Ok (0, 0, 0, 0, 0).
Proof.
  apply evaluate_vsm_no_hit; [lia|].
  cbn. repeat constructor; set_solver.
Defined.

(** X14. An ideal ranking: when the first [k] results (k > 0, gold set
    not empty) begin with min(|gold|, k) relevant documents and hold no
    other relevant one, nDCG is exactly 1, also after rounding; before
    rounding, precision is that number of documents over [k], and recall
    and average precision are both that number over |gold|; the reported
    recall and average precision are equal, and the reported precision
    and recall are at most half a hundredth away from those quotients. *)
Theorem evaluate_vsm_ideal_ranking results (gold_set : gset string) (k : Z)
    (rel rest : list string) :
  (0 < k)%Z → gold_set ≠ ∅ →
  (take (Z.to_nat k) results).*1 = rel ++ rest →
  Forall (λ doc, doc ∈ gold_set) rel →
  Forall (λ doc, doc ∉ gold_set) rest →
  length rel = ideal_hits gold_set k →
  let m := INR (length rel) in
  let g := INR (size gold_set) in
  metrics results gold_set k
  = Ok (m / IZR k, m / g, f1_of (m / IZR k) (m / g), m / g, 1)
  ∧ ∃ p r f1 ap,
      evaluate_vsm results gold_set k = Ok (p, r, f1, ap, 1)
      ∧ ap = r
      ∧ -1 / 200 <= p - m / IZR k <= 1 / 200
      ∧ -1 / 200 <= r - m / g <= 1 / 200.
Proof.
  intros Hk Hgold Hr Hrel Hrest Hlen m g.
  assert (metrics results gold_set k
          = Ok (m / IZR k, m / g, f1_of (m / IZR k) (m / g), m / g, 1)) as Hm.
  { rewrite metrics_closed by lia. rewrite slice_to_nonneg by lia.
    rewrite Hr, relevant_among_app, relevant_among_all, relevant_among_none by done.
    rewrite Nat.add_0_r. fold m g.
    rewrite !bool_decide_eq_true_2 by done.
    unfold hits_of. rewrite fmap_app.
    fold (hits_of rel gold_set) (hits_of rest gold_set).
    rewrite hits_of_relevant, hits_of_irrelevant by done.
    rewrite (ap_sum_ones 0). fold m.
    rewrite dcg_ones. rewrite <- Hlen. fold (idcg (length rel)).
    assert (1 ≤ length rel)%nat as Hone.
    { rewrite Hlen. unfold ideal_hits. apply size_nonzero in Hgold. lia. }
    pose proof (idcg_pos (length rel) Hone) as Hpos.
    destruct (Rlt_dec 0 (idcg (length rel))); [|lra].
    by replace (idcg (length rel) / idcg (length rel)) with 1 by (field; lra). }
  split; [done|]. unfold evaluate_vsm. rewrite Hm, bind_Ok, round2_1.
  eexists _, _, _, _. split; [done|]. split; [done|].
  destruct (round2_close (m / IZR k)) as (n1 & _ & H1).
  destruct (round2_close (m / g)) as (n2 & _ & H2). done.
Qed.

Lemma evaluate_vsm_ideal_ranking_witness :
  ∃ p r f1 ap,
    evaluate_vsm [("a.txt", 1); ("b.txt", 1)] {["a.txt"]} 5 = Ok (p, r, f1, ap, 1)
    ∧ ap = r.
Proof.
  destruct (evaluate_vsm_ideal_ranking [("a.txt", 1); ("b.txt", 1)] {["a.txt"]} 5
              ["a.txt"] ["b.txt"])
    as [_ (p & r & f1 & ap & H & Heq & _)].
  - lia.
  - set_solver.
  - reflexivity.
  - repeat constructor; set_solver.
  - repeat constructor; set_solver.
  - by vm_compute.
  - by exists p, r, f1, ap.
Defined.

End MetricsBounds.

(** * Order of the ranking: ties, cutoff, unknown queries *)

Section RankOrder.
Import PyNum SearchEngine Measures Ties Reporting.
Local Open Scope R_scope.
Implicit Types (l : list (string * R)) (wm : Weights).











(** What a cutoff after sorting keeps. *)
Lemma take_sort_desc_best l (n : nat) e e' :
  e ∈ take n (sort_desc l) → e' ∈ l → e' ∉ take n (sort_desc l) →
  score_ge e e'.
Proof.
  intros He He' Hout.
  pose proof (sort_desc_Sorted l) as Hs.
  rewrite <- (take_drop n (sort_desc l)) in Hs.
  apply (StronglySorted_app_1_elem_of _ _ _ _ _ Hs He).
  rewrite <- sort_desc_Permutation in He'.
  rewrite <- (take_drop n (sort_desc l)) in He'.
  by apply elem_of_app in He' as [?|?].
Qed.

(** X16. The cutoff of [rank_vsm] keeps the best: for [top_k ≥ 0], every
    positively scored document that is left out of the result has a
    score no higher than every document in the result. *)
Theorem rank_vsm_cutoff_keeps_best
    (stem : string → string) (STOPWORDS : gset string)
    query vsm wm scheme (top_k : Z) :
  (0 ≤ top_k)%Z →
  let q_vec := query_weights scheme vsm (Counter (preprocess stem STOPWORDS query)) in
  ∃ ranked,
    rank_vsm stem STOPWORDS query vsm wm scheme top_k = Ok ranked
    ∧ ∀ e e', e ∈ ranked → e' ∈ positive_scores wm q_vec → e' ∉ ranked →
              e'.2 <= e.2.
Proof.
  intros Hk q_vec. eexists. split; [apply rank_vsm_Ok|]. fold q_vec.
  rewrite slice_to_nonneg by done. intros e e' He He' Hout.
  by apply (take_sort_desc_best (positive_scores wm q_vec) (Z.to_nat top_k)).
Qed.

Lemma rank_vsm_cutoff_keeps_best_witness :
  let vsm := {| tf := []; df := []; idf := [("x", 1)]; docs := [] |} in
  let wm : Weights := [("a.txt", [("x", 1)]); ("b.txt", [("x", 1)])] in
  ∃ ranked,
    rank_vsm (λ w, w) ∅ "x" vsm wm "tfidf" 1 = Ok ranked
    ∧ ∀ e e', e ∈ ranked →
              e' ∈ positive_scores wm
                     (query_weights "tfidf" vsm (Counter (preprocess (λ w, w) ∅ "x"))) →
              e' ∉ ranked → e'.2 <= e.2.
Proof.
  intros vsm wm.
  apply (rank_vsm_cutoff_keeps_best (λ w, w) ∅ "x" vsm wm "tfidf" 1). lia.
Defined.

Lemma Counter_keys (tokens : list string) t (f : nat) :
  (t, f) ∈ Counter tokens → t ∈ tokens.
Proof.
  intros Hin. apply occurrences_elem_of.
  assert (is_Some (Dict.get (Counter tokens) t)) as Hs.
  { apply Dict_get_is_Some, list_elem_of_fmap. by exists (t, f). }
  rewrite Counter_spec in Hs. case_decide; [by destruct Hs|done].
Qed.

Lemma norm2_zeros (d : list (string * R)) :
  Forall (λ e : string * R, e.2 = 0) d → norm2 d = 0.
Proof.
  intros Hd. unfold norm2. apply py_sum_zeros.
  apply Forall_fmap, Forall_fmap. eapply Forall_impl; [exact Hd|].
  intros [t w]. simpl. intros ->. ring.
Qed.

Lemma positive_scores_zero_query wm (q_vec : list (string * R)) :
  norm2 q_vec = 0 → positive_scores wm q_vec = [].
Proof.
  intros Hq. unfold positive_scores.
  induction wm as [|[doc weights] wm IH]; [done|].
  rewrite fmap_cons, filter_cons_False; [done|]. simpl. unfold cosine.
  destruct (Req_dec_T (norm2 weights) 0); [lra|].
  destruct (Req_dec_T (norm2 q_vec) 0); [lra|done].
Qed.

(** X17. A query none of whose preprocessed tokens has an idf entry in
    the model (in particular a query with no token at all) gets the empty
    ranking under either scheme: its vector is all zero, so every
    document is skipped. *)
Theorem rank_vsm_unknown_query
    (stem : string → string) (STOPWORDS : gset string)
    query vsm wm scheme (top_k : Z) :
  (∀ t, t ∈ preprocess stem STOPWORDS query → Dict.get (idf vsm) t = None) →
  rank_vsm stem STOPWORDS query vsm wm scheme top_k = Ok [].
Proof.
  intros Hunknown. rewrite rank_vsm_Ok.
  rewrite positive_scores_zero_query.
  { unfold slice_to. cbn [sort_desc foldr].
    destruct (0 <=? top_k)%Z; by rewrite take_nil. }
  apply norm2_zeros. unfold query_weights. apply Forall_fmap, Forall_forall.
  intros [t f] Hin%Counter_keys. simpl.
  unfold idf_get. rewrite (Hunknown t Hin). simpl.
  destruct (String.eqb scheme "sublinear"); ring.
Qed.

Lemma rank_vsm_unknown_query_witness :
  rank_vsm (λ w, w) ∅ "y z"
    {| tf := []; df := []; idf := [("x", 1)]; docs := [] |}
    [("a.txt", [("x", 1)])] "tfidf" 5
  = Ok [].
Proof.
  apply rank_vsm_unknown_query. intros t Ht.
  assert (preprocess (λ w, w) ∅ "y z" = ["y"; "z"]) as E by (by vm_compute).
  rewrite E in Ht.
  repeat (apply elem_of_cons in Ht as [->|Ht]; [done|]).
  by apply elem_of_nil in Ht.
Defined.

(** X18. [explain_terms] returns nothing for a document that is not in
    the weight model; otherwise, for [top_n ≥ 0], it returns the first
    [top_n] entries of the document's weights sorted by weight, highest
    first: the list is sorted, has min(top_n, number of terms) entries,
    each of them an entry of the document, and every entry left out
    weighs no more than every entry listed.  The [vsm] argument plays no
    part. *)
Theorem explain_terms_top doc vsm wm (top_n : Z) :
  (Dict.get wm doc = None → explain_terms doc vsm wm top_n = [])
  ∧ (∀ weighted, Dict.get wm doc = Some weighted → (0 ≤ top_n)%Z →
       let listed := explain_terms doc vsm wm top_n in
       StronglySorted score_ge listed
       ∧ length listed = (Z.to_nat top_n `min` length weighted)%nat
       ∧ (∀ e, e ∈ listed → e ∈ weighted)
       ∧ (∀ e e', e ∈ listed → e' ∈ weighted → e' ∉ listed → e'.2 <= e.2))
  ∧ (∀ vsm', explain_terms doc vsm' wm top_n = explain_terms doc vsm wm top_n).
Proof.
  unfold explain_terms. split; [by intros ->|]. split; [|done].
  intros weighted -> Hn. simpl. rewrite slice_to_nonneg by done.
  split; [|split; [|split]].
  - pose proof (sort_desc_Sorted weighted) as Hs.
    rewrite <- (take_drop (Z.to_nat top_n) (sort_desc weighted)) in Hs.
    by apply StronglySorted_app_1_l in Hs.
  - rewrite length_take. by rewrite sort_desc_Permutation.
  - intros e He%subseteq_take. by rewrite sort_desc_Permutation in He.
  - intros e e'. apply take_sort_desc_best.
Qed.

End RankOrder.

(** * The reporting helpers *)

Section ReportingFacts.
Import Chars Lexer Grammar PyNum BooleanIR SearchEngine Queries Reporting.

Lemma unbreak_no_newline c : unbreak c ≠ "010"%char.
Proof. destruct c as [[] [] [] [] [] [] [] []]; by vm_compute. Qed.

Lemma one_line_no_newline text : "010"%char ∉ one_line text.
Proof.
  unfold one_line. intros Hin. apply list_elem_of_In, in_map_iff in Hin as (c & Hc & _).
  by apply unbreak_no_newline in Hc.
Qed.

(** X19. The snippet never holds a line break.  For [length ≥ 0] a text
    of at most [length] characters is returned whole (line breaks
    replaced by spaces), and a longer one is cut to its first [length]
    characters followed by three dots, so the snippet has at most
    [length + 3] characters.  A negative [length] always cuts: the last
    [-length] characters are dropped and the dots appended, even for an
    empty text. *)
Theorem snippet_shape text (len : Z) :
  let txt := one_line text in
  ("010"%char ∉ snippet text len)
  ∧ ((Z.of_nat (length txt) ≤ len)%Z → snippet text len = txt)
  ∧ ((0 ≤ len < Z.of_nat (length txt))%Z →
       snippet text len = take (Z.to_nat len) txt ++ dots
       ∧ Z.of_nat (length (snippet text len)) = (len + 3)%Z)
  ∧ ((0 ≤ len)%Z → (Z.of_nat (length (snippet text len)) ≤ len + 3)%Z)
  ∧ ((len < 0)%Z →
       snippet text len = take (length txt - Z.to_nat (- len)) txt ++ dots).
Proof.
  intros txt. unfold snippet. fold txt.
  split; [|split; [|split; [|split]]].
  - destruct (len <? Z.of_nat (length txt))%Z; [|apply one_line_no_newline].
    intros [Hin|Hin]%elem_of_app.
    + unfold slice_to in Hin.
      destruct (0 <=? len)%Z; apply subseteq_take in Hin;
        by apply one_line_no_newline in Hin.
    + unfold dots in Hin. simpl in Hin.
      repeat (apply elem_of_cons in Hin as [?|Hin]; [done|]).
      by apply elem_of_nil in Hin.
  - intros Hle. by rewrite (proj2 (Z.ltb_ge len _)).
  - intros [H0 Hlt]. rewrite (proj2 (Z.ltb_lt len _)) by done.
    rewrite slice_to_nonneg by done. split; [done|].
    rewrite length_app, length_take. simpl. lia.
  - intros H0. destruct (len <? Z.of_nat (length txt))%Z eqn:E.
    + rewrite slice_to_nonneg by done. rewrite length_app, length_take. simpl. lia.
    + apply Z.ltb_ge in E. lia.
  - intros Hneg. rewrite (proj2 (Z.ltb_lt len _)) by lia.
    by rewrite slice_to_negative.
Qed.

Lemma starts_with_prefix n post : starts_with n (n ++ post) = true.
Proof.
  induction n as [|c n IH]; [done|]. simpl. by rewrite Ascii.eqb_refl.
Qed.

Lemma contains_starts_with n hay : starts_with n hay = true → contains n hay = true.
Proof. intros H. destruct hay; simpl; by rewrite H. Qed.

Lemma contains_infix n pre post : contains n (pre ++ n ++ post) = true.
Proof.
  induction pre as [|c pre IH].
  - rewrite app_nil_l. apply contains_starts_with, starts_with_prefix.
  - cbn [app contains]. rewrite IH. apply orb_true_r.
Qed.

Lemma upper_lower_char c : upper_char (lower_char c) = upper_char c.
Proof. destruct c as [[] [] [] [] [] [] [] []]; reflexivity. Qed.

Lemma upper_lower (l : list ascii) : upper (lower l) = upper l.
Proof. unfold upper, lower. rewrite map_map. apply map_ext, upper_lower_char. Qed.

(** An operator token comes from one of the three keywords. *)
Lemma normalise_operator_inv l :
  l ∈ [kw_not; kw_and; kw_or] ∨ (l ≠ [] ∧ forallb term_char l = true) →
  is_operator (normalise l) = true →
  l ∈ [kw_not; kw_and; kw_or].
Proof.
  intros [Hl|[Hne Hl]]; [done|]. unfold normalise.
  destruct (bool_decide (string_of_list_ascii l ∈ ["and"; "or"; "not"])) eqn:E.
  - intros _. apply bool_decide_eq_true in E.
    rewrite <- (list_ascii_of_string_of_list_ascii l).
    repeat (apply elem_of_cons in E as [->|E]; [set_solver|]).
    by apply elem_of_nil in E.
  - unfold is_operator. intros Hop%bool_decide_eq_true.
    rewrite <- (list_ascii_of_string_of_list_ascii l) in Hl.
    repeat (apply elem_of_cons in Hop as [Hop|Hop];
            [rewrite Hop in Hl; by vm_compute in Hl|]).
    by apply elem_of_nil in Hop.
Qed.

(** X20. [explain_ops] explains every operator the evaluator acts on: if
    the lexer of [eval_boolean] reads an operator token in the query, the
    explanation of that operator is in the list.  The converse fails,
    because the test is a substring test: the one-term query [bandung]
    is explained as an AND. *)
Theorem explain_ops_covers_operators :
  (∀ query op,
     op ∈ tokenize query → is_operator op = true → about op ∈ explain_ops query)
  ∧ tokenize "bandung" = ["bandung"]
  ∧ explain_ops "bandung" = [about_and].
Proof.
  split; [|split; by vm_compute].
  intros query op (l & pre & post & -> & Hq & Hl)%tokenize_inv Hop.
  pose proof (normalise_operator_inv l Hl Hop) as Hk.
  assert (upper (list_ascii_of_string query) = upper pre ++ upper l ++ upper post)
    as Hu.
  { rewrite <- upper_lower, Hq. unfold upper. by rewrite !map_app. }
  unfold explain_ops. rewrite Hu.
  repeat (apply elem_of_cons in Hk as [->|Hk]); [| | |by apply elem_of_nil in Hk].
  - change (upper kw_not) with (list_ascii_of_string "NOT").
    rewrite (contains_infix (list_ascii_of_string "NOT")).
    apply elem_of_app. right. apply elem_of_app. right. apply list_elem_of_here.
  - change (upper kw_and) with (list_ascii_of_string "AND").
    rewrite (contains_infix (list_ascii_of_string "AND")).
    apply elem_of_app. left. apply list_elem_of_here.
  - change (upper kw_or) with (list_ascii_of_string "OR").
    rewrite (contains_infix (list_ascii_of_string "OR")).
    apply elem_of_app. right. apply elem_of_app. left. apply list_elem_of_here.
Qed.

End ReportingFacts.

(** * Preprocessing and the sublinear weights *)

Section PreprocessFacts.
Import Chars PyNum BooleanIR SearchEngine Measures Queries Tokens.

Lemma scrubbed_char c :
  is_space (scrub_char (lower_char c)) = false →
  clean_char (scrub_char (lower_char c)) = true.
Proof. destruct c as [[] [] [] [] [] [] [] []]; vm_compute; congruence. Qed.

Lemma clean_char_fixed c :
  clean_char c = true → lower_char c = c ∧ scrub_char c = c ∧ is_space c = false.
Proof.
  destruct c as [[] [] [] [] [] [] [] []]; vm_compute; intros; repeat split; congruence.
Qed.

(** The words [split] cuts out are non-empty and hold no white space. *)
Lemma split_from_clean (cur s : list ascii) :
  Forall (λ c, clean_char c = true) cur →
  Forall (λ c, is_space c = false → clean_char c = true) s →
  Forall (λ w, w ≠ [] ∧ Forall (λ c, clean_char c = true) w) (split_from cur s).
Proof.
  intros Hcur Hs. revert cur Hcur.
  induction Hs as [|c s Hc Hs IH]; intros cur Hcur; simpl.
  - destruct cur; [constructor|]. constructor; [done|constructor].
  - destruct (is_space c) eqn:Ec.
    + destruct cur; [by apply IH|]. constructor; [done|]. by apply IH.
    + apply IH. apply Forall_app. split; [done|]. constructor; [by apply Hc|done].
Qed.

Lemma clean_of_chars (w : list ascii) :
  w ≠ [] → Forall (λ c, clean_char c = true) w → clean (string_of_list_ascii w) = true.
Proof.
  intros Hne Hw. unfold clean. rewrite list_ascii_of_string_of_list_ascii.
  rewrite bool_decide_eq_false_2 by done. simpl.
  apply forallb_forall. intros c Hc%list_elem_of_In.
  rewrite Forall_forall in Hw. by apply Hw.
Qed.

(** X21. For every text, the words that [preprocess] hands to the
    stemmer are non-empty words over lower-case letters and digits that
    are not stop words; the result is the list of their stems, in
    order. *)
Theorem preprocess_tokens_clean
    (stem : string → string) (STOPWORDS : gset string) (text : string) :
  ∃ ws,
    preprocess stem STOPWORDS text = stem <$> ws
    ∧ Forall (λ w, clean w = true ∧ w ∉ STOPWORDS) ws.
Proof.
  unfold preprocess. eexists. split; [done|].
  apply Forall_forall. intros w [Hsw Hw]%list_elem_of_filter.
  split; [|done]. apply list_elem_of_fmap in Hw as (lw & -> & Hlw).
  assert (Forall (λ w, w ≠ [] ∧ Forall (λ c, clean_char c = true) w)
            (split (map scrub_char (lower (list_ascii_of_string text))))) as Hall.
  { apply split_from_clean; [done|]. unfold lower. rewrite map_map.
    apply Forall_forall. intros c Hc%list_elem_of_In%in_map_iff.
    destruct Hc as (c0 & <- & _). apply scrubbed_char. }
  rewrite Forall_forall in Hall. destruct (Hall lw Hlw) as [Hne Hcl].
  by apply clean_of_chars.
Qed.

Lemma map_flat (f : ascii → ascii) (ls : list (list ascii)) :
  f " "%char = " "%char → map f (flat ls) = flat (map f <$> ls).
Proof.
  intros Hf. induction ls as [|l ls IH]; [done|].
  destruct ls as [|l2 ls]; [done|].
  change (flat (l :: l2 :: ls)) with (l ++ " "%char :: flat (l2 :: ls)).
  change (flat (map f <$> l :: l2 :: ls))
    with (map f l ++ " "%char :: flat (map f <$> l2 :: ls)).
  rewrite <- IH, map_app. simpl. by rewrite Hf.
Qed.

Lemma map_fixed (f : ascii → ascii) (ls : list (list ascii)) :
  Forall (Forall (λ c, f c = c)) ls → map f <$> ls = ls.
Proof.
  induction 1 as [|l ls Hl _ IH]; [done|]. rewrite fmap_cons, IH. f_equal.
  induction Hl as [|c l Hc _ IHl]; [done|]. simpl. by rewrite Hc, IHl.
Qed.

Lemma split_from_run (cur l rest : list ascii) :
  Forall (λ c, is_space c = false) l →
  split_from cur (l ++ rest) = split_from (cur ++ l) rest.
Proof.
  intros Hl. revert cur. induction Hl as [|c l Hc _ IH]; intros cur.
  - by rewrite app_nil_r.
  - simpl. rewrite Hc, IH. by rewrite <- app_assoc.
Qed.

Lemma split_flat (ls : list (list ascii)) :
  Forall (λ l, l ≠ [] ∧ Forall (λ c, is_space c = false) l) ls →
  split (flat ls) = ls.
Proof.
  unfold split. induction 1 as [|l ls [Hne Hl] Hls IH]; [done|].
  destruct ls as [|l2 ls];
    [cbn [flat]
    |change (flat (l :: l2 :: ls)) with (l ++ " "%char :: flat (l2 :: ls))].
  - rewrite <- (app_nil_r l) at 1. rewrite split_from_run by done. simpl.
    by destruct l.
  - rewrite split_from_run by done. set (r := flat (l2 :: ls)) in *.
    simpl. rewrite IH. by destruct l.
Qed.

Lemma clean_inv (w : string) :
  clean w = true →
  list_ascii_of_string w ≠ []
  ∧ Forall (λ c, clean_char c = true) (list_ascii_of_string w).
Proof.
  unfold clean. intros [H1 H2]%andb_prop. split.
  - apply negb_true_iff in H1. by apply bool_decide_eq_false in H1.
  - apply Forall_forall. intros c Hc%list_elem_of_In.
    rewrite forallb_forall in H2. by apply H2.
Qed.

(** [preprocess] on a list of clean tokens joined by spaces. *)
Lemma preprocess_join
    (stem : string → string) (STOPWORDS : gset string) (toks : list string) :
  Forall (λ w, clean w = true) toks →
  preprocess stem STOPWORDS (join " " toks)
  = stem <$> filter (λ w, w ∉ STOPWORDS) toks.
Proof.
  intros Htoks. unfold preprocess. rewrite list_ascii_of_join.
  set (ls := list_ascii_of_string <$> toks).
  assert (Forall (λ l, l ≠ [] ∧ Forall (λ c, clean_char c = true) l) ls) as Hls.
  { unfold ls. apply Forall_fmap. eapply Forall_impl; [exact Htoks|].
    intros w Hw. by apply clean_inv. }
  unfold lower. rewrite (map_flat lower_char) by done.
  rewrite (map_fixed lower_char).
  2:{ eapply Forall_impl; [exact Hls|]. intros l [_ Hl].
      eapply Forall_impl; [exact Hl|]. intros c Hc. by apply clean_char_fixed. }
  rewrite (map_flat scrub_char) by done.
  rewrite (map_fixed scrub_char).
  2:{ eapply Forall_impl; [exact Hls|]. intros l [_ Hl].
      eapply Forall_impl; [exact Hl|]. intros c Hc. by apply clean_char_fixed. }
  rewrite split_flat.
  2:{ eapply Forall_impl; [exact Hls|]. intros l [Hne Hl]. split; [done|].
      eapply Forall_impl; [exact Hl|]. intros c Hc. by apply clean_char_fixed. }
  do 2 f_equal. unfold ls. rewrite <- list_fmap_compose.
  clear. induction toks as [|w toks IH]; [done|].
  rewrite fmap_cons, IH. simpl. by rewrite string_of_list_ascii_of_string.
Qed.

(** X22. Round trip of joining and preprocessing: for a token list whose
    tokens are non-empty words over lower-case letters and digits (what
    the preprocessing script stores), [preprocess(" ".join(tokens))], as
    [build_vsm] calls it, gives back the tokens, without the stop words
    and stemmed, so the term frequency of a term in such a document is
    the number of non-stop-word tokens whose stem it is. *)
Theorem preprocess_joined_tokens
    (stem : string → string) (STOPWORDS : gset string) (toks : list string) :
  Forall (λ w, clean w = true) toks →
  preprocess stem STOPWORDS (join " " toks)
  = stem <$> filter (λ w, w ∉ STOPWORDS) toks
  ∧ ∀ t, term_frequency stem STOPWORDS toks t
         = occurrences t (stem <$> filter (λ w, w ∉ STOPWORDS) toks).
Proof.
  intros Htoks. split; [by apply preprocess_join|].
  intros t. unfold term_frequency. by rewrite preprocess_join.
Qed.

Lemma preprocess_joined_tokens_witness :
  preprocess (λ w, w) {["the"]} (join " " ["the"; "teknik"; "itb2"])
  = (λ w, w) <$> filter (λ w, w ∉ ({["the"]} : gset string)) ["the"; "teknik"; "itb2"].
Proof.
  apply (preprocess_joined_tokens (λ w, w) {["the"]} ["the"; "teknik"; "itb2"]).
  repeat constructor.
Defined.

End PreprocessFacts.

(** * The sublinear weights *)

Section SublinearFacts.
Import PyNum BooleanIR SearchEngine Measures Damping.
Local Open Scope R_scope.

Lemma ln_bounds x : 1 <= x → 0 <= ln x <= x - 1.
Proof.
  intros Hx. split.
  - destruct (Req_dec_T x 1) as [->|Hne]; [rewrite ln_1; lra|].
    pose proof (ln_increasing 1 x ltac:(lra) ltac:(lra)) as H.
    rewrite ln_1 in H. lra.
  - pose proof (exp_ineq1_le (ln x)) as H. rewrite exp_ln in H by lra. lra.
Qed.

Lemma weight_tfidf_sublinear_Ok vsm :
  Forall (λ entry : string * list (string * nat),
            Forall (λ tfreq : string * nat, (1 ≤ tfreq.2)%nat) entry.2) (tf vsm) →
  weight_tfidf_sublinear vsm = Ok (sublinear_weights vsm).
Proof.
  intros Htf. unfold weight_tfidf_sublinear, sublinear_weights.
  apply mapM_Ok. intros [doc terms] Hin.
  rewrite Forall_forall in Htf. specialize (Htf _ Hin). simpl in *.
  rewrite (mapM_Ok _
             (λ tfreq : string * nat,
                (tfreq.1, (1 + ln (INR tfreq.2)) * idf_get vsm tfreq.1))); [done|].
  intros [t f] Ht. rewrite Forall_forall in Htf. specialize (Htf _ Ht). simpl in *.
  by rewrite py_log_Ok by (apply lt_0_INR; lia).
Qed.

Lemma idf_get_built_nonneg stem STOPWORDS (docs : Docs) t :
  let df := df_after stem STOPWORDS [] docs in
  0 <= default 0
         (Dict.get ((λ e : string * nat,
                       (e.1, smoothed_idf (length docs)
                               (default 0%nat (Dict.get df e.1)))) <$> df) t).
Proof.
  intros df.
  rewrite (Dict_get_fmap
             (λ k (_ : nat), smoothed_idf (length docs)
                (default 0%nat (Dict.get df k)))).
  assert (1 <= smoothed_idf (length docs) (default 0%nat (Dict.get df t))) as H.
  { unfold df. rewrite (proj1 (df_after_fold stem STOPWORDS docs [] t)). simpl.
    apply smoothed_idf_ge_1, doc_frequency_le. }
  destruct (Dict.get df t) as [n|]; simpl in *; lra.
Qed.

(** X23. For every collection, the sublinear weight model of the built
    VSM exists and gives each term of each document the weight
    (1 + ln tf) * idf; it has the same documents in the same order as
    the standard model; every tf is at least 1, and each sublinear
    weight lies between 0 and the standard weight tf * idf, the two
    being equal when tf = 1. *)
Theorem sublinear_weights_damped
    (stem : string → string) (STOPWORDS : gset string) (docs : Docs) :
  ∃ vsm,
    build_vsm stem STOPWORDS docs = Ok vsm
    ∧ weight_tfidf_sublinear vsm = Ok (sublinear_weights vsm)
    ∧ (sublinear_weights vsm).*1 = (weight_tfidf_standard vsm).*1
    ∧ ∀ entry tfreq, entry ∈ tf vsm → tfreq ∈ entry.2 →
        let w := (1 + ln (INR tfreq.2)) * idf_get vsm tfreq.1 in
        let w' := INR tfreq.2 * idf_get vsm tfreq.1 in
        (1 ≤ tfreq.2)%nat ∧ 0 <= w <= w' ∧ (tfreq.2 = 1%nat → w = w').
Proof.
  set (vsm := {| tf := tf_after stem STOPWORDS [] docs;
                 df := df_after stem STOPWORDS [] docs;
                 idf := (λ e : string * nat,
                           (e.1, smoothed_idf (length docs)
                                   (default 0%nat
                                      (Dict.get (df_after stem STOPWORDS [] docs) e.1))))
                        <$> df_after stem STOPWORDS [] docs;
                 docs := docs |}).
  exists vsm. split; [apply build_vsm_Ok|].
  pose proof (tf_after_positive stem STOPWORDS docs [] (Forall_nil_2 _)) as Htf.
  split; [by apply weight_tfidf_sublinear_Ok|]. split.
  { unfold sublinear_weights, weight_tfidf_standard.
    by rewrite <- !list_fmap_compose. }
  intros entry tfreq Hentry Htfreq w w'.
  rewrite Forall_forall in Htf. specialize (Htf entry Hentry).
  rewrite Forall_forall in Htf. specialize (Htf tfreq Htfreq).
  split; [done|].
  assert (0 <= idf_get vsm tfreq.1) as Hidf by apply idf_get_built_nonneg.
  assert (1 <= INR tfreq.2) as Hf by (apply (le_INR 1); lia).
  pose proof (ln_bounds (INR tfreq.2) Hf) as [Hl1 Hl2].
  unfold w, w'. split; [split; nra|].
  intros ->. simpl. rewrite ln_1. lra.
Qed.

End SublinearFacts.
